(** * The resumable, rate-limited crawl pipeline of theme-scraper.py

    A shallow embedding of the parts of [theme-scraper.py] that carry the
    pipeline: [RateLimiter], [CheckpointManager], [GitHubFetcher] (its
    requests, and the fetcher behind its limiter), [ThemeAnalyzer]'s
    categorisation, [DatabaseManager]'s upsert and
    [ThemeScraperAgent]; and, around it, the quality score of
    [DatabaseManager], the key rotation of [MiniMaxClient], [query_top]
    with the report of [_export_results], and [analyze_files].  Python sets
    and dicts are stdpp's [gset] and [gmap]; integers are [Z] or [nat]; an
    exception is a value of [exn] carried by [result]. *)

From Stdlib Require Import ZArith Ascii String List Lia.
From stdpp Require Import base tactics option list gmap strings pretty.

Local Open Scope string_scope.
Local Open Scope list_scope.
Local Open Scope nat_scope.
Local Open Scope stdpp_scope.

(** ** Exceptions and results *)

(** The exception classes the modelled code raises or lets through. *)
Inductive exn : Type :=
  | RateLimitError                 (* _fetch_json, status 403 *)
  | GitHubAPIError (status : Z)    (* _fetch_json, any other status *)
  | RetryError                     (* tenacity, after the last attempt *)
  | DatabaseError                  (* batch_insert_or_update *)
  | KeyError (key : string)        (* d[key] on a dict without key *)
  | ZeroDivisionError.

Inductive result (A : Type) : Type :=
  | Ok (a : A)
  | Raise (e : exn).
Arguments Ok {A} a.
Arguments Raise {A} e.

(** ** RateLimiter *)

Module RateGate.

Local Open Scope Z_scope.

(** The attributes of a [RateLimiter] that [check_and_wait] reads or
    writes.  [lock] is the state of the [asyncio.Lock]: [true] while some
    frame is inside [async with self.lock].  [session] is
    [self._session is not None]. *)
Record RateLimiter : Type := mkRateLimiter {
  remaining : Z;
  reset_timestamp : Z;
  poll_interval : Z;
  call_count : Z;
  lock : bool;
  session : bool
}.

(** [RateLimiter.__init__] at time [now]: 5000 calls with a token, 60
    without. *)
Definition init (token : bool) (now : Z) : RateLimiter :=
  {| remaining := if token then 5000 else 60;
     reset_timestamp := now + 3600;
     poll_interval := 5;
     call_count := 0;
     lock := false;
     session := false |}.

(** What a GET on /rate_limit can give. *)
Inductive probe_reply : Type :=
  | Reply200 (core_remaining core_reset : Z)
  | ReplyStatus (status : Z)     (* any status but 200 *)
  | ReplyError.                  (* the request or the decoding raises *)

(** The clock in whole seconds ([int(time.time())]) and the number of probe
    requests sent so far. *)
Record gate_world : Type := mkGateWorld {
  clock : Z;
  probes : nat
}.

(** How a call ends: it returns, it raises, or it waits for ever on a lock
    that only a suspended frame could release. *)
Inductive outcome (A : Type) : Type :=
  | Returned (a : A)
  | Raised (e : exn) (a : A)
  | Blocked (a : A)
  | NoFuel.
Arguments Returned {A} a.
Arguments Raised {A} e a.
Arguments Blocked {A} a.
Arguments NoFuel {A}.

Definition acquire (rl : RateLimiter) : RateLimiter :=
  mkRateLimiter (remaining rl) (reset_timestamp rl) (poll_interval rl)
                (call_count rl) true (session rl).

Definition release (rl : RateLimiter) : RateLimiter :=
  mkRateLimiter (remaining rl) (reset_timestamp rl) (poll_interval rl)
                (call_count rl) false (session rl).

Definition count_call (rl : RateLimiter) : RateLimiter :=
  mkRateLimiter (remaining rl) (reset_timestamp rl) (poll_interval rl)
                (call_count rl + 1) (lock rl) (session rl).

Definition set_session (b : bool) (rl : RateLimiter) : RateLimiter :=
  mkRateLimiter (remaining rl) (reset_timestamp rl) (poll_interval rl)
                (call_count rl) (lock rl) b.

Definition set_quota (rem rst : Z) (rl : RateLimiter) : RateLimiter :=
  mkRateLimiter rem rst (poll_interval rl) (call_count rl) (lock rl)
                (session rl).

Definition sleep (sec : Z) (w : gate_world) : gate_world :=
  mkGateWorld (clock w + sec) (probes w).

Definition probe_sent (w : gate_world) : gate_world :=
  mkGateWorld (clock w) (S (probes w)).

(** The [finally] clause followed by the exit of [async with self.lock]. *)
Definition leave (rl : RateLimiter) : RateLimiter :=
  release (set_session false rl).

Section CheckAndWait.

(** The quota source, asked at a given time. *)
Variable quota : Z -> probe_reply.

(** [RateLimiter.check_and_wait].  [asyncio.Lock] is not reentrant: entering
    [async with self.lock] while the lock is held suspends the frame until
    a release, and the recursive call is made by the frame that holds it. *)
Fixpoint check_and_wait (fuel : nat) (rl : RateLimiter) (w : gate_world)
  : outcome (RateLimiter * gate_world) :=
  match fuel with
  | O => NoFuel
  | S fuel' =>
    if lock rl then Blocked (rl, w) else
    let rl := count_call (acquire rl) in
    if poll_interval rl =? 0 then Raised ZeroDivisionError (release rl, w) else
    if negb (call_count rl mod poll_interval rl =? 0) || (100 <? remaining rl)
    then Returned (release rl, w)
    else
      let rl := set_session true rl in
      let w := probe_sent w in
      match quota (clock w) with
      | Reply200 rem rst =>
        let rl := set_quota rem rst rl in
        if rem <? 50 then
          let wait_sec := Z.max (3600 - (clock w - rst) + 60) 300 in
          let w := sleep wait_sec w in
          match check_and_wait fuel' rl w with
          | Returned (rl', w') => Returned (leave rl', w')
          | Raised _ (rl', w') => Returned (leave rl', w')
          | Blocked s => Blocked s
          | NoFuel => NoFuel
          end
        else Returned (leave rl, w)
      | ReplyStatus _ => Returned (leave rl, w)
      | ReplyError => Returned (leave rl, w)
      end
  end.

End CheckAndWait.

(** The state in which the frame that probed is left waiting. *)
Definition stuck (rl : RateLimiter) (w : gate_world) (rem rst : Z)
  : RateLimiter * gate_world :=
  (mkRateLimiter rem rst (poll_interval rl) (call_count rl + 1) true true,
   mkGateWorld (clock w + Z.max (3600 - (clock w - rst) + 60) 300)
               (S (probes w))).

End RateGate.

(** ** CheckpointManager *)

Module Checkpoint.

(** The JSON object of the checkpoint file.  [load] reads every key with
    [data.get(key, default)], so a key may be missing. *)
Record document : Type := mkDocument {
  doc_processed : option (list string);
  doc_total_new : option nat;
  doc_queries_used : option (gmap string bool);
  doc_start_pages : option (gmap string nat);
  doc_query_idx : option nat
}.

(** The checkpoint file: absent, not a JSON object, or a document. *)
Inductive file : Type :=
  | Missing
  | Corrupt
  | Stored (d : document).

(** What [open(.., 'w')] and [json.dump] do in [save]: the write goes
    through, [open] raises and the file is left as it was, or [json.dump]
    raises after [open] has truncated the file. *)
Inductive write_outcome : Type :=
  | Written
  | OpenFailed
  | DumpFailed.

(** [CheckpointManager.save].  [order] is the order in which
    [list(processed)] enumerates the set.  Any exception is logged and
    swallowed. *)
Definition save (order : gset string -> list string) (io : write_outcome)
    (f : file) (processed : gset string) (total_new : nat)
    (queries_used : gmap string bool) (start_pages : gmap string nat)
    (query_idx : nat) : file :=
  match io with
  | Written =>
      Stored {| doc_processed := Some (order processed);
                doc_total_new := Some total_new;
                doc_queries_used := Some queries_used;
                doc_start_pages := Some start_pages;
                doc_query_idx := Some query_idx |}
  | OpenFailed => f
  | DumpFailed => Corrupt
  end.

(** [CheckpointManager.load]: (processed, start_pages, query_idx,
    queries_used); a missing or unreadable file gives the empty state. *)
Definition load (f : file)
  : gset string * gmap string nat * nat * gmap string bool :=
  match f with
  | Stored d =>
      (list_to_set (default [] (doc_processed d)),
       default ∅ (doc_start_pages d),
       default 0 (doc_query_idx d),
       default ∅ (doc_queries_used d))
  | Missing | Corrupt => (∅, ∅, 0, ∅)
  end.

End Checkpoint.

(** ** GitHubFetcher *)

Module Fetcher.

(** One attempt of the GET in [_fetch_json]. *)
Inductive response (A : Type) : Type :=
  | Status200 (body : A)
  | Status403
  | Status404
  | StatusOther (code : Z)
  | ClientError         (* aiohttp.ClientError *)
  | TimeoutError.       (* asyncio.TimeoutError *)
Arguments Status200 {A} body.
Arguments Status403 {A}.
Arguments Status404 {A}.
Arguments StatusOther {A} code.
Arguments ClientError {A}.
Arguments TimeoutError {A}.

(** What [_fetch_json] returns: the decoded body, or the empty dict. *)
Inductive json (A : Type) : Type :=
  | Body (a : A)
  | EmptyDict.
Arguments Body {A} a.
Arguments EmptyDict {A}.

(** The attempts of tenacity's [retry]: a [ClientError] is retried, a
    timeout is caught inside the function and gives the empty dict, and the
    library raises [RetryError] when no attempt is left. *)
Fixpoint attempts {A : Type} (left : nat) (k : nat)
    (get : nat -> response A) : result (json A) :=
  match left with
  | O => Raise RetryError
  | S left' =>
      match get k with
      | Status200 body => Ok (Body body)
      | Status403 => Raise RateLimitError
      | Status404 => Ok EmptyDict
      | StatusOther code => Raise (GitHubAPIError code)
      | TimeoutError => Ok EmptyDict
      | ClientError => attempts left' (S k) get
      end
  end.

(** The requests of one call of [GitHubFetcher._fetch_json], with
    [stop_after_attempt(3)]: what the call returns or raises when the gate
    lets each of its attempts through.  [get k] is what attempt number [k]
    of the request meets.  The whole function, with the call of
    [RateGate.check_and_wait] that opens every attempt and may never
    return, is [Gated._fetch_json]. *)
Definition _fetch_json {A : Type} (get : nat -> response A)
  : result (json A) :=
  attempts 3 0 get.

(** An element of ['items'] in a search response.  [None] is a key that is
    absent (for [js_description] also one that is null). *)
Record repo_json : Type := mkRepoJson {
  js_full_name : option string;
  js_name : option string;
  js_description : option string;
  js_stargazers_count : option Z;
  js_forks_count : option Z;
  js_html_url : option string;
  js_clone_url : option string;
  js_updated_at : option string;
  js_license_spdx_id : option string
}.

(** The dict that [discover_repos_stream] yields. *)
Record repo_info : Type := mkRepoInfo {
  full_name : string;
  repo_name : string;
  description : string;
  stars : Z;
  forks : Z;
  url : string;
  clone_url : string;
  last_updated : string;
  license : string
}.

Definition repo_info_of (repo : repo_json) : repo_info :=
  {| full_name := default "" (js_full_name repo);
     repo_name := default "" (js_name repo);
     description := default "" (js_description repo);
     stars := default 0%Z (js_stargazers_count repo);
     forks := default 0%Z (js_forks_count repo);
     url := default "" (js_html_url repo);
     clone_url := default "" (js_clone_url repo);
     last_updated := default "" (js_updated_at repo);
     license := default "" (js_license_spdx_id repo) |}.

(** The body of a search response: its ['items'] key, if it has one. *)
Definition search_body : Type := option (list repo_json).

(** [data.get('items', [])]. *)
Definition items_of (data : json search_body) : list repo_json :=
  match data with
  | Body (Some items) => items
  | Body None | EmptyDict => []
  end.

(** How the generator stops: its loops are over, an exception leaves it, or
    the model ran out of fuel. *)
Inductive ending : Type :=
  | Exhausted
  | Failed (e : exn)
  | Unfinished.

(** The [for repo in items] loop: the dicts yielded and the new value of
    [repos_fetched]. *)
Fixpoint page_items (max_repos : nat) (items : list repo_json)
    (repos_fetched : nat) : list repo_info * nat :=
  match items with
  | [] => ([], repos_fetched)
  | repo :: items' =>
      if max_repos <=? repos_fetched then ([], repos_fetched)
      else
        let '(ys, n) := page_items max_repos items' (S repos_fetched) in
        (repo_info_of repo :: ys, n)
  end.

Section Discover.

(** The search endpoint: query, page, attempt number. *)
Variable search : string -> nat -> nat -> response search_body.

(** The [while repos_fetched < max_repos] loop of one query. *)
Fixpoint pages (fuel : nat) (max_repos : nat) (query : string)
    (page repos_fetched : nat) : list repo_info * nat * ending :=
  match fuel with
  | O => ([], repos_fetched, Unfinished)
  | S fuel' =>
      if repos_fetched <? max_repos then
        match _fetch_json (search query page) with
        | Raise e => ([], repos_fetched, Failed e)
        | Ok data =>
            match items_of data with
            | [] => ([], repos_fetched, Exhausted)
            | items =>
                let '(ys, n) := page_items max_repos items repos_fetched in
                let '(zs, m, e) := pages fuel' max_repos query (S page) n in
                (ys ++ zs, m, e)
            end
        end
      else ([], repos_fetched, Exhausted)
  end.

(** The [for query in queries] loop; [repos_fetched] is shared by all
    queries. *)
Fixpoint queries_loop (fuel : nat) (max_repos start_page : nat)
    (queries : list string) (repos_fetched : nat)
  : list repo_info * ending :=
  match queries with
  | [] => ([], Exhausted)
  | query :: queries' =>
      let '(ys, n, e) := pages fuel max_repos query start_page repos_fetched in
      match e with
      | Exhausted =>
          let '(zs, e') := queries_loop fuel max_repos start_page queries' n in
          (ys ++ zs, e')
      | _ => (ys, e)
      end
  end.

(** [GitHubFetcher.discover_repos_stream]: the dicts the generator yields,
    in order, and how it stops after the last one.  Every page that is not
    empty raises [repos_fetched], so [S max_repos] rounds are enough. *)
Definition discover_repos_stream (queries : list string) (max_repos : nat)
    (start_page : nat) : list repo_info * ending :=
  queries_loop (S max_repos) max_repos start_page queries 0.

End Discover.

End Fetcher.

(** ** GitHubFetcher behind its RateLimiter *)

Module Gated.

Import RateGate Fetcher.

(** The [RateLimiter] that the fetcher was given, and the clock. *)
Definition gate : Type := RateLimiter * gate_world.

(** How a call of [_fetch_json] ends: it returns or raises, or it waits
    for ever in [check_and_wait]. *)
Inductive fetched (A : Type) : Type :=
  | Answer (r : result (json A)) (g : gate)
  | Waiting (g : gate)
  | Starved.               (* [check_and_wait] was given too little fuel *)
Arguments Answer {A} r g.
Arguments Waiting {A} g.
Arguments Starved {A}.

(** How the generator comes to rest: it stops, as [Fetcher.ending] says, or
    it waits for ever in a call of the gate. *)
Inductive rest : Type :=
  | Stops (e : ending)
  | Waits.

Section Gate.

(** The quota source, asked at a given time. *)
Variable quota : Z -> probe_reply.

(** The fuel of each call of [check_and_wait]; a call goes two frames deep
    at most, the inner one stops at the lock. *)
Variable depth : nat.

(** The attempts of tenacity's [retry] around the whole of [_fetch_json]:
    every attempt opens with [await self.rate_limiter.check_and_wait()],
    and only then sends its request.  An exception of the gate is not one
    that is retried.  Between two attempts the library sleeps
    [wait_exponential(multiplier=1, min=4, max=10)], which is 4 seconds
    after the first and after the second attempt. *)
Fixpoint attempts {A : Type} (left : nat) (k : nat)
    (get : nat -> response A) (g : gate) : fetched A :=
  match left with
  | O => Answer (Raise RetryError) g
  | S left' =>
      match check_and_wait quota depth g.1 g.2 with
      | Returned g =>
          match get k with
          | Status200 body => Answer (Ok (Body body)) g
          | Status403 => Answer (Raise RateLimitError) g
          | Status404 => Answer (Ok EmptyDict) g
          | StatusOther code => Answer (Raise (GitHubAPIError code)) g
          | TimeoutError => Answer (Ok EmptyDict) g
          | ClientError =>
              match left' with
              | O => Answer (Raise RetryError) g
              | S _ => attempts left' (S k) get (g.1, sleep 4%Z g.2)
              end
          end
      | Raised e g => Answer (Raise e) g
      | Blocked g => Waiting g
      | NoFuel => Starved
      end
  end.

(** [GitHubFetcher._fetch_json] of a fetcher that has a rate limiter, with
    [stop_after_attempt(3)]. *)
Definition _fetch_json {A : Type} (get : nat -> response A) (g : gate)
  : fetched A :=
  attempts 3 0 get g.

Section Discover.

(** The search endpoint: query, page, attempt number. *)
Variable search : string -> nat -> nat -> response search_body.

(** The [while repos_fetched < max_repos] loop of one query: the dicts
    yielded, [repos_fetched], how the loop comes to rest and the gate. *)
Fixpoint pages (fuel : nat) (max_repos : nat) (query : string)
    (page repos_fetched : nat) (g : gate)
  : list repo_info * nat * rest * gate :=
  match fuel with
  | O => ([], repos_fetched, Stops Unfinished, g)
  | S fuel' =>
      if repos_fetched <? max_repos then
        match _fetch_json (search query page) g with
        | Waiting g => ([], repos_fetched, Waits, g)
        | Starved => ([], repos_fetched, Stops Unfinished, g)
        | Answer (Raise e) g => ([], repos_fetched, Stops (Failed e), g)
        | Answer (Ok data) g =>
            match items_of data with
            | [] => ([], repos_fetched, Stops Exhausted, g)
            | items =>
                let '(ys, n) := page_items max_repos items repos_fetched in
                let '(zs, m, e, g) :=
                  pages fuel' max_repos query (S page) n g in
                (ys ++ zs, m, e, g)
            end
        end
      else ([], repos_fetched, Stops Exhausted, g)
  end.

(** The [for query in queries] loop. *)
Fixpoint queries_loop (fuel : nat) (max_repos start_page : nat)
    (queries : list string) (repos_fetched : nat) (g : gate)
  : list repo_info * rest * gate :=
  match queries with
  | [] => ([], Stops Exhausted, g)
  | query :: queries' =>
      let '(ys, n, e, g) :=
        pages fuel max_repos query start_page repos_fetched g in
      match e with
      | Stops Exhausted =>
          let '(zs, e', g) :=
            queries_loop fuel max_repos start_page queries' n g in
          (ys ++ zs, e', g)
      | _ => (ys, e, g)
      end
  end.

(** [GitHubFetcher.discover_repos_stream] of a fetcher that has a rate
    limiter, driven to its end while nothing else calls the gate: the dicts
    that the generator yields, in order, how it comes to rest after the
    last one, and the gate as it leaves it. *)
Definition discover_repos_stream (queries : list string) (max_repos : nat)
    (start_page : nat) (g : gate) : list repo_info * rest * gate :=
  queries_loop (S max_repos) max_repos start_page queries 0 g.

End Discover.

End Gate.

(** A gate that lets every call through: the lock is free, and either the
    limiter still counts more than 100 calls, so that it asks nothing, or
    the quota source never reports less than 50. *)
Definition healthy (quota : Z -> probe_reply) (g : gate) : Prop :=
  lock g.1 = false /\ poll_interval g.1 <> 0%Z /\
  ((100 < remaining g.1)%Z \/
   forall t rem rst, quota t = Reply200 rem rst -> (50 <= rem)%Z).

End Gated.

(** ** The dicts of a batch *)

(** A file descriptor of the contents listing; ['name'] is the key read. *)
Record file_json : Type := mkFileJson {
  file_name : string
}.

(** The ten keys of the dict that [analyze_files] returns. *)
Record analysis : Type := mkAnalysis {
  an_error : string;
  file_type : string;
  tech_stack : list string;
  features : list string;
  is_valid : bool;
  file_preview : string;
  keywords : list string;
  has_demo : bool;
  demo_url : string;
  npm_package : string
}.

(** The four keys of a categorisation. *)
Record category_info : Type := mkCategoryInfo {
  category : string;
  ai_description : string;
  ai_features : list string;
  ai_use_case : string
}.

(** A dict of a batch, by the groups of keys that are written together:
    the nine discovery keys, ['files'], ['processing_errors'],
    ['processing_status'], the analysis keys and the category keys.  [None]
    is a group that is absent from the dict.  (['main_file'], the [repr] of
    the file list, is written once and read by the store only; it is left
    out.) *)
Record entry : Type := mkEntry {
  info : option Fetcher.repo_info;
  files : option (list file_json);
  processing_errors : option string;
  processing_status : option string;
  analysed : option analysis;
  categorised : option category_info
}.

Definition entry_of (r : Fetcher.repo_info) : entry :=
  mkEntry (Some r) None None None None None.

Definition set_files (fs : list file_json) (e : entry) : entry :=
  mkEntry (info e) (Some fs) (processing_errors e) (processing_status e)
          (analysed e) (categorised e).

Definition set_processing_errors (s : string) (e : entry) : entry :=
  mkEntry (info e) (files e) (Some s) (processing_status e)
          (analysed e) (categorised e).

Definition set_processing_status (s : string) (e : entry) : entry :=
  mkEntry (info e) (files e) (processing_errors e) (Some s)
          (analysed e) (categorised e).

(** [entry.update(analysis)] *)
Definition update_analysis (a : analysis) (e : entry) : entry :=
  mkEntry (info e) (files e) (processing_errors e) (processing_status e)
          (Some a) (categorised e).

(** [entry.update(c)] for a dict [c] of the four category keys. *)
Definition update_category (c : category_info) (e : entry) : entry :=
  mkEntry (info e) (files e) (processing_errors e) (processing_status e)
          (analysed e) (Some c).

(** A dict that holds the four category keys and nothing else. *)
Definition category_dict (c : category_info) : entry :=
  mkEntry None None None None None (Some c).

(** The ['full_name'] of the dicts that have one. *)
Definition names (es : list entry) : list string :=
  omap (fun e => Fetcher.full_name <$> info e) es.

(** ** Strings *)

Module Str.

Definition is_upper (c : ascii) : bool :=
  let n := nat_of_ascii c in (65 <=? n) && (n <=? 90).

Definition is_lower (c : ascii) : bool :=
  let n := nat_of_ascii c in (97 <=? n) && (n <=? 122).

Definition to_lower (c : ascii) : ascii :=
  if is_upper c then ascii_of_nat (nat_of_ascii c + 32) else c.

Definition to_upper (c : ascii) : ascii :=
  if is_lower c then ascii_of_nat (nat_of_ascii c - 32) else c.

(** [str.lower()], on the ASCII letters. *)
Fixpoint lower (s : string) : string :=
  match s with
  | EmptyString => EmptyString
  | String c s' => String (to_lower c) (lower s')
  end.

(** [kw in s] *)
Fixpoint contains (kw s : string) : bool :=
  String.prefix kw s ||
  match s with
  | EmptyString => false
  | String _ s' => contains kw s'
  end.

(** [s.replace('_', ' ')] *)
Fixpoint unscore (s : string) : string :=
  match s with
  | EmptyString => EmptyString
  | String c s' =>
      String (if Ascii.eqb c "_"%char then " "%char else c) (unscore s')
  end.

(** [str.title()], on the ASCII letters: a letter that follows a letter is
    lowered, any other letter is raised. *)
Fixpoint title_from (previous_is_cased : bool) (s : string) : string :=
  match s with
  | EmptyString => EmptyString
  | String c s' =>
      if is_lower c || is_upper c then
        String (if previous_is_cased then to_lower c else to_upper c)
               (title_from true s')
      else String c (title_from false s')
  end.

Definition title (s : string) : string := title_from false s.

(** [sep.join(l)] *)
Definition join (sep : string) (l : list string) : string :=
  String.concat sep l.

(** [s[:n]] *)
Definition upto (n : nat) (s : string) : string := String.substring 0 n s.

End Str.

(** ** ThemeAnalyzer: categorisation *)

Module Analyzer.

(** [Config.HEURISTIC_RULES], in the order of the dict. *)
Definition HEURISTIC_RULES : list (string * list string) :=
  [ ("jsonresume_theme", ["jsonresume-theme"; "resume.json"; "json resume theme"]);
    ("mermaid_theme", ["mermaid theme"; "mermaid config"; "mermaid.config"]);
    ("chartjs_plugin", ["chartjs-plugin"; "chart.js plugin"]);
    ("chartjs_example", ["chart.js example"; "chartjs demo"; "chartjs sample"]);
    ("react_flow_example", ["react-flow"; "reactflow"; "react flow example"]);
    ("d3_visualization", ["d3 visualization"; "d3.js viz"; "d3 chart"; "d3 graph"]);
    ("d3_chart_library", ["billboard.js"; "britecharts"; "plottable"; "dc.js"]);
    ("recharts_example", ["recharts"; "recharts example"]);
    ("document_template", ["resume template"; "cv template"; "document template"]);
    ("infographic_template", ["infographic"; "data visualization template"]);
    ("portfolio_template", ["portfolio"; "personal website template"]) ].

(** The text that the rules are matched against. *)
Definition heuristic_text (e : entry) : string :=
  Str.lower
    (default "" (Fetcher.description <$> info e) +:+ " " +:+
     Str.join " " (default [] (keywords <$> analysed e)) +:+ " " +:+
     default "" (file_type <$> analysed e) +:+ " " +:+
     Str.join " " (default [] (tech_stack <$> analysed e))).

(** [ThemeAnalyzer._heuristic_categorize] *)
Definition _heuristic_categorize (e : entry) : category_info :=
  let text := heuristic_text e in
  match List.find (fun rule => existsb (fun kw => Str.contains kw text) rule.2)
                  HEURISTIC_RULES with
  | Some (cat, kws) =>
      {| category := cat;
         ai_description := "Heuristic: " +:+ Str.title (Str.unscore cat);
         ai_features := take 5 kws;
         ai_use_case := "Use for " +:+ Str.unscore cat |}
  | None =>
      {| category := "other";
         ai_description := "General web theme";
         ai_features := [];
         ai_use_case := "General purpose" |}
  end.

(** One dict of the list that [_extract_json] returns.  A key of the four
    may be missing; [res_other] says that the dict has some other key. *)
Record ai_result : Type := mkAiResult {
  res_category : option string;
  res_ai_description : option string;
  res_ai_features : option (list string);
  res_ai_use_case : option string;
  res_other : bool
}.

(** [if result:], a dict is true when it has a key. *)
Definition truthy (r : ai_result) : bool :=
  bool_decide (is_Some (res_category r)) ||
  bool_decide (is_Some (res_ai_description r)) ||
  bool_decide (is_Some (res_ai_features r)) ||
  bool_decide (is_Some (res_ai_use_case r)) ||
  res_other r.

Definition category_of_result (r : ai_result) : category_info :=
  {| category := default "other" (res_category r);
     ai_description := default "" (res_ai_description r);
     ai_features := default [] (res_ai_features r);
     ai_use_case := default "General theme" (res_ai_use_case r) |}.

(** The remote classifier as the [try] block sees it: [chat_completion] or
    the reading of its response raises, or [_extract_json] gives a list of
    dicts. *)
Inductive remote_reply : Type :=
  | RemoteFails
  | RemoteResults (results : list ai_result).

(** [for entry, result in zip(entries, results)]: the dicts past the end of
    [results] are left as they are. *)
Fixpoint apply_results (entries : list entry) (results : list ai_result)
  : list entry :=
  match entries, results with
  | e :: es, r :: rs =>
      (if truthy r then update_category (category_of_result r) e
       else update_category (_heuristic_categorize e) e)
      :: apply_results es rs
  | es, [] => es
  | [], _ :: _ => []
  end.

(** The [return] of the first line and of the [except] clause: the list of
    the category dicts themselves. *)
Definition heuristic_dicts (entries : list entry) : list entry :=
  map (fun e => category_dict (_heuristic_categorize e)) entries.

(** [ThemeAnalyzer.ai_categorize_batch].  The prompt reads
    [entry['full_name']] of every dict, inside the [try]. *)
Definition ai_categorize_batch (use_ai : bool)
    (remote : list entry -> remote_reply) (entries : list entry)
  : list entry :=
  if negb use_ai then heuristic_dicts entries
  else if forallb (fun e => bool_decide (is_Some (info e))) entries then
    match remote entries with
    | RemoteResults results => apply_results entries results
    | RemoteFails => heuristic_dicts entries
    end
  else heuristic_dicts entries.

End Analyzer.

(** ** DatabaseManager: the themes table *)

Module Store.

(** A row of [themes], by the columns that the pipeline decides; the key of
    the table is [full_name] (UNIQUE, written with INSERT OR REPLACE).  The
    columns that are copied from the discovery keys or derived from the
    clock are left out. *)
Record row : Type := mkRow {
  row_full_name : string;
  row_description : string;
  row_is_valid : bool;
  row_category : string;
  row_ai_description : string;
  row_ai_use_case : string;
  row_processing_errors : string;
  row_processing_status : string
}.

(** [_validate_entry] and the tuple of the INSERT: every key but
    ['full_name'] has a default. *)
Definition row_of (e : entry) : result row :=
  match info e with
  | None => Raise (KeyError "full_name")
  | Some r =>
      Ok {| row_full_name := Fetcher.full_name r;
            row_description := Str.upto 500 (Fetcher.description r);
            row_is_valid := default false (is_valid <$> analysed e);
            row_category := default "other" (category <$> categorised e);
            row_ai_description :=
              Str.upto 500 (default "" (ai_description <$> categorised e));
            row_ai_use_case :=
              Str.upto 300
                (default "General theme" (ai_use_case <$> categorised e));
            row_processing_errors :=
              Str.upto 500 (default "" (processing_errors e));
            row_processing_status :=
              default "scraped" (processing_status e) |}
  end.

(** The rows of the dicts, or the first exception. *)
Fixpoint rows_of (entries : list entry) : result (list row) :=
  match entries with
  | [] => Ok []
  | e :: es =>
      match row_of e with
      | Raise x => Raise x
      | Ok r =>
          match rows_of es with
          | Raise x => Raise x
          | Ok rs => Ok (r :: rs)
          end
      end
  end.

Definition insert_or_replace (db : gmap string row) (r : row)
  : gmap string row :=
  <[row_full_name r := r]> db.

(** [DatabaseManager.batch_insert_or_update]: one transaction; any
    exception rolls it back and is raised again as [DatabaseError].
    [fails] says that the database itself refuses the transaction. *)
Definition batch_insert_or_update (fails : bool) (entries : list entry)
    (db : gmap string row) : result unit * gmap string row :=
  match entries with
  | [] => (Ok tt, db)
  | _ =>
      if fails then (Raise DatabaseError, db)
      else
        match rows_of entries with
        | Raise _ => (Raise DatabaseError, db)
        | Ok rows => (Ok tt, foldl insert_or_replace db rows)
        end
  end.

End Store.

(** ** ThemeScraperAgent *)

Module Agent.

Import Fetcher.

(** The body of a contents response: a listing, or some other JSON. *)
Inductive contents_body : Type :=
  | Listing (fs : list file_json)
  | NotAList.

(** What the run meets outside the process. *)
Record env : Type := mkEnv {
  (** search endpoint: query, page, attempt *)
  search : string -> nat -> nat -> response search_body;
  (** contents endpoint: full name, attempt *)
  contents : string -> nat -> response contents_body;
  (** [ThemeAnalyzer.analyze_files]; its result goes through the iteration
      order of Python sets, so it is taken as given *)
  analyze_files : list file_json -> entry -> analysis;
  (** the remote classifier *)
  remote : list entry -> Analyzer.remote_reply;
  (** whether the database refuses transaction number [n] *)
  db_fails : nat -> bool;
  (** what happens to write number [n] of the checkpoint file *)
  ckpt_write : nat -> Checkpoint.write_outcome;
  (** SIGINT or SIGTERM arrives once [shutdown_flag] has been read this
      many times; [None]: no signal *)
  signal_at : option nat;
  (** for the contents request of a repo, by its full name: the part of
      [str(e)] that the class of the exception and its arguments do not
      fix; for tenacity's [RetryError] this is the [repr] of the Future of
      the last attempt, which holds an address *)
  exn_detail : string -> string
}.

(** The part of [Config] that the run reads, with [analyzer.use_ai]. *)
Record Config : Type := mkConfig {
  BATCH_SIZE : nat;
  MAX_REPOS : nat;
  DEFAULT_QUERIES : list string;
  use_ai : bool
}.

(** What the run does that can be seen from outside, and two marks of its
    own loop. *)
Inductive event : Type :=
  | Batched (name : string)          (* batch.append(repo_info) *)
  | Enrich (name : string)           (* the contents request of a repo *)
  | Classify (ns : list string)      (* the dicts handed to categorisation *)
  | Upsert (ns : list string)        (* a committed transaction *)
  | UpsertFailed (ns : list string)  (* a transaction that raised *)
  | Save (processed : list string) (query_idx : nat)
         (io : Checkpoint.write_outcome)   (* checkpoint.save *)
  | ShutdownSeen.                    (* shutdown_flag read as True *)

(** The state outside the variables of [run]. *)
Record world : Type := mkWorld {
  db : gmap string Store.row;
  ckpt : Checkpoint.file;
  trace : list event;
  flag_reads : nat;
  db_calls : nat;
  saves : nat
}.

Definition log (evs : list event) (w : world) : world :=
  mkWorld (db w) (ckpt w) (trace w ++ evs) (flag_reads w) (db_calls w)
          (saves w).

(** [str(e)].  [detail] is the part of the text that the class and its
    arguments do not fix: tenacity's [RetryError] prints as
    [RetryError[<Future at 0x... state=finished raised ...>]], with the
    [repr] of the Future of its last attempt, and [DatabaseError] carries
    the text of the exception that it wraps. *)
Definition str_exn (detail : string) (e : exn) : string :=
  match e with
  | RateLimitError => "Rate limit exceeded"
  | GitHubAPIError status => "API error: Status " +:+ pretty status
  | RetryError => "RetryError[" +:+ detail +:+ "]"
  | DatabaseError => "Failed to insert batch: " +:+ detail
  | KeyError key => "'" +:+ key +:+ "'"
  | ZeroDivisionError => "integer modulo by zero"
  end.

Section Run.

Variable E : env.
Variable C : Config.

(** Reading [self.shutdown_flag]. *)
Definition read_flag (w : world) : bool * world :=
  let set := match signal_at E with
             | Some t => t <=? flag_reads w
             | None => false
             end in
  (set,
   mkWorld (db w) (ckpt w) (trace w ++ (if set then [ShutdownSeen] else []))
           (S (flag_reads w)) (db_calls w) (saves w)).

(** [fetch_repo_files], the closure of [_process_batch]. *)
Definition fetch_repo_files (repo_info : Fetcher.repo_info) : entry :=
  match _fetch_json (contents E (full_name repo_info)) with
  | Ok (Body (Listing fs)) => set_files (take 50 fs) (entry_of repo_info)
  | Ok _ => entry_of repo_info
  | Raise e =>
      set_processing_errors
        ("File fetch error: "
         +:+ str_exn (exn_detail E (full_name repo_info)) e)
        (entry_of repo_info)
  end.

(** The body of the loop "Analyze files"; an empty listing is false. *)
Definition analyze (e : entry) : entry :=
  match files e with
  | Some (f :: fs) => update_analysis (analyze_files E (f :: fs) e) e
  | Some [] | None =>
      set_processing_status "error_no_files"
        (set_processing_errors "; No files found" e)
  end.

(** The step "Categorize". *)
Definition categorize (entries : list entry) : list entry :=
  if use_ai C then Analyzer.ai_categorize_batch true (remote E) entries
  else map (fun e => update_category (Analyzer._heuristic_categorize e) e)
           entries.

(** The body of the loop "Update status". *)
Definition update_status (e : entry) : entry :=
  if default false (is_valid <$> analysed e)
  then set_processing_status "scraped_valid" e
  else set_processing_status "scraped_invalid" e.

(** The step "Save to database". *)
Definition save_to_database (entries : list entry) (w : world)
  : result unit * world :=
  match entries with
  | [] => (Ok tt, w)
  | _ =>
      let '(r, db') :=
        Store.batch_insert_or_update (db_fails E (db_calls w)) entries (db w) in
      (r,
       mkWorld db' (ckpt w)
               (trace w ++ [match r with
                            | Ok _ => Upsert (names entries)
                            | Raise _ => UpsertFailed (names entries)
                            end])
               (flag_reads w) (S (db_calls w)) (saves w))
  end.

(** The loop "Update processed set". *)
Fixpoint update_processed (entries : list entry) (processed : gset string)
    (new_count : nat) : result nat * gset string :=
  match entries with
  | [] => (Ok new_count, processed)
  | e :: es =>
      match info e with
      | None => (Raise (KeyError "full_name"), processed)
      | Some r =>
          if decide (full_name r ∈ processed)
          then update_processed es processed new_count
          else update_processed es ({[full_name r]} ∪ processed) (S new_count)
      end
  end.

(** [ThemeScraperAgent._process_batch]: the value returned or the exception,
    the set [processed] after the call, and the world.  Every task of
    [gather] returns a dict, so [valid_entries] is the whole of [entries]. *)
Definition _process_batch (batch : list Fetcher.repo_info)
    (processed : gset string) (w : world)
  : result nat * gset string * world :=
  let entries := map fetch_repo_files batch in
  let w := log (map (fun r => Enrich (full_name r)) batch) w in
  let valid_entries := entries in
  let valid_entries := map analyze valid_entries in
  let w := log [Classify (names valid_entries)] w in
  let valid_entries := categorize valid_entries in
  let valid_entries := map update_status valid_entries in
  match save_to_database valid_entries w with
  | (Raise e, w) => (Raise e, processed, w)
  | (Ok _, w) =>
      let '(r, processed) := update_processed valid_entries processed 0 in
      (r, processed, w)
  end.

(** The variables of [run] that change. *)
Record state : Type := mkState {
  processed : gset string;
  total_new : nat;
  outside : world
}.

(** [self.checkpoint.save(processed, total_new, queries_used, start_pages,
    query_idx)] *)
Definition checkpoint_save (queries_used : gmap string bool)
    (start_pages : gmap string nat) (query_idx : nat) (st : state) : state :=
  let w := outside st in
  let io := ckpt_write E (saves w) in
  mkState (processed st) (total_new st)
    (mkWorld (db w)
       (Checkpoint.save elements io (ckpt w) (processed st) (total_new st)
                        queries_used start_pages query_idx)
       (trace w ++ [Save (elements (processed st)) query_idx io])
       (flag_reads w) (db_calls w) (S (saves w))).

(** How the loop over the stream is left. *)
Inductive leaving : Type :=
  | Drained                 (* the stream has no more item *)
  | Interrupted             (* break, on the flag *)
  | Crashed (e : exn).      (* an exception of _process_batch *)

Section Query.

Variable queries_used : gmap string bool.
Variable start_pages : gmap string nat.
Variable q_idx : nat.

(** [new_count = await self._process_batch(batch, processed)] and
    [total_new += new_count]. *)
Definition process (batch : list Fetcher.repo_info) (st : state)
  : result unit * state :=
  match _process_batch batch (processed st) (outside st) with
  | (Ok new_count, processed', w) =>
      (Ok tt, mkState processed' (total_new st + new_count) w)
  | (Raise e, processed', w) =>
      (Raise e, mkState processed' (total_new st) w)
  end.

(** The loop [async for repo_info in stream] over the dicts that the
    stream yields. *)
Fixpoint consume (items : list Fetcher.repo_info)
    (batch : list Fetcher.repo_info) (st : state)
  : leaving * list Fetcher.repo_info * state :=
  match items with
  | [] => (Drained, batch, st)
  | repo_info :: items' =>
      let '(set, w) := read_flag (outside st) in
      let st := mkState (processed st) (total_new st) w in
      if set then (Interrupted, batch, st)
      else if decide (full_name repo_info ∈ processed st)
      then consume items' batch st
      else
        let batch := batch ++ [repo_info] in
        let st := mkState (processed st) (total_new st)
                          (log [Batched (full_name repo_info)] (outside st)) in
        if BATCH_SIZE C <=? length batch then
          match process batch st with
          | (Raise e, st) => (Crashed e, batch, st)
          | (Ok _, st) =>
              consume items' []
                      (checkpoint_save queries_used start_pages q_idx st)
          end
        else consume items' batch st
  end.

(** [if batch:] after the loop. *)
Definition process_rest (batch : list Fetcher.repo_info) (st : state)
  : result unit * state :=
  match batch with
  | [] => (Ok tt, st)
  | _ => process batch st
  end.

(** The body of the loop over the queries, after the test of the flag.
    [limit] is [max_repos // len(queries)]. *)
Definition scrape_query (limit : nat) (query : string) (st : state)
  : result unit * state :=
  let start_page := default 1 (start_pages !! query) in
  let '(items, ending) :=
    discover_repos_stream (search E) [query] limit start_page in
  match consume items [] st with
  | (Crashed e, _, st) => (Raise e, st)
  | (Interrupted, batch, st) => process_rest batch st
  | (Drained, batch, st) =>
      match ending with
      | Failed e => (Raise e, st)
      | Exhausted | Unfinished => process_rest batch st
      end
  end.

End Query.

(** The loop [for q_idx in range(query_idx, len(queries))] over the queries
    that are left. *)
Fixpoint queries_loop (queries_used : gmap string bool)
    (start_pages : gmap string nat) (limit : nat) (q_idx : nat)
    (queries : list string) (st : state) : result unit * state :=
  match queries with
  | [] => (Ok tt, st)
  | query :: queries' =>
      let '(set, w) := read_flag (outside st) in
      let st := mkState (processed st) (total_new st) w in
      if set then (Ok tt, st)
      else
        match scrape_query queries_used start_pages q_idx limit query st with
        | (Raise e, st) => (Raise e, st)
        | (Ok _, st) =>
            queries_loop queries_used start_pages limit (S q_idx) queries' st
        end
  end.

(** What [run] leaves behind: the exception that the [except] clause
    logged, if any, and the state after the [finally] clause. *)
Record finished : Type := mkFinished {
  run_error : option exn;
  final : state
}.

(** [ThemeScraperAgent.run], from the start of the process to the end of
    the [finally] clause.  [db0] and [ckpt0] are the database and the
    checkpoint file that the process finds. *)
Definition run (db0 : gmap string Store.row) (ckpt0 : Checkpoint.file)
    (max_repos : option nat) (resume : bool) (custom_query : option string)
  : finished :=
  let max_repos := match max_repos with
                   | Some (S n) => S n
                   | Some O | None => MAX_REPOS C
                   end in
  let '(processed, start_pages, query_idx, queries_used) :=
    if resume then Checkpoint.load ckpt0 else (∅, ∅, 0, ∅) in
  let queries := match custom_query with
                 | Some (String c q) => [String c q]
                 | Some EmptyString | None => DEFAULT_QUERIES C
                 end in
  let st := mkState processed 0 (mkWorld db0 ckpt0 [] 0 0 0) in
  let '(r, st) :=
    queries_loop queries_used start_pages (max_repos / length queries)
                 query_idx (drop query_idx queries) st in
  {| run_error := match r with Ok _ => None | Raise e => Some e end;
     final := checkpoint_save queries_used start_pages (length queries) st |}.

End Run.

End Agent.

(** ** The outcomes of a call of [_process_batch] *)

Module Batch.
Import Fetcher Agent.

(** The dicts of a list all have the discovery keys of the given repos, in
    order. *)
Definition carries (rs : list repo_info) (es : list entry) : Prop :=
  map info es = map Some rs.

(** The events of one call of [_process_batch] on repos named [ns]. *)
Definition batch_events (ns : list string) (last : list event) : list event :=
  map Enrich ns ++ Classify ns :: last.

(** The three ways in which a call of [_process_batch] can end. *)
Inductive batch_outcome (E : env) (batch : list repo_info)
    (processed : gset string) (w : world)
  : result nat -> gset string -> world -> Prop :=
  | batch_empty :
      batch = [] ->
      batch_outcome E batch processed w (Ok 0) processed
        (mkWorld (db w) (ckpt w) (trace w ++ batch_events [] [])
                 (flag_reads w) (db_calls w) (saves w))
  | batch_refused ns :
      batch <> [] ->
      ns = map full_name batch \/ ns = [] ->
      batch_outcome E batch processed w (Raise DatabaseError) processed
        (mkWorld (db w) (ckpt w)
                 (trace w ++ batch_events (map full_name batch)
                                          [UpsertFailed ns])
                 (flag_reads w) (S (db_calls w)) (saves w))
  | batch_stored db' :
      batch <> [] ->
      db_fails E (db_calls w) = false ->
      dom db' = list_to_set (map full_name batch) ∪ dom (db w) ->
      batch_outcome E batch processed w
        (Ok (size (list_to_set (map full_name batch) ∖ processed)))
        (list_to_set (map full_name batch) ∪ processed)
        (mkWorld db' (ckpt w)
                 (trace w ++ batch_events (map full_name batch)
                                          [Upsert (map full_name batch)])
                 (flag_reads w) (S (db_calls w)) (saves w)).
End Batch.

(** ** What holds along a run *)

Module Inv.
Import Fetcher Agent Batch.

(** The set [processed] at the start of [run]. *)
Definition initial_processed (resume : bool) (ckpt0 : Checkpoint.file)
  : gset string :=
  if resume then (Checkpoint.load ckpt0).1.1.1 else ∅.

(** The repos that an event is about. *)
Definition touched (ev : event) : list string :=
  match ev with
  | Batched n | Enrich n => [n]
  | Classify ns | Upsert ns | UpsertFailed ns => ns
  | Save _ _ _ | ShutdownSeen => []
  end.

(** The run has kept the names of [P0] and has not touched them. *)
Definition skipping (P0 : gset string) (b : list repo_info) (st : state)
  : Prop :=
  P0 ⊆ processed st /\
  (forall ev n, ev ∈ trace (outside st) -> n ∈ touched ev -> n ∉ P0) /\
  (forall r, r ∈ b -> full_name r ∉ P0).

(** [total_new] counts the names added to [P0]. *)
Definition counting (P0 : gset string) (st : state) : Prop :=
  P0 ⊆ processed st /\ total_new st = size (processed st ∖ P0).



(** Repo [n] has gone through a whole call of [_process_batch]. *)
Definition settled (st : state) (n : string) : Prop :=
  Enrich n ∈ trace (outside st) /\
  (exists ns, n ∈ ns /\ Classify ns ∈ trace (outside st) /\
              Upsert ns ∈ trace (outside st)) /\
  n ∈ processed st /\
  n ∈ dom (db (outside st)).

(** Nothing is put in a batch once the flag has been seen. *)
Definition quiet (tr : list event) : Prop :=
  forall pre post, tr = pre ++ ShutdownSeen :: post ->
                   forall n, Batched n ∉ post.

Definition draining (E : env) (b : list repo_info) (st : state) : Prop :=
  (forall n, Batched n ∈ trace (outside st) ->
             n ∈ map full_name b \/ settled st n) /\
  (ShutdownSeen ∈ trace (outside st) ->
   exists t, signal_at E = Some t /\ t < flag_reads (outside st)) /\
  quiet (trace (outside st)).

End Inv.

(** ** grok-max.py: the same loop under another signal handler *)

Module GrokMax.

Import Fetcher.

(** What the run of [grok-max.py] does that matters here. *)
Inductive event : Type :=
  | Batched (name : string)             (* batch.append(repo_info) *)
  | Handed (ns : list string)           (* a call of _process_batch *)
  | Saved (processed : list string) (query_idx : nat).  (* checkpoint.save *)

(** The variables of [run] that change, the number of times the run has
    come to a test of [shutdown_flag], and the events so far. *)
Record state : Type := mkState {
  processed : gset string;
  total_new : nat;
  start_pages : gmap string nat;
  tests : nat;
  trace : list event
}.

(** How the [try] block of [run] is left: at its end, by an exception that
    the [except Exception] clause takes, or by the [SystemExit] of the
    handler, which that clause lets through. *)
Inductive leaving : Type :=
  | Completed
  | Caught (e : exn)
  | SystemExit.

Section Run.

(** search endpoint: query, page, attempt *)
Variable search : string -> nat -> nat -> response search_body.
(** [_process_batch] of [grok-max.py], as far as [run] sees it: the value
    returned or the exception, and the set [processed] after the call *)
Variable _process_batch :
  list repo_info -> gset string -> result nat * gset string.
(** the signal arrives when the run comes to its test number [t] of the
    flag; [None]: no signal *)
Variable signal_at : option nat.
Variable BATCH_SIZE : nat.

(** [_setup_signal_handlers]: the handler sets [shutdown_flag] and calls
    [sys.exit(0)].  A test of the flag at which the signal arrives does not
    take place: [SystemExit] is raised there. *)
Definition handler_runs (st : state) : bool :=
  match signal_at with
  | Some t => t =? tests st
  | None => false
  end.

Definition tested (st : state) : state :=
  mkState (processed st) (total_new st) (start_pages st) (S (tests st))
          (trace st).

Definition logged (evs : list event) (st : state) : state :=
  mkState (processed st) (total_new st) (start_pages st) (tests st)
          (trace st ++ evs).

(** [new_count = await self._process_batch(batch, processed, pbar)] and
    [total_new += new_count]. *)
Definition process (batch : list repo_info) (st : state)
  : result unit * state :=
  let st := logged [Handed (map full_name batch)] st in
  match _process_batch batch (processed st) with
  | (Ok new_count, processed') =>
      (Ok tt, mkState processed' (total_new st + new_count) (start_pages st)
                      (tests st) (trace st))
  | (Raise e, processed') =>
      (Raise e, mkState processed' (total_new st) (start_pages st)
                        (tests st) (trace st))
  end.

(** [start_pages[query] = start_page] and [self.checkpoint.save(...)]. *)
Definition checkpoint (query : string) (start_page q_idx : nat) (st : state)
  : state :=
  mkState (processed st) (total_new st)
          (<[query := start_page]> (start_pages st)) (tests st)
          (trace st ++ [Saved (elements (processed st)) q_idx]).

(** The loop [async for repo_info in stream]: how it is left, the batch
    that is open then, and the state. *)
Fixpoint consume (query : string) (start_page q_idx : nat)
    (items : list repo_info) (batch : list repo_info) (st : state)
  : leaving * list repo_info * state :=
  match items with
  | [] => (Completed, batch, st)
  | repo_info :: items' =>
      if handler_runs st then (SystemExit, batch, st)
      else
        let st := tested st in
        if decide (full_name repo_info ∈ processed st)
        then consume query start_page q_idx items' batch st
        else
          let batch := batch ++ [repo_info] in
          let st := logged [Batched (full_name repo_info)] st in
          if BATCH_SIZE <=? length batch then
            match process batch st with
            | (Raise e, st) => (Caught e, batch, st)
            | (Ok _, st) =>
                consume query start_page q_idx items' []
                        (checkpoint query start_page q_idx st)
            end
          else consume query start_page q_idx items' batch st
  end.

(** The body of the loop over the queries, without the agentic part
    ([AGENTIC_MODE] is off). *)
Definition scrape_query (limit : nat) (q_idx : nat) (query : string)
    (st : state) : leaving * state :=
  let start_page := default 1 (start_pages st !! query) in
  let '(items, ending) :=
    discover_repos_stream search [query] limit start_page in
  match consume query start_page q_idx items [] st with
  | (Completed, batch, st) =>
      match ending with
      | Failed e => (Caught e, st)
      | Exhausted | Unfinished =>
          match batch with
          | [] => (Completed, st)
          | _ =>
              match process batch st with
              | (Raise e, st) => (Caught e, st)
              | (Ok _, st) => (Completed, st)
              end
          end
      end
  | (l, _, st) => (l, st)
  end.

Fixpoint queries_loop (limit : nat) (q_idx : nat) (queries : list string)
    (st : state) : leaving * state :=
  match queries with
  | [] => (Completed, st)
  | query :: queries' =>
      if handler_runs st then (SystemExit, st)
      else
        match scrape_query limit q_idx query (tested st) with
        | (Completed, st) => queries_loop limit (S q_idx) queries' st
        | (l, st) => (l, st)
        end
  end.

(** [ThemeScraperAgent.run] of [grok-max.py] for a search (no input file),
    from the loaded checkpoint to the save of the [finally] clause. *)
Definition run (processed0 : gset string) (start_pages0 : gmap string nat)
    (query_idx : nat) (queries : list string) (max_repos : nat)
  : leaving * state :=
  let st := mkState processed0 0 start_pages0 0 [] in
  let '(l, st) :=
    queries_loop (max_repos / length queries) query_idx
                 (drop query_idx queries) st in
  (l, logged [Saved (elements (processed st)) (length queries)] st).

End Run.

End GrokMax.

(** ** ThemeAnalyzer.analyze_files *)

Module Files.

(** [Config.TECH_KEYWORDS], in the order of the dict. *)
Definition TECH_KEYWORDS : list (string * list string) :=
  [ ("jsonresume", ["jsonresume"; "resume.json"; "json resume";
                    "resume schema"]);
    ("mermaid", ["mermaid"; "mermaid.js"; "mermaidjs"; "flowchart";
                 "sequence diagram"]);
    ("chartjs", ["chart.js"; "chartjs"; "chartjs-plugin"; "chartjs-chart"]);
    ("react_flow", ["react-flow"; "reactflow"; "xyflow"; "node-based"]);
    ("d3", ["d3.js"; "d3-"; "d3 v"; "data-driven"]);
    ("recharts", ["recharts"; "react chart"]);
    ("typescript", ["typescript"; ".ts"; ".tsx"]);
    ("tailwind", ["tailwind"; "tailwindcss"]);
    ("bootstrap", ["bootstrap"; "bs-"]);
    ("sass", ["sass"; "scss"; ".scss"]);
    ("less", ["less"; ".less"]);
    ("react", ["react"; "jsx"; ".jsx"]);
    ("vue", ["vue"; "vue.js"]);
    ("svelte", ["svelte"; "svelte.js"]) ].

(** [c in s] for a character. *)
Fixpoint has_char (c : ascii) (s : string) : bool :=
  match s with
  | EmptyString => false
  | String d s' => Ascii.eqb c d || has_char c s'
  end.

(** [s.split(sep)[-1]]: what follows the last [sep], the whole of [s] when
    it has none. *)
Fixpoint last_segment (sep : ascii) (s : string) : string :=
  match s with
  | EmptyString => EmptyString
  | String c s' =>
      if has_char sep s' then last_segment sep s'
      else if Ascii.eqb c sep then s'
      else String c s'
  end.

(** [\w], on the ASCII characters. *)
Definition is_word (c : ascii) : bool :=
  let n := nat_of_ascii c in
  Str.is_lower c || Str.is_upper c || ((48 <=? n) && (n <=? 57))
  || Ascii.eqb c "_"%char.

(** The run of word characters that ends here, if it is a match. *)
Definition run_match (run : string) : list string :=
  if 4 <=? String.length run then [run] else [].

(** The matches of [\b\w{4,}\b] in what follows the word characters [run]:
    the runs of word characters that cannot be made longer and have four
    characters or more. *)
Fixpoint words_from (run : string) (s : string) : list string :=
  match s with
  | EmptyString => run_match run
  | String c s' =>
      if is_word c then words_from (run +:+ String c EmptyString) s'
      else run_match run ++ words_from EmptyString s'
  end.

(** [re.findall(r'\b\w{4,}\b', s)] *)
Definition findall_words (s : string) : list string :=
  words_from EmptyString s.

Definition priority_files : list string :=
  [ "index.js"; "index.ts"; "index.html"; "package.json"; "README.md";
    "theme.js"; "style.css"; "main.js" ].

(** The chain of tests on [content_sample] that gives ['file_type']. *)
Definition file_type_of (content_sample : string) : string :=
  if Str.contains "jsonresume" content_sample then "jsonresume_theme"
  else if Str.contains "mermaid" content_sample then "mermaid_theme"
  else if Str.contains "chart" content_sample
          && Str.contains "js" content_sample then "chartjs_related"
  else if Str.contains "react-flow" content_sample
          || Str.contains "reactflow" content_sample then "react_flow"
  else if Str.contains "d3" content_sample then "d3_visualization"
  else if Str.contains "recharts" content_sample then "recharts"
  else "general".

Section AnalyzeFiles.

(** The order in which [list(s)] enumerates a set. *)
Variable order : gset string -> list string.

(** [ThemeAnalyzer.analyze_files]; [repo_info] is the dict of the repo. *)
Definition analyze_files (files : list file_json) (repo_info : entry)
  : analysis :=
  match files with
  | [] =>
      {| an_error := "No files found"; file_type := "unknown";
         tech_stack := []; features := []; is_valid := false;
         file_preview := ""; keywords := []; has_demo := false;
         demo_url := ""; npm_package := "" |}
  | _ =>
      let names := map (fun f => Str.lower (file_name f)) files in
      let file_extensions : gset string :=
        list_to_set
          (map (last_segment ".") (List.filter (has_char ".") names)) in
      let content_sample :=
        Str.lower (Str.join " " (map file_name (take 20 files))) in
      let by_keyword :=
        map fst
          (List.filter
             (fun rule : string * list string =>
                existsb (fun kw => Str.contains kw content_sample) rule.2)
             TECH_KEYWORDS) in
      let by_extension :=
        (if bool_decide ("ts" ∈ file_extensions)
            || bool_decide ("tsx" ∈ file_extensions)
         then ["typescript"] else [])
        ++ (if bool_decide ("jsx" ∈ file_extensions) then ["react"] else [])
        ++ (if bool_decide ("scss" ∈ file_extensions) then ["sass"] else [])
        ++ (if bool_decide ("less" ∈ file_extensions) then ["less"] else [])
        ++ (if bool_decide ("vue" ∈ file_extensions) then ["vue"] else []) in
      let tech_stack := order (list_to_set (by_keyword ++ by_extension)) in
      let main_file_content :=
        match
          List.find
            (fun priority =>
               existsb (String.eqb (Str.lower priority)) names)
            priority_files
        with
        | Some priority =>
            match
              List.find
                (fun f => String.eqb (Str.lower (file_name f))
                                     (Str.lower priority))
                files
            with
            | Some f => "Found: " +:+ file_name f
            | None => ""
            end
        | None => ""
        end in
      let has_demo :=
        existsb (fun n => Str.contains "demo" n || Str.contains "example" n)
                names in
      let has_package_json := existsb (String.eqb "package.json") names in
      let file_type := file_type_of content_sample in
      let repo_text :=
        Str.lower
          (default "" (Fetcher.description <$> info repo_info) +:+ " " +:+
           default "" (Fetcher.repo_name <$> info repo_info)) in
      let keywords :=
        take 15 (order (list_to_set (findall_words repo_text))) in
      {| an_error := "";
         file_type := file_type;
         tech_stack := tech_stack;
         features := [];
         is_valid := (0 <? length files) && (0 <? length tech_stack)
                     && negb (String.eqb file_type "unknown");
         file_preview := Str.upto 2000 main_file_content;
         keywords := keywords;
         has_demo := has_demo;
         demo_url := "";
         npm_package :=
           if has_package_json
           then last_segment "/"
                  (default "" (Fetcher.full_name <$> info repo_info))
           else "" |}
  end.

End AnalyzeFiles.

End Files.

(** ** The data of the examples *)

Module Scenario.

Import Fetcher.

Definition repo (name : string) (stargazers : Z) : repo_json :=
  {| js_full_name := Some name;
     js_name := Some name;
     js_description := Some "vue ui component";
     js_stargazers_count := Some stargazers;
     js_forks_count := Some 0%Z;
     js_html_url := None;
     js_clone_url := None;
     js_updated_at := None;
     js_license_spdx_id := None |}.

Definition A : repo_json := repo "acme/A" 50.
Definition B : repo_json := repo "acme/B" 30.

Definition query : string := "vue ui component stars:>10".

(** Page 1 of the query has [A] and [B], every other page is empty. *)
Definition search (q : string) (page attempt : nat)
  : response search_body :=
  if String.eqb q query then
    match page with
    | 1 => Status200 (Some [A; B])
    | _ => Status200 (Some [])
    end
  else Status404.

(** The contents request of [acme/B] fails at every attempt; any other
    repo has one file, [index.ts]. *)
Definition contents (name : string) (attempt : nat)
  : response Agent.contents_body :=
  if String.eqb name "acme/B" then ClientError
  else Status200 (Agent.Listing [mkFileJson "index.ts"]).


(** [ThemeAnalyzer.analyze_files], with [list(s)] giving the elements of
    a set in the order of [elements]. *)
Definition analyze_files (fs : list file_json) (e : entry) : analysis :=
  Files.analyze_files elements fs e.

(** The remote classifier is down; the database and the disk work. *)
Definition env (first_upsert_fails : bool) (signal_at : option nat)
  : Agent.env :=
  {| Agent.search := search;
     Agent.contents := contents;
     Agent.analyze_files := analyze_files;
     Agent.remote := fun _ => Analyzer.RemoteFails;
     Agent.db_fails := fun n => match n with
                                | 0 => first_upsert_fails
                                | _ => false
                                end;
     Agent.ckpt_write := fun _ => Checkpoint.Written;
     Agent.signal_at := signal_at;
     Agent.exn_detail := fun _ =>
       "<Future at 0x7f3a5c0b1d30 state=finished raised ClientConnectorError>"
  |}.

Definition config (batch_size : nat) (use_ai : bool) : Agent.Config :=
  {| Agent.BATCH_SIZE := batch_size;
     Agent.MAX_REPOS := 1000;
     Agent.DEFAULT_QUERIES := [query];
     Agent.use_ai := use_ai |}.

(** A checkpoint file that lists [acme/A] as processed. *)
Definition checkpoint_with_A : Checkpoint.file :=
  Checkpoint.Stored
    {| Checkpoint.doc_processed := Some ["acme/A"];
       Checkpoint.doc_total_new := Some 1;
       Checkpoint.doc_queries_used := Some ∅;
       Checkpoint.doc_start_pages := Some ∅;
       Checkpoint.doc_query_idx := Some 0 |}.

End Scenario.

(** ** Calls of the gate one after another *)

Module GateCalls.

Import RateGate.

(** [n] calls of [check_and_wait], each awaited before the next is made, as
    the attempts of [_fetch_json] make them. *)
Fixpoint calls (quota : Z -> probe_reply) (fuel n : nat) (rl : RateLimiter)
    (w : gate_world) : outcome (RateLimiter * gate_world) :=
  match n with
  | O => Returned (rl, w)
  | S n' =>
      match check_and_wait quota fuel rl w with
      | Returned (rl', w') => calls quota fuel n' rl' w'
      | o => o
      end
  end.

End GateCalls.

(** ** More that holds along a run *)

Module Keeping.

Import Fetcher Agent.

(** The table has kept the names it had, every other name in it was put in
    a batch, every name of [processed] was loaded or has a row, and the
    repos of the open batch were put in it. *)
Definition keeping (db0 : gmap string Store.row) (P0 : gset string)
    (b : list repo_info) (st : state) : Prop :=
  dom db0 ⊆ dom (db (outside st)) /\
  (forall n, n ∈ dom (db (outside st)) ->
             n ∈ dom db0 \/ Batched n ∈ trace (outside st)) /\
  processed st ⊆ P0 ∪ dom (db (outside st)) /\
  (forall r, r ∈ b -> Batched (full_name r) ∈ trace (outside st)).

(** The largest batch that the loop lets grow: [BATCH_SIZE], and one repo
    when [BATCH_SIZE] is 0. *)
Definition batch_cap (C : Config) : nat := Nat.max 1 (BATCH_SIZE C).

(** Every list that went to the classifier or into a transaction has from
    one to [batch_cap] names. *)
Definition sized (C : Config) (tr : list event) : Prop :=
  forall ns, Classify ns ∈ tr \/ Upsert ns ∈ tr ->
             1 <= length ns <= batch_cap C.

(** Every name of [processed], and every name in a list that a save has
    written, was loaded or has a row in the table. *)
Definition covered (P0 : gset string) (st : state) : Prop :=
  processed st ⊆ P0 ∪ dom (db (outside st)) /\
  forall l q io n,
    Save l q io ∈ trace (outside st) -> n ∈ l ->
    n ∈ P0 \/ n ∈ dom (db (outside st)).

(** The names that were put in a batch, in order. *)
Definition batched (tr : list event) : list string :=
  omap (fun ev => match ev with Batched n => Some n | _ => None end) tr.

End Keeping.

(** ** Config: the categories *)

Module Categories.

(** [Config.CATEGORIES] *)
Definition CATEGORIES : list string :=
  [ "jsonresume_theme"; "mermaid_theme"; "chartjs_plugin"; "chartjs_example";
    "react_flow_example"; "d3_visualization"; "d3_chart_library";
    "recharts_example"; "document_template"; "infographic_template";
    "portfolio_template"; "general_visualization"; "other" ].

End Categories.

(** ** DatabaseManager: the quality score *)

Module Quality.

Local Open Scope Z_scope.

(** The keys of a dict that [_calc_quality_score] reads; [None] is a key
    that the dict does not have. *)
Record scored : Type := mkScored {
  sc_stars : option Z;
  sc_readme : option string;
  sc_has_demo : option bool;
  sc_tech_stack : option (list string);
  sc_features : option (list string);
  sc_freshness_days : option Z
}.

(** The points for freshness. *)
Definition freshness_points (freshness : Z) : Z :=
  if freshness <? 180 then 10
  else if freshness <? 365 then 7
  else if freshness <? 730 then 4
  else 0.

(** [DatabaseManager._calc_quality_score].  [int(stars / 5)] rounds towards
    zero.  The quotient here is the exact one, as Python's is for a star
    count of at most 2^53 in absolute value; past that the float division
    rounds, and past the range of floats it raises [OverflowError], which
    this function does not show. *)
Definition _calc_quality_score (entry : scored) : Z :=
  let score := 0 in
  let stars := default 0 (sc_stars entry) in
  let score := score + Z.min 40 (Z.quot stars 5) in
  let score :=
    if bool_decide (default "" (sc_readme entry) <> "")%string
    then score + 10 else score in
  let score := if default false (sc_has_demo entry) then score + 15
               else score in
  let tech_count := Z.of_nat (length (default [] (sc_tech_stack entry))) in
  let score := score + Z.min 15 (tech_count * 3) in
  let features_count :=
    Z.of_nat (length (default [] (sc_features entry))) in
  let score := score + Z.min 10 (features_count * 2) in
  let freshness := default 9999 (sc_freshness_days entry) in
  let score := score + freshness_points freshness in
  Z.min 100 score.

(** [DatabaseManager._calc_freshness].  [age s] is what the parsing of [s]
    gives: [None] when [fromisoformat] raises, else the whole seconds from
    that time to now, rounded down. *)
Definition _calc_freshness (age : string -> option Z) (updated_str : string)
  : Z :=
  match updated_str with
  | EmptyString => 9999
  | _ =>
      match age updated_str with
      | None => 9999
      | Some seconds => Z.max 0 (Z.quot seconds 86400)
      end
  end.

(** The [setdefault] calls of [_validate_entry] on the keys that the score
    reads. *)
Definition defaults (entry : scored) : scored :=
  {| sc_stars := Some (default 0 (sc_stars entry));
     sc_readme := Some (default "" (sc_readme entry));
     sc_has_demo := Some (default false (sc_has_demo entry));
     sc_tech_stack := Some (default [] (sc_tech_stack entry));
     sc_features := Some (default [] (sc_features entry));
     sc_freshness_days := sc_freshness_days entry |}.

(** [DatabaseManager._validate_entry], on these keys: the dict as the call
    leaves it, and the ['quality_score'] it has put there.  The score is
    computed before ['freshness_days'] is written. *)
Definition _validate_entry (age : string -> option Z) (last_updated : string)
    (entry : scored) : scored * Z :=
  let entry := defaults entry in
  let quality_score := _calc_quality_score entry in
  let freshness_days := _calc_freshness age last_updated in
  (mkScored (sc_stars entry) (sc_readme entry) (sc_has_demo entry)
            (sc_tech_stack entry) (sc_features entry) (Some freshness_days),
   quality_score).

(** The keys of a dict of [_process_batch] when it comes to the upsert: the
    discovery keys and the analysis keys; nothing writes ['readme'] or
    ['freshness_days']. *)
Definition scored_of (e : entry) : scored :=
  {| sc_stars := Fetcher.stars <$> info e;
     sc_readme := None;
     sc_has_demo := has_demo <$> analysed e;
     sc_tech_stack := tech_stack <$> analysed e;
     sc_features := features <$> analysed e;
     sc_freshness_days := None |}.

End Quality.

(** ** MiniMaxClient: the rotation of the API keys *)

Module MiniMax.

(** [self.api_keys], the number of values that [self.key_cycle] has given
    so far, and [self.current_key]. *)
Record client : Type := mkClient {
  api_keys : list string;
  cursor : nat;
  current_key : string
}.

(** What [itertools.cycle(keys)] gives at its call number [i] of [next]. *)
Definition key_at (keys : list string) (i : nat) : string :=
  nth (i mod length keys) keys "".

Definition nonempty (key : string) : bool := negb (String.eqb key "").

(** [MiniMaxClient.__init__]; [None] is the [ValueError] for a list without
    a key that is not empty. *)
Definition __init__ (keys : list string) : option client :=
  match List.filter nonempty keys with
  | [] => None
  | key :: keys' =>
      Some {| api_keys := key :: keys'; cursor := 1; current_key := key |}
  end.

(** [MiniMaxClient._get_next_key] *)
Definition _get_next_key (c : client) : client :=
  {| api_keys := api_keys c;
     cursor := S (cursor c);
     current_key := key_at (api_keys c) (cursor c) |}.

(** [Config.USE_AI]: [any(self.MINIMAX_API_KEYS)]. *)
Definition USE_AI (keys : list string) : bool := existsb nonempty keys.

(** [self.analyzer.use_ai] as [ThemeScraperAgent.__init__] leaves it: the
    client is built when [USE_AI] holds, and an exception of its
    constructor leaves the analyzer without a client. *)
Definition analyzer_use_ai (keys : list string) : bool :=
  if USE_AI keys then
    match __init__ keys with
    | Some _ => true
    | None => false
    end
  else false.

(** The first element of ['choices'] in a decoded response. *)
Inductive choice : Type :=
  | Message (content : option string)   (* has 'message' *)
  | Delta (content : option string)     (* no 'message', has 'delta' *)
  | Bare.                               (* neither *)

(** What one POST meets.  For status 200, [None] is a body with no
    ['choices'] or an empty list of them. *)
Inductive http : Type :=
  | Http200 (first_choice : option choice)
  | Http401
  | Http429
  | HttpOther (code : Z) (text : string)
  | Timeout                  (* requests.exceptions.Timeout *)
  | Error (msg : string).    (* any other exception inside the [try] *)

(** What [chat_completion] returns: the dict with the one content string,
    or the decoded body as it came. *)
Inductive answer : Type :=
  | Content (content : string)
  | Raw.

(** How [chat_completion] ends: it returns, or it raises its [Exception]
    with [last_error] in the message. *)
Inductive outcome : Type :=
  | Returned (a : answer)
  | Failed (last_error : option string).

(** The client after the call, the keys of the requests sent, in order,
    and the seconds slept. *)
Record effects : Type := mkEffects {
  client_after : client;
  requests : list string;
  slept : nat
}.

Section ChatCompletion.

(** The service: the key of the request, the number of the attempt. *)
Variable post : string -> nat -> http.

(** The loop [for attempt in range(max_retries)], from [attempt] on;
    [key] is the key in [headers]. *)
Fixpoint attempts (max_retries left attempt : nat) (key : string)
    (last_error : option string) (c : client) (sent : list string)
    (secs : nat) : outcome * effects :=
  match left with
  | O => (Failed last_error, mkEffects c sent secs)
  | S left' =>
      let sent := sent ++ [key] in
      let again last_error pause :=
        if attempt <? max_retries - 1 then
          let c := _get_next_key c in
          attempts max_retries left' (S attempt) (current_key c) last_error
                   c sent (secs + pause)
        else
          attempts max_retries left' (S attempt) key last_error c sent secs
      in
      match post key attempt with
      | Http200 first_choice =>
          (Returned
             match first_choice with
             | Some (Message content) | Some (Delta content) =>
                 Content (default "" content)
             | Some Bare => Content ""
             | None => Raw
             end,
           mkEffects c sent secs)
      | Http401 =>
          let c := _get_next_key c in
          attempts max_retries left' (S attempt) (current_key c) last_error
                   c sent secs
      | Http429 =>
          let c := _get_next_key c in
          attempts max_retries left' (S attempt) (current_key c) last_error
                   c sent (secs + 2)
      | HttpOther code text =>
          again (Some ("API error: " +:+ pretty code +:+ " - " +:+ text)) 1
      | Timeout => again (Some "Request timeout") 2
      | Error msg => again (Some msg) 1
      end
  end.

(** [MiniMaxClient.chat_completion], as far as the keys go. *)
Definition chat_completion (c : client) : outcome * effects :=
  attempts (length (api_keys c)) (length (api_keys c)) 0 (current_key c)
           None c [] 0.

End ChatCompletion.

(** The client is as [__init__] and [_get_next_key] leave it. *)
Definition rotating (c : client) : Prop :=
  api_keys c <> [] /\ 1 <= cursor c /\
  current_key c = key_at (api_keys c) (cursor c - 1).

(** What a run [r] of the loop has done, started with client [c], the
    requests [sent], [secs] seconds slept and [left] attempts to go: it
    has sent at most [left] more requests, their keys are those that the
    cycle gives from the current one on, it has slept at most two seconds
    for each, the client still rotates over the same keys, and when the
    call returns the current key is the key of the last request. *)
Definition rotated (c : client) (sent : list string) (secs left : nat)
    (r : outcome * effects) : Prop :=
  exists extra,
    requests r.2 = sent ++ extra /\
    length extra <= left /\
    slept r.2 <= secs + 2 * left /\
    (forall j, j < length extra ->
       extra !! j = Some (key_at (api_keys c) (cursor c - 1 + j))) /\
    rotating (client_after r.2) /\
    api_keys (client_after r.2) = api_keys c /\
    (forall a, r.1 = Returned a ->
       last extra = Some (current_key (client_after r.2))).

End MiniMax.

(** ** DatabaseManager.query_top and the report *)

Module Report.

(** A row of [themes], by the columns that [query_top] selects, in the
    order of the SELECT, and [is_valid]; [None] is NULL.  A JSON column
    holds the text that [json.dumps] wrote. *)
Record theme_row : Type := mkThemeRow {
  col_repo_name : option string;
  col_full_name : option string;
  col_description : option string;
  col_category : option string;
  col_ai_use_case : option string;
  col_stars : option Z;
  col_forks : option Z;
  col_url : option string;
  col_file_type : option string;
  col_keywords : option string;
  col_ai_description : option string;
  col_ai_features : option string;
  col_processing_errors : option string;
  col_quality_score : option Z;
  col_freshness_days : option Z;
  col_processing_status : option string;
  col_has_demo : option Z;
  col_demo_url : option string;
  col_npm_package : option string;
  col_license : option string;
  col_tech_stack : option string;
  col_is_valid : option Z
}.

(** A value of a dict of the report. *)
Inductive value : Type :=
  | VStr (s : string)
  | VInt (n : Z)
  | VBool (b : bool)
  | VList (l : list string)
  | VNone.

(** A dict written as a literal: its keys and values, in order. *)
Definition dict : Type := list (string * value).

(** [d.get(key)] *)
Definition get (d : dict) (key : string) : option value :=
  snd <$> List.find (fun kv => String.eqb kv.1 key) d.

(** [d[key]] *)
Definition item (d : dict) (key : string) : result value :=
  match get d key with
  | Some v => Ok v
  | None => Raise (KeyError key)
  end.

(** [x or default] on a text column and on an integer column. *)
Definition str_or (x : option string) (d : string) : string :=
  match x with
  | Some (String c s) => String c s
  | Some EmptyString | None => d
  end.

Definition int_or (x : option Z) (d : Z) : Z :=
  match x with
  | Some 0%Z | None => d
  | Some n => n
  end.

Section QueryTop.

(** [json.loads] on the text of a JSON column: the list, or [None] when it
    raises.  (The columns are written with [json.dumps] of a list of
    strings.) *)
Variable loads : string -> option (list string).

(** The order that ORDER BY quality_score DESC, stars DESC gives to the
    rows selected. *)
Variable order_by : list theme_row -> list theme_row.

(** [json.loads(x) if x else []] *)
Definition json_list (x : option string) : option (list string) :=
  match x with
  | Some (String c s) => loads (String c s)
  | Some EmptyString | None => Some []
  end.

(** The WHERE clause; a comparison with NULL selects nothing. *)
Definition selected (category : option string) (min_stars : Z)
    (fresh_only : bool) (fresh_days : Z) (r : theme_row) : bool :=
  match category with
  | Some (String c s) =>
      bool_decide (col_category r = Some (String c s))
  | Some EmptyString | None => true
  end
  && (if fresh_only
      then match col_freshness_days r with
           | Some f => (f <? fresh_days)%Z
           | None => false
           end
      else true)
  && match col_stars r with
     | Some s => (min_stars <=? s)%Z
     | None => false
     end
  && bool_decide (col_is_valid r = Some 1%Z)
  && match col_processing_status r with
     | Some s => negb (String.eqb s "error")
     | None => false
     end.

(** LIMIT: a negative limit is no limit. *)
Definition limit {A : Type} (top_n : Z) (l : list A) : list A :=
  if (top_n <? 0)%Z then l else take (Z.to_nat top_n) l.

(** The dict that the loop of [query_top] appends for a row, or [None]
    when [json.loads] raises. *)
Definition theme_of (r : theme_row) : option dict :=
  kw ← json_list (col_keywords r);
  feats ← json_list (col_ai_features r);
  tech ← json_list (col_tech_stack r);
  Some [ ("repo_name", VStr (str_or (col_repo_name r) "unknown"));
         ("full_name", from_option VStr VNone (col_full_name r));
         ("description", VStr (str_or (col_description r) ""));
         ("category", VStr (str_or (col_category r) "other"));
         ("use_case", VStr (str_or (col_ai_use_case r) "General"));
         ("stars", VInt (int_or (col_stars r) 0));
         ("forks", VInt (int_or (col_forks r) 0));
         ("url", VStr (str_or (col_url r) ""));
         ("file_type", VStr (str_or (col_file_type r) "unknown"));
         ("keywords", VList kw);
         ("ai_description", VStr (str_or (col_ai_description r) ""));
         ("ai_features", VList feats);
         ("errors", match col_processing_errors r with
                    | Some (String c s) => VStr (String c s)
                    | _ => VNone
                    end);
         ("quality_score", VInt (int_or (col_quality_score r) 0));
         ("freshness_days", VInt (int_or (col_freshness_days r) 9999));
         ("status", VStr (str_or (col_processing_status r) "scraped"));
         ("has_demo", VBool (negb (bool_decide (int_or (col_has_demo r) 0
                                                = 0%Z))));
         ("demo_url", VStr (str_or (col_demo_url r) ""));
         ("npm_package", VStr (str_or (col_npm_package r) ""));
         ("license", VStr (str_or (col_license r) ""));
         ("tech_stack", VList tech) ].

(** The loop over the rows. *)
Fixpoint themes_of (rows : list theme_row) : option (list dict) :=
  match rows with
  | [] => Some []
  | r :: rows' =>
      d ← theme_of r;
      ds ← themes_of rows';
      Some (d :: ds)
  end.

(** [DatabaseManager.query_top] on a table; [connects] says whether the
    database can be read.  Any exception gives the empty list. *)
Definition query_top (connects : bool) (table : list theme_row)
    (category : option string) (top_n : Z) (min_stars : Z)
    (fresh_only : bool) (fresh_days : Z) : list dict :=
  if connects then
    let rows :=
      limit top_n
        (order_by
           (List.filter (selected category min_stars fresh_only fresh_days)
                        table)) in
    default [] (themes_of rows)
  else [].

(** [DatabaseManager.count_rows] *)
Definition count_rows (connects : bool) (table : list theme_row) : nat :=
  if connects then length table else 0.

(** [str(v)] for the values that the report formats. *)
Definition str (v : value) : string :=
  match v with
  | VStr s => s
  | VInt n => pretty n
  | VBool true => "True"
  | VBool false => "False"
  | VList l => "[" +:+ Str.join ", " l +:+ "]"
  | VNone => "None"
  end.

(** The f-string of a theme in the markdown report; its fields are
    evaluated from left to right. *)
Definition theme_section (theme : dict) : result string :=
  match item theme "full_name" with Raise e => Raise e | Ok full_name =>
  match item theme "category" with Raise e => Raise e | Ok category =>
  match item theme "stars" with Raise e => Raise e | Ok stars =>
  match item theme "quality_score" with Raise e => Raise e | Ok quality =>
  let tech := match get theme "tech_stack" with
              | Some (VList l) => l
              | _ => []
              end in
  match item theme "ai_use_case" with Raise e => Raise e | Ok use_case =>
  match item theme "url" with Raise e => Raise e | Ok url =>
  Ok ("### " +:+ str full_name +:+ " (" +:+ str category +:+ ")" +:+
      "- **Stars**: " +:+ str stars +:+ " | **Quality Score**: " +:+
      str quality +:+ "- **Tech**: " +:+ Str.join ", " tech +:+
      "- **Use Case**: " +:+ str use_case +:+
      "- **URL**: " +:+ str url)
  end end end end end end.

(** The loop [for theme in top_themes[:20]] on the open file: what has
    been written when it ends or raises. *)
Fixpoint write_sections (themes : list dict) (written : list string)
  : result unit * list string :=
  match themes with
  | [] => (Ok tt, written)
  | theme :: themes' =>
      match theme_section theme with
      | Raise e => (Raise e, written)
      | Ok s => write_sections themes' (written ++ [s])
      end
  end.

(** The two files of the report: the three values of the JSON file, if it
    was written, and what was written to the markdown file. *)
Record files : Type := mkFiles {
  themes_report_json : option (nat * nat * list dict);
  themes_report_md : list string
}.

(** The four writes that open the markdown file. *)
Definition md_header (total_new total_db : nat) : list string :=
  [ "# Theme Scraper Report";
    "- **New Themes**: " +:+ pretty total_new;
    "- **Total in DB**: " +:+ pretty total_db;
    "## Top Themes by Quality Score" ].

(** [ThemeScraperAgent._export_results] *)
Definition _export_results (connects : bool) (table : list theme_row)
    (total_new : nat) : result unit * files :=
  let top_themes := query_top connects table None 100 3 false 730 in
  let total_db := count_rows connects table in
  let '(r, md) :=
    write_sections (take 20 top_themes) (md_header total_new total_db) in
  (r, mkFiles (Some (total_new, total_db, top_themes)) md).

End QueryTop.

(** [x < y] in the order of SQLite, where NULL is smaller than every
    value. *)
Definition null_ltb (x y : option Z) : bool :=
  match x, y with
  | None, Some _ => true
  | Some a, Some b => (a <? b)%Z
  | _, None => false
  end.

(** Whether [a] may come before [b] under ORDER BY quality_score DESC,
    stars DESC: NULL comes last. *)
Definition precedes (a b : theme_row) : bool :=
  null_ltb (col_quality_score b) (col_quality_score a)
  || (bool_decide (col_quality_score a = col_quality_score b)
      && negb (null_ltb (col_stars a) (col_stars b))).

(** One order that the ORDER BY may give: rows that tie stay in the order
    of the table. *)
Fixpoint insert_row (r : theme_row) (l : list theme_row) : list theme_row :=
  match l with
  | [] => [r]
  | x :: l' => if precedes x r then x :: insert_row r l' else r :: x :: l'
  end.

Definition sorted_rows (l : list theme_row) : list theme_row :=
  foldr insert_row [] l.

End Report.

(** ** More data for the examples *)

Module Examples.

Import Fetcher.

(** Page 1 of any query has [A] and [B]; every other page is refused with
    status 403. *)
Definition search_refused (q : string) (page attempt : nat)
  : response search_body :=
  match page with
  | 1 => Status200 (Some [Scenario.A; Scenario.B])
  | _ => Status403
  end.

(** Pages 1 to 4 of any query have one repo each, every other page is
    empty. *)
Definition search_four_pages (q : string) (page attempt : nat)
  : response search_body :=
  match page with
  | 1 | 3 => Status200 (Some [Scenario.A])
  | 2 | 4 => Status200 (Some [Scenario.B])
  | _ => Status200 (Some [])
  end.

(** A client with two keys, as [__init__] leaves it. *)
Definition two_keys : MiniMax.client :=
  {| MiniMax.api_keys := ["key-1"; "key-2"];
     MiniMax.cursor := 1;
     MiniMax.current_key := "key-1" |}.

(** The first key is rate limited, the second one is answered. *)
Definition first_key_limited (key : string) (attempt : nat) : MiniMax.http :=
  if String.eqb key "key-1" then MiniMax.Http429
  else MiniMax.Http200 (Some (MiniMax.Message (Some "{}"))).

(** No key is accepted. *)
Definition every_key_refused (key : string) (attempt : nat) : MiniMax.http :=
  MiniMax.Http401.

(** [json.loads] on the one text that the rows below hold. *)
Definition loads (s : string) : option (list string) :=
  if String.eqb s "[]" then Some [] else None.

(** A valid row, updated today. *)
Definition fresh_row : Report.theme_row :=
  {| Report.col_repo_name := Some "A";
     Report.col_full_name := Some "acme/A";
     Report.col_description := Some "vue ui component";
     Report.col_category := Some "other";
     Report.col_ai_use_case := Some "General purpose";
     Report.col_stars := Some 50%Z;
     Report.col_forks := Some 0%Z;
     Report.col_url := Some "";
     Report.col_file_type := Some "general";
     Report.col_keywords := Some "[]";
     Report.col_ai_description := Some "General web theme";
     Report.col_ai_features := Some "[]";
     Report.col_processing_errors := Some "";
     Report.col_quality_score := Some 13%Z;
     Report.col_freshness_days := Some 0%Z;
     Report.col_processing_status := Some "scraped_valid";
     Report.col_has_demo := Some 0%Z;
     Report.col_demo_url := Some "";
     Report.col_npm_package := Some "";
     Report.col_license := Some "";
     Report.col_tech_stack := Some "[]";
     Report.col_is_valid := Some 1%Z |}.

(** The row that the pipeline stores for [acme/A] in the scenario. *)
Definition stored_A : Store.row :=
  {| Store.row_full_name := "acme/A";
     Store.row_description := "vue ui component";
     Store.row_is_valid := true;
     Store.row_category := "other";
     Store.row_ai_description := "General web theme";
     Store.row_ai_use_case := "General purpose";
     Store.row_processing_errors := "";
     Store.row_processing_status := "scraped_valid" |}.

End Examples.

(** * Properties *)

#[local] Set Warnings "-clear-no-such-hyp".

(** ** RateLimiter *)

Section RateGateFacts.

Import RateGate.
Local Open Scope Z_scope.

Variable quota : Z -> probe_reply.

(** A call that finds the lock held goes no further. *)
Lemma check_and_wait_held fuel rl w :
  lock rl = true ->
  check_and_wait quota (S fuel) rl w = Blocked (rl, w).
Proof. intros Hl. simpl. now rewrite Hl. Qed.

Lemma check_and_wait_low fuel rl w rem rst :
  lock rl = false ->
  poll_interval rl <> 0 ->
  (call_count rl + 1) mod poll_interval rl = 0 ->
  remaining rl <= 100 ->
  quota (clock w) = Reply200 rem rst ->
  rem < 50 ->
  check_and_wait quota (S (S fuel)) rl w = Blocked (stuck rl w rem rst).
Proof.
  intros Hl Hp Hm Hr Hq Hlow.
  cbn [check_and_wait]. rewrite Hl. cbn [count_call acquire poll_interval
    call_count remaining lock session reset_timestamp].
  destruct (Z.eqb_spec (poll_interval rl) 0) as [|_]; [contradiction|].
  rewrite Hm. cbn [Z.eqb negb orb].
  destruct (Z.ltb_spec 100 (remaining rl)) as [|_]; [lia|].
  cbn [probe_sent clock probes set_session]. rewrite Hq.
  destruct (Z.ltb_spec rem 50) as [_|]; [|lia].
  reflexivity.
Qed.

End RateGateFacts.

(** C6 (the code departs from it).  When the probe finds fewer than 50
    calls left, [check_and_wait] sleeps and calls itself while it still
    holds the lock: the inner call waits for that lock, so the budget is
    not read again (one probe in all) and the call returns for no amount of
    fuel. *)
Theorem recheck_waits_for_own_lock
    (quota : Z -> RateGate.probe_reply) (rl : RateGate.RateLimiter)
    (w : RateGate.gate_world) (rem rst : Z) :
  RateGate.lock rl = false ->
  RateGate.poll_interval rl <> 0%Z ->
  ((RateGate.call_count rl + 1) mod RateGate.poll_interval rl = 0)%Z ->
  (RateGate.remaining rl <= 100)%Z ->
  quota (RateGate.clock w) = RateGate.Reply200 rem rst ->
  (rem < 50)%Z ->
  (forall fuel,
     RateGate.check_and_wait quota (S (S fuel)) rl w
     = RateGate.Blocked (RateGate.stuck rl w rem rst)) /\
  RateGate.probes (RateGate.stuck rl w rem rst).2 = S (RateGate.probes w) /\
  (forall fuel s,
     RateGate.check_and_wait quota fuel rl w <> RateGate.Returned s).
Proof.
  intros Hl Hp Hm Hr Hq Hlow.
  assert (Hb : forall fuel,
             RateGate.check_and_wait quota (S (S fuel)) rl w
             = RateGate.Blocked (RateGate.stuck rl w rem rst))
    by (intros; now apply check_and_wait_low).
  split; [exact Hb|]. split; [reflexivity|].
  intros [|[|fuel]] s.
  - discriminate.
  - cbn [RateGate.check_and_wait]. rewrite Hl.
    cbn [RateGate.count_call RateGate.acquire RateGate.poll_interval
         RateGate.call_count RateGate.remaining].
    destruct (Z.eqb_spec (RateGate.poll_interval rl) 0) as [|_];
      [contradiction|].
    rewrite Hm. cbn [Z.eqb negb orb].
    destruct (Z.ltb_spec 100 (RateGate.remaining rl)) as [|_]; [lia|].
    cbn [RateGate.probe_sent RateGate.clock]. rewrite Hq.
    destruct (Z.ltb_spec rem 50) as [_|]; [|lia].
    discriminate.
  - rewrite Hb. discriminate.
Qed.

Lemma recheck_waits_for_own_lock_witness :
  RateGate.check_and_wait (fun _ => RateGate.Reply200 10 5000) 7
    (RateGate.mkRateLimiter 60 4600 5 4 false false)
    (RateGate.mkGateWorld 1000 0)
  = RateGate.Blocked
      (RateGate.mkRateLimiter 10 5000 5 5 true true,
       RateGate.mkGateWorld 8660 1).
Proof.
  pose proof (recheck_waits_for_own_lock
                (fun _ => RateGate.Reply200 10 5000)
                (RateGate.mkRateLimiter 60 4600 5 4 false false)
                (RateGate.mkGateWorld 1000 0) 10 5000
                eq_refl ltac:(discriminate) eq_refl ltac:(discriminate)
                eq_refl eq_refl) as (H & _ & _).
  exact (H 5).
Defined.

(** C7 (the code departs from it).  With no token, the fifth call probes;
    a source that reports [remaining = 0] and [reset = now + 1] makes it
    sleep 3661 seconds and then wait for its own lock: one probe, and no
    return. *)
Theorem zero_quota_call_never_returns (now : Z) (fuel : nat) :
  RateGate.check_and_wait (fun _ => RateGate.Reply200 0 (now + 1))
    (S (S fuel))
    (RateGate.mkRateLimiter 60 (now + 3600) 5 4 false false)
    (RateGate.mkGateWorld now 0)
  = RateGate.Blocked
      (RateGate.mkRateLimiter 0 (now + 1) 5 5 true true,
       RateGate.mkGateWorld (now + 3661) 1).
Proof.
  rewrite (check_and_wait_low _ fuel _ _ 0%Z (now + 1)%Z);
    try reflexivity; try discriminate.
  unfold RateGate.stuck. cbn [RateGate.poll_interval RateGate.call_count
                     RateGate.clock RateGate.probes].
  do 2 f_equal. f_equal. lia.
Qed.

(** ** CheckpointManager *)

(** C2.  What [load] reads back from a file that [save] has written is the
    processed set, the page cursors, the query index and the used queries
    that were saved, in whatever order [list(processed)] enumerated the
    set. *)
Theorem save_load_roundtrip
    (order : gset string -> list string) (f : Checkpoint.file)
    (processed : gset string) (total_new : nat)
    (queries_used : gmap string bool) (start_pages : gmap string nat)
    (query_idx : nat) :
  order processed ≡ₚ elements processed ->
  Checkpoint.load
    (Checkpoint.save order Checkpoint.Written f processed total_new
                     queries_used start_pages query_idx)
  = (processed, start_pages, query_idx, queries_used).
Proof.
  intros Hperm. cbn [Checkpoint.save Checkpoint.load Checkpoint.doc_processed
    Checkpoint.doc_start_pages Checkpoint.doc_query_idx
    Checkpoint.doc_queries_used default].
  do 3 f_equal.
  apply set_eq. intros x.
  rewrite elem_of_list_to_set, Hperm. apply elem_of_elements.
Qed.

Lemma save_load_roundtrip_witness :
  Checkpoint.load
    (Checkpoint.save (fun s => reverse (elements s)) Checkpoint.Written
       Checkpoint.Corrupt {["x/y"; "a/b"; "c/d"]} 3 ∅
       {["vue ui component stars:>10" := 2]} 1)
  = ({["x/y"; "a/b"; "c/d"]}, {["vue ui component stars:>10" := 2]}, 1, ∅).
Proof.
  apply save_load_roundtrip. apply reverse_Permutation.
Defined.

(** ** GitHubFetcher *)

Section FetcherFacts.

Import Fetcher.

Variable search : string -> nat -> nat -> response search_body.

(** The loop over a page yields the dicts of its first items, as many as
    the cap leaves room for. *)
Lemma page_items_take max_repos items repos_fetched :
  page_items max_repos items repos_fetched
  = (map repo_info_of (take (max_repos - repos_fetched) items),
     repos_fetched + length (take (max_repos - repos_fetched) items)).
Proof.
  revert repos_fetched.
  induction items as [|repo items IH]; intros n; cbn [page_items].
  - rewrite take_nil. cbn. f_equal. lia.
  - destruct (Nat.leb_spec max_repos n) as [Hle|Hlt].
    + replace (max_repos - n) with 0 by lia. cbn. f_equal. lia.
    + rewrite IH.
      replace (max_repos - n) with (S (max_repos - S n)) by lia.
      cbn [take map length]. f_equal. lia.
Qed.

(** The loop of one query ends, with the counter under the cap. *)
Lemma pages_ends fuel max_repos query page n :
  max_repos - n < fuel -> n <= max_repos ->
  forall ys m e,
    pages search fuel max_repos query page n = (ys, m, e) ->
    e <> Unfinished /\ m <= max_repos /\ n + length ys = m.
Proof.
  revert page n.
  induction fuel as [|fuel IH]; intros page n Hfuel Hn ys m e; [lia|].
  cbn [pages].
  destruct (Nat.ltb_spec n max_repos) as [Hlt|Hge].
  - destruct (_fetch_json (search query page)) as [data|x].
    + destruct (items_of data) as [|repo items] eqn:Hitems.
      * intros [= <- <- <-]. cbn. split; [discriminate|lia].
      * rewrite page_items_take.
        set (got := take (max_repos - n) (repo :: items)).
        assert (Hgot : 1 <= length got <= max_repos - n).
        { subst got. rewrite length_take. cbn [length]. lia. }
        destruct (pages search fuel max_repos query (S page)
                        (n + length got)) as [[zs m'] e'] eqn:Hrec.
        intros [= <- <- <-].
        apply IH in Hrec as (He & Hm & Hlen); [|lia..].
        rewrite length_app, length_map. split; [exact He|lia].
    + intros [= <- <- <-]. cbn. split; [discriminate|lia].
  - intros [= <- <- <-]. cbn. split; [discriminate|lia].
Qed.

Lemma queries_loop_ends max_repos start_page queries n :
  n <= max_repos ->
  forall ys e,
    queries_loop search (S max_repos) max_repos start_page queries n = (ys, e) ->
    e <> Unfinished /\ n + length ys <= max_repos.
Proof.
  revert n.
  induction queries as [|query queries IH]; intros n Hn ys e; cbn [queries_loop].
  - intros [= <- <-]. cbn. split; [discriminate|lia].
  - destruct (pages search (S max_repos) max_repos query start_page n)
      as [[ys1 m] e1] eqn:Hp.
    apply pages_ends in Hp as (He1 & Hm & Hlen); [|lia..].
    destruct e1 as [|x|]; [|intros [= <- <-]; split; [discriminate|lia]
                           |contradiction].
    destruct (queries_loop search (S max_repos) max_repos start_page queries m)
      as [zs e'] eqn:Hq.
    intros [= <- <-].
    apply IH in Hq as (He' & Hlen'); [|lia].
    rewrite length_app. split; [exact He'|lia].
Qed.

(** [k] pages with items and then an empty page: the loop of the query
    yields the items of the [k] pages in order, cut at the cap. *)
Lemma pages_until_empty max_repos query (P : nat -> list repo_json) k :
  forall fuel page n,
    max_repos - n < fuel ->
    (forall i, i < k ->
       P i <> [] /\
       exists d, _fetch_json (search query (page + i)) = Ok d /\
                 items_of d = P i) ->
    (exists d, _fetch_json (search query (page + k)) = Ok d /\
               items_of d = []) ->
    exists m,
      pages search fuel max_repos query page n
      = (map repo_info_of
           (take (max_repos - n) (concat (map P (seq 0 k)))), m, Exhausted).
Proof.
  revert P.
  induction k as [|k IH]; intros P fuel page n Hfuel Hfull Hempty.
  - destruct fuel as [|fuel]; [lia|]. cbn [pages seq map concat].
    rewrite take_nil. cbn [map].
    destruct (n <? max_repos); [|eauto].
    destruct Hempty as (d & Hd & Hi). rewrite Nat.add_0_r in Hd.
    rewrite Hd, Hi. eauto.
  - destruct fuel as [|fuel]; [lia|]. cbn [pages].
    destruct (Nat.ltb_spec n max_repos) as [Hlt|Hge].
    + destruct (Hfull 0 ltac:(lia)) as (Hne & d & Hd & Hi).
      rewrite Nat.add_0_r in Hd. rewrite Hd, Hi.
      destruct (P 0) as [|repo items] eqn:HP0; [contradiction|].
      rewrite page_items_take.
      set (got := take (max_repos - n) (repo :: items)).
      assert (Hgot : 1 <= length got <= max_repos - n).
      { subst got. rewrite length_take. cbn [length]. lia. }
      destruct (IH (fun i => P (S i)) fuel (S page) (n + length got))
        as (m & Hrec).
      * lia.
      * intros i Hi'. destruct (Hfull (S i) ltac:(lia)) as (? & d' & Hd' & ?).
        split; [assumption|]. exists d'.
        replace (S page + i) with (page + S i) by lia. auto.
      * destruct Hempty as (d' & Hd' & ?). exists d'.
        replace (S page + k) with (page + S k) by lia. auto.
      * rewrite Hrec. exists m. f_equal. f_equal.
        cbn [seq map concat]. rewrite HP0, <- seq_shift, map_map.
        rewrite take_app, map_app. fold got. f_equal. f_equal.
        subst got. rewrite length_take. cbn [length]. f_equal. lia.
    + replace (max_repos - n) with 0 by lia. rewrite take_0. eauto.
Qed.

End FetcherFacts.

(** ** Categorisation and upsert *)

Section BatchFacts.

Import Fetcher Agent Batch Inv.

Lemma carries_names rs es : carries rs es -> names es = map full_name rs.
Proof.
  unfold carries, names. revert rs.
  induction es as [|e es IH]; intros [|r rs] H; try discriminate; [done|].
  injection H as He Hes. cbn. rewrite He. cbn. f_equal. auto.
Qed.

Lemma carries_length rs es : carries rs es -> length es = length rs.
Proof.
  unfold carries. intros H.
  rewrite <- (length_map info es), H. apply length_map.
Qed.

Lemma carries_map (f : entry -> entry) rs es :
  (forall e, info (f e) = info e) -> carries rs es -> carries rs (map f es).
Proof.
  unfold carries. intros Hf <-. rewrite map_map. now apply map_ext.
Qed.

Lemma apply_results_info es results :
  map info (Analyzer.apply_results es results) = map info es.
Proof.
  revert results.
  induction es as [|e es IH]; intros [|r rs]; cbn; try reflexivity.
  rewrite IH. f_equal. now destruct (Analyzer.truthy r).
Qed.

Lemma heuristic_dicts_names es : names (Analyzer.heuristic_dicts es) = [].
Proof. unfold Analyzer.heuristic_dicts. now induction es. Qed.

Lemma rows_of_heuristic_dicts e es :
  exists k, Store.rows_of (Analyzer.heuristic_dicts (e :: es)) = Raise k.
Proof. now eexists. Qed.

Lemma rows_of_carries rs es :
  carries rs es ->
  exists rows, Store.rows_of es = Ok rows /\
               map Store.row_full_name rows = map full_name rs.
Proof.
  unfold carries. revert rs.
  induction es as [|e es IH]; intros [|r rs] H; try discriminate.
  - now exists [].
  - injection H as He Hes. destruct (IH _ Hes) as (rows & Hrows & Hn).
    cbn [Store.rows_of]. unfold Store.row_of. rewrite He, Hrows.
    eexists. split; [reflexivity|]. cbn. now rewrite Hn.
Qed.

Lemma dom_insert_rows (db : gmap string Store.row) rows :
  dom (foldl Store.insert_or_replace db rows)
  = list_to_set (map Store.row_full_name rows) ∪ dom db.
Proof.
  revert db. induction rows as [|r rows IH]; intros db; cbn.
  - set_solver.
  - rewrite IH. unfold Store.insert_or_replace. rewrite dom_insert_L.
    set_solver.
Qed.

Lemma size_difference_fresh (x : string) (T P : gset string) :
  x ∉ P -> size (({[x]} ∪ T) ∖ P) = S (size (T ∖ ({[x]} ∪ P))).
Proof.
  intros Hx.
  replace (({[x]} ∪ T) ∖ P) with ({[x]} ∪ T ∖ ({[x]} ∪ P)).
  - rewrite size_union by set_solver. rewrite size_singleton. lia.
  - apply set_eq. intros y. destruct (decide (y = x)); set_solver.
Qed.

Variable E : env.
Variable C : Config.

Lemma update_processed_carries rs es processed n0 :
  carries rs es ->
  update_processed es processed n0
  = (Ok (n0 + size (list_to_set (map full_name rs) ∖ processed)),
     list_to_set (map full_name rs) ∪ processed).
Proof.
  unfold carries. revert rs processed n0.
  induction es as [|e es IH]; intros [|r rs] processed n0 H;
    try discriminate.
  - cbn. f_equal; [|set_solver]. f_equal.
    replace (∅ ∖ processed) with (∅ : gset string) by set_solver.
    rewrite size_empty. lia.
  - injection H as He Hes. cbn [update_processed map list_to_set].
    rewrite He. destruct (decide (full_name r ∈ processed)) as [Hin|Hout].
    + rewrite (IH _ _ _ Hes). f_equal; [|set_solver]. do 3 f_equal.
      set_solver.
    + rewrite (IH _ _ _ Hes). f_equal; [|set_solver]. f_equal.
      rewrite size_difference_fresh by assumption. lia.
Qed.

Lemma fetch_repo_files_info r : info (fetch_repo_files E r) = Some r.
Proof.
  unfold fetch_repo_files.
  destruct (_fetch_json _) as [[[fs|]|]|x]; reflexivity.
Qed.

Lemma analyze_info e : info (analyze E e) = info e.
Proof. unfold analyze. now destruct (files e) as [[|f fs]|]. Qed.

Lemma update_status_info e : info (update_status e) = info e.
Proof. unfold update_status. now destruct (default false _). Qed.

(** The dicts that go to categorisation carry the repos of the batch. *)
Lemma analysed_carries batch :
  carries batch (map (analyze E) (map (fetch_repo_files E) batch)).
Proof.
  unfold carries. rewrite !map_map. apply map_ext. intros r.
  now rewrite analyze_info, fetch_repo_files_info.
Qed.

(** Categorisation gives back dicts that carry the repos, or the bare
    category dicts. *)
Lemma categorize_cases rs es :
  carries rs es ->
  carries rs (categorize E C es)
  \/ categorize E C es = Analyzer.heuristic_dicts es.
Proof.
  intros H. unfold categorize, Analyzer.ai_categorize_batch.
  destruct (use_ai C); cbn [negb].
  - destruct (forallb _ es); [|now right].
    destruct (remote E es) as [|results]; [now right|left].
    unfold carries. now rewrite apply_results_info.
  - left. now apply carries_map.
Qed.

End BatchFacts.

Section ProcessBatchFacts.

Import Fetcher Agent Batch Inv.

Variable E : env.
Variable C : Config.

Lemma categorize_nil : categorize E C [] = [].
Proof.
  unfold categorize, Analyzer.ai_categorize_batch.
  destruct (use_ai C); cbn; [|reflexivity].
  now destruct (remote E []) as [|[|r rs]].
Qed.

Lemma batch_insert_or_update_cons fails es (d : gmap string Store.row) :
  es <> [] ->
  Store.batch_insert_or_update fails es d
  = if fails then (Raise DatabaseError, d)
    else match Store.rows_of es with
         | Raise _ => (Raise DatabaseError, d)
         | Ok rows => (Ok tt, foldl Store.insert_or_replace d rows)
         end.
Proof. now destruct es. Qed.

Lemma save_to_database_cons es w :
  es <> [] ->
  save_to_database E es w
  = ((Store.batch_insert_or_update (db_fails E (db_calls w)) es (db w)).1,
     mkWorld (Store.batch_insert_or_update (db_fails E (db_calls w)) es (db w)).2
       (ckpt w)
       (trace w ++
        [match (Store.batch_insert_or_update
                  (db_fails E (db_calls w)) es (db w)).1 with
         | Ok _ => Upsert (names es)
         | Raise _ => UpsertFailed (names es)
         end])
       (flag_reads w) (S (db_calls w)) (saves w)).
Proof.
  intros Hne. destruct es as [|e es]; [contradiction|].
  unfold save_to_database.
  now destruct (Store.batch_insert_or_update _ _ _).
Qed.

Lemma carries_nonempty rs es : carries rs es -> rs <> [] -> es <> [].
Proof.
  intros Hc Hne ->. apply carries_length in Hc. now destruct rs.
Qed.

Lemma bare_names es :
  names (map update_status (Analyzer.heuristic_dicts es)) = [].
Proof.
  unfold Analyzer.heuristic_dicts.
  induction es as [|e es IH]; [done|].
  unfold names in *. cbn [map omap list_omap].
  rewrite (update_status_info (category_dict _)). cbn. exact IH.
Qed.

Lemma bare_rows es :
  es <> [] ->
  exists k, Store.rows_of (map update_status (Analyzer.heuristic_dicts es))
            = Raise k.
Proof.
  destruct es as [|e es]; [contradiction|]. intros _.
  cbn [map Analyzer.heuristic_dicts Store.rows_of].
  unfold Store.row_of.
  rewrite update_status_info. cbn. eauto.
Qed.

(** [_process_batch] ends in one of the three ways of [batch_outcome]. *)
Lemma process_batch_outcome batch processed w :
  batch_outcome E batch processed w
    (_process_batch E C batch processed w).1.1
    (_process_batch E C batch processed w).1.2
    (_process_batch E C batch processed w).2.
Proof.
  unfold _process_batch.
  rewrite <- (map_map full_name Enrich batch).
  pose proof (analysed_carries E batch) as Hc.
  set (es := map (analyze E) (map (fetch_repo_files E) batch)) in *.
  rewrite (carries_names _ _ Hc).
  destruct (decide (batch = [])) as [->|Hne].
  { subst es. cbn [map]. rewrite categorize_nil.
    unfold log. cbn. rewrite app_nil_r. now apply batch_empty. }
  destruct (categorize_cases E C _ _ Hc) as [Hk|Hbare].
  - (* the dicts still carry the repos *)
    apply (carries_map update_status) in Hk; [|apply update_status_info].
    set (vs := map update_status (categorize E C es)) in *.
    rewrite save_to_database_cons by (eapply carries_nonempty; eauto).
    rewrite batch_insert_or_update_cons by (eapply carries_nonempty; eauto).
    cbn [log db ckpt trace flag_reads db_calls saves].
    rewrite (carries_names _ _ Hk).
    destruct (db_fails E (db_calls w)) eqn:Hfails.
    + cbn. rewrite <- !app_assoc. apply (batch_refused E); auto.
    + destruct (rows_of_carries _ _ Hk) as (rows & Hrows & Hn).
      rewrite Hrows. cbn [fst snd].
      rewrite (update_processed_carries _ _ _ 0 Hk). cbn [fst snd].
      rewrite <- !app_assoc. apply batch_stored; auto.
      now rewrite dom_insert_rows, Hn.
  - (* the bare category dicts *)
    rewrite Hbare.
    assert (Hes : es <> []) by (eapply carries_nonempty; eauto).
    assert (Hvs : map update_status (Analyzer.heuristic_dicts es) <> []).
    { destruct es; [contradiction|discriminate]. }
    rewrite save_to_database_cons by exact Hvs.
    rewrite batch_insert_or_update_cons by exact Hvs.
    cbn [log db ckpt trace flag_reads db_calls saves].
    rewrite bare_names. destruct (bare_rows es Hes) as (k & ->).
    destruct (db_fails E (db_calls w)); cbn;
      rewrite <- !app_assoc; apply (batch_refused E); auto.
Qed.

End ProcessBatchFacts.

(** ** The loops of [run] *)

Section LoopRule.

Import Fetcher Agent Batch Inv.

Variable E : env.
Variable C : Config.
Variable queries_used : gmap string bool.
Variable start_pages : gmap string nat.

(** [I batch st] is to hold wherever the loops are running, [X e st] where
    exception [e] has left them. *)
Variable I : list repo_info -> state -> Prop.
Variable X : exn -> state -> Prop.

Hypothesis I_read : forall b st set w,
  I b st -> read_flag E (outside st) = (set, w) ->
  I b (mkState (processed st) (total_new st) w).

Hypothesis I_push : forall b st w r,
  I b st -> read_flag E (outside st) = (false, w) ->
  full_name r ∉ processed st ->
  I (b ++ [r])
    (mkState (processed st) (total_new st) (log [Batched (full_name r)] w)).

Hypothesis I_process : forall b st st',
  b <> [] -> I b st -> process E C b st = (Ok tt, st') -> I [] st'.

Hypothesis I_save : forall q st,
  I [] st -> I [] (checkpoint_save E queries_used start_pages q st).

Hypothesis X_process : forall b st st' e,
  b <> [] -> I b st -> process E C b st = (Raise e, st') -> X e st'.

Hypothesis X_stream : forall b st e, I b st -> X e st.

Lemma consume_rule q_idx items :
  forall b st l b' st',
    I b st ->
    consume E C queries_used start_pages q_idx items b st = (l, b', st') ->
    match l with Crashed e => X e st' | _ => I b' st' end.
Proof.
  induction items as [|r items IH]; intros b st l b' st' HI; cbn [consume].
  - intros [= <- <- <-]. exact HI.
  - destruct (read_flag E (outside st)) as [set w] eqn:Hread.
    cbn [processed total_new outside].
    destruct set.
    + intros [= <- <- <-]. eapply I_read; eauto.
    + destruct (decide (full_name r ∈ processed st)) as [Hin|Hout].
      * apply IH. eapply I_read; eauto.
      * pose proof (I_push _ _ _ r HI Hread Hout) as Hp.
        destruct (BATCH_SIZE C <=? length (b ++ [r])).
        -- destruct (process E C (b ++ [r]) _) as [[[]|e] st1] eqn:Hproc.
           ++ apply IH. apply I_save.
              eapply I_process; [|exact Hp|exact Hproc].
              now destruct b.
           ++ intros [= <- <- <-].
              eapply X_process; [|exact Hp|exact Hproc]. now destruct b.
        -- apply IH. exact Hp.
Qed.

Lemma process_rest_rule b st r st' :
  I b st -> process_rest E C b st = (r, st') ->
  match r with Ok _ => I [] st' | Raise e => X e st' end.
Proof.
  intros HI. destruct b as [|r0 b]; cbn [process_rest].
  - intros [= <- <-]. exact HI.
  - intros Hproc. destruct r as [[]|e].
    + eapply I_process; [|exact HI|exact Hproc]. discriminate.
    + eapply X_process; [|exact HI|exact Hproc]. discriminate.
Qed.

Lemma scrape_query_rule q_idx limit query st r st' :
  I [] st ->
  scrape_query E C queries_used start_pages q_idx limit query st = (r, st') ->
  match r with Ok _ => I [] st' | Raise e => X e st' end.
Proof.
  intros HI. unfold scrape_query.
  destruct (discover_repos_stream _ _ _ _) as [items ending].
  destruct (consume _ _ _ _ _ items [] st) as [[l b1] st1] eqn:Hcons.
  pose proof (consume_rule _ _ _ _ _ _ _ HI Hcons) as H1.
  destruct l as [| |e].
  - destruct ending as [|e|].
    + now apply process_rest_rule.
    + intros [= <- <-]. eapply X_stream; eauto.
    + now apply process_rest_rule.
  - now apply process_rest_rule.
  - intros [= <- <-]. exact H1.
Qed.

Lemma queries_loop_rule limit queries :
  forall q_idx st r st',
    I [] st ->
    queries_loop E C queries_used start_pages limit q_idx queries st
    = (r, st') ->
    match r with Ok _ => I [] st' | Raise e => X e st' end.
Proof.
  induction queries as [|query queries IH]; intros q_idx st r st' HI;
    cbn [queries_loop].
  - intros [= <- <-]. exact HI.
  - destruct (read_flag E (outside st)) as [set w] eqn:Hread.
    cbn [processed total_new outside].
    pose proof (I_read _ _ _ _ HI Hread) as HI'.
    destruct set.
    + intros [= <- <-]. exact HI'.
    + destruct (scrape_query _ _ _ _ _ _ _ _) as [[[]|e] st1] eqn:Hq.
      * apply IH. exact (scrape_query_rule _ _ _ _ _ _ HI' Hq).
      * intros [= <- <-]. exact (scrape_query_rule _ _ _ _ _ _ HI' Hq).
Qed.

End LoopRule.

Section RunFacts.

Import Fetcher Agent Batch Inv.

Variable E : env.
Variable C : Config.

Lemma process_outcome b st r st' :
  process E C b st = (r, st') ->
  exists r0,
    batch_outcome E b (processed st) (outside st) r0
                  (processed st') (outside st') /\
    match r0 with
    | Ok n => r = Ok tt /\ total_new st' = total_new st + n
    | Raise e => r = Raise e /\ total_new st' = total_new st
    end.
Proof.
  unfold process. pose proof (process_batch_outcome E C b (processed st)
                                (outside st)) as H.
  destruct (_process_batch E C b (processed st) (outside st))
    as [[[n|e] P'] w']; cbn in H; intros [= <- <-];
    eexists; (split; [exact H|]); cbn; auto.
Qed.

Lemma read_flag_trace w set w' :
  read_flag E w = (set, w') ->
  trace w' = trace w ++ (if set then [ShutdownSeen] else []) /\
  db w' = db w /\ ckpt w' = ckpt w /\ flag_reads w' = S (flag_reads w) /\
  set = match signal_at E with
        | Some t => t <=? flag_reads w
        | None => false
        end.
Proof. unfold read_flag. intros [= <- <-]. cbn. auto. Qed.

(** [run] is the loop over the queries from the initial state, followed by
    the last save. *)
Lemma run_unfold db0 ckpt0 max_repos resume custom_query :
  exists queries_used start_pages limit query_idx queries r st,
    queries_loop E C queries_used start_pages limit query_idx
      (drop query_idx queries)
      (mkState (initial_processed resume ckpt0) 0
               (mkWorld db0 ckpt0 [] 0 0 0)) = (r, st) /\
    run E C db0 ckpt0 max_repos resume custom_query
    = {| run_error := match r with Ok _ => None | Raise e => Some e end;
         final := checkpoint_save E queries_used start_pages
                                  (length queries) st |}.
Proof.
  unfold run, initial_processed.
  destruct (if resume then Checkpoint.load ckpt0 else (∅, ∅, 0, ∅))
    as [[[P0 sp] qi] qu] eqn:Hload.
  assert (HP0 : (if resume then (Checkpoint.load ckpt0).1.1.1 else ∅) = P0).
  { destruct resume; [now rewrite Hload|now injection Hload]. }
  rewrite HP0.
  match goal with
  | |- context [queries_loop E C qu sp ?lim qi (drop qi ?qs) ?s] =>
      destruct (queries_loop E C qu sp lim qi (drop qi qs) s)
        as [r st] eqn:Hloop;
      exists qu, sp, lim, qi, qs, r, st
  end.
  split; [exact Hloop|reflexivity].
Qed.

(** *** The counter *)

Section Counting.

Variable P0 : gset string.

Lemma size_grow (P ns : gset string) :
  P0 ⊆ P ->
  size ((ns ∪ P) ∖ P0) = size (P ∖ P0) + size (ns ∖ P).
Proof.
  intros Hsub.
  replace ((ns ∪ P) ∖ P0) with ((P ∖ P0) ∪ (ns ∖ P)).
  - apply size_union. set_solver.
  - apply set_eq. intros x. destruct (decide (x ∈ P)); set_solver.
Qed.

Lemma counting_process b st r st' :
  counting P0 st -> process E C b st = (r, st') -> counting P0 st'.
Proof.
  intros [Hsub Hcount] Hproc.
  apply process_outcome in Hproc as (r0 & Hout & Hr).
  unfold counting. destruct st' as [P' tn' w']. cbn in *.
  inversion Hout; subst; destruct Hr as [_ ->].
  - split; [exact Hsub|lia].
  - split; [exact Hsub|lia].
  - split; [set_solver|]. rewrite size_grow by exact Hsub. lia.
Qed.

End Counting.

End RunFacts.

Section RunCounting.

Import Fetcher Agent Batch Inv.

Variable E : env.
Variable C : Config.

Lemma counting_read P0 st set w :
  counting P0 st -> read_flag E (outside st) = (set, w) ->
  counting P0 (mkState (processed st) (total_new st) w).
Proof. now intros H _. Qed.

Lemma run_counting db0 ckpt0 max_repos resume custom_query :
  counting (initial_processed resume ckpt0)
           (final (run E C db0 ckpt0 max_repos resume custom_query)).
Proof.
  destruct (run_unfold E C db0 ckpt0 max_repos resume custom_query)
    as (qu & sp & lim & qi & qs & r & st & Hloop & ->).
  cbn [final].
  set (P0 := initial_processed resume ckpt0) in *.
  assert (H : counting P0 st).
  { pose proof (queries_loop_rule E C qu sp
                  (fun _ st => counting P0 st) (fun _ st => counting P0 st))
      as Hrule.
    specialize (Hrule ltac:(intros; eapply counting_read; eauto)).
    specialize (Hrule ltac:(now intros)).
    specialize (Hrule
      ltac:(intros b s s' _ Hs Hp; exact (counting_process E C P0 _ _ _ _ Hs Hp))).
    specialize (Hrule ltac:(now intros)).
    specialize (Hrule
      ltac:(intros b s s' e _ Hs Hp; exact (counting_process E C P0 _ _ _ _ Hs Hp))).
    specialize (Hrule ltac:(now intros)).
    assert (H0 : counting P0 (mkState P0 0 (mkWorld db0 ckpt0 [] 0 0 0))).
    { split; [done|]. cbn.
      replace (P0 ∖ P0) with (∅ : gset string) by set_solver.
      now rewrite size_empty. }
    specialize (Hrule _ _ _ _ _ _ H0 Hloop). now destruct r. }
  exact H.
Qed.

Lemma batch_outcome_grows batch processed w r P' w' :
  batch_outcome E batch processed w r P' w' ->
  processed ⊆ P' /\
  forall n, r = Ok n ->
    P' = list_to_set (map full_name batch) ∪ processed /\
    dom (db w') = list_to_set (map full_name batch) ∪ dom (db w) /\
    n = size (list_to_set (map full_name batch) ∖ processed).
Proof.
  intros H. destruct H as [->|ns Hb Hns|db' Hb Hf Hdom].
  - split; [done|]. intros n [= <-]. cbn.
    repeat split; try set_solver.
    replace (∅ ∖ processed) with (∅ : gset string) by set_solver.
    now rewrite size_empty.
  - split; [done|]. intros n [=].
  - split; [set_solver|]. intros n [= <-]. cbn. auto.
Qed.

End RunCounting.

(** C10.  [_process_batch] never takes a name out of [processed]; when it
    returns, it has added the names of the batch, these names are in the
    table, and the number returned is the number of distinct names of the
    batch that were not in the set.  Over a whole [run] the set only grows
    from the one it started with, and [total_new] is the number of names
    added. *)
Theorem processed_only_grows (E : Agent.env) (C : Agent.Config) :
  (forall batch processed w,
     processed ⊆ (Agent._process_batch E C batch processed w).1.2 /\
     forall n,
       (Agent._process_batch E C batch processed w).1.1 = Ok n ->
       (Agent._process_batch E C batch processed w).1.2
       = list_to_set (map Fetcher.full_name batch) ∪ processed /\
       dom (Agent.db (Agent._process_batch E C batch processed w).2)
       = list_to_set (map Fetcher.full_name batch) ∪ dom (Agent.db w) /\
       n = size (list_to_set (map Fetcher.full_name batch) ∖ processed)) /\
  (forall db0 ckpt0 max_repos resume custom_query,
     Inv.initial_processed resume ckpt0
     ⊆ Agent.processed
         (Agent.final (Agent.run E C db0 ckpt0 max_repos resume custom_query))
     /\
     Agent.total_new
       (Agent.final (Agent.run E C db0 ckpt0 max_repos resume custom_query))
     = size (Agent.processed
               (Agent.final
                  (Agent.run E C db0 ckpt0 max_repos resume custom_query))
             ∖ Inv.initial_processed resume ckpt0)).
Proof.
  split.
  - intros batch processed w.
    apply (batch_outcome_grows E), process_batch_outcome.
  - intros. apply run_counting.
Qed.

Lemma processed_only_grows_witness :
  (Agent._process_batch (Scenario.env false None) (Scenario.config 30 false)
     [Fetcher.repo_info_of Scenario.A; Fetcher.repo_info_of Scenario.B;
      Fetcher.repo_info_of Scenario.B]
     {["acme/A"]} (Agent.mkWorld ∅ Checkpoint.Missing [] 0 0 0)).1.2
  = list_to_set ["acme/A"; "acme/B"; "acme/B"] ∪ {["acme/A"]} /\
  1 = size (list_to_set ["acme/A"; "acme/B"; "acme/B"] ∖ ({["acme/A"]} : gset string)).
Proof.
  destruct (processed_only_grows (Scenario.env false None)
              (Scenario.config 30 false)) as [H _].
  destruct (H [Fetcher.repo_info_of Scenario.A; Fetcher.repo_info_of Scenario.B;
               Fetcher.repo_info_of Scenario.B]
              {["acme/A"]} (Agent.mkWorld ∅ Checkpoint.Missing [] 0 0 0))
    as [_ Hn].
  destruct (Hn 1 ltac:(vm_compute; reflexivity)) as (HP & _ & Hsize).
  split; [exact HP|exact Hsize].
Defined.

Section RunSkipping.

Import Fetcher Agent Batch Inv.

Variable E : env.
Variable C : Config.
Variable P0 : gset string.

(** The events of a call of [_process_batch] are about the batch. *)
Lemma batch_events_touched ns last ev n :
  ev ∈ batch_events ns last -> n ∈ touched ev ->
  n ∈ ns \/ exists ev', ev' ∈ last /\ n ∈ touched ev'.
Proof.
  unfold batch_events. rewrite elem_of_app, elem_of_cons, list_elem_of_fmap.
  intros [(m & -> & Hm)|[->|Hlast]] Hn; cbn in Hn.
  - left. now apply list_elem_of_singleton in Hn as ->.
  - now left.
  - right. eauto.
Qed.

Lemma skipping_read b st set w :
  skipping P0 b st -> read_flag E (outside st) = (set, w) ->
  skipping P0 b (mkState (processed st) (total_new st) w).
Proof.
  intros (Hsub & Htr & Hb) Hread.
  apply read_flag_trace in Hread as (Ht & _).
  repeat split; cbn; auto.
  intros ev n. rewrite Ht, elem_of_app. intros [Hev|Hev]; [eauto|].
  destruct set; [|now apply elem_of_nil in Hev].
  apply list_elem_of_singleton in Hev as ->. cbn [touched].
  intros Hn. now apply elem_of_nil in Hn.
Qed.

Lemma skipping_push b st w r :
  skipping P0 b st -> read_flag E (outside st) = (false, w) ->
  full_name r ∉ processed st ->
  skipping P0 (b ++ [r])
    (mkState (processed st) (total_new st) (log [Batched (full_name r)] w)).
Proof.
  intros (Hsub & Htr & Hb) Hread Hout.
  apply read_flag_trace in Hread as (Ht & _).
  repeat split; cbn; auto.
  - intros ev n. rewrite Ht, app_nil_r, elem_of_app.
    intros [Hev|Hev]; [eauto|].
    apply list_elem_of_singleton in Hev as ->. cbn [touched].
    intros Hn. apply list_elem_of_singleton in Hn as ->. set_solver.
  - intros r'. rewrite elem_of_app. intros [Hr|Hr]; [auto|].
    apply list_elem_of_singleton in Hr as ->. set_solver.
Qed.

Lemma skipping_process b st r st' :
  skipping P0 b st -> process E C b st = (r, st') -> skipping P0 [] st'.
Proof.
  intros (Hsub & Htr & Hb) Hproc.
  apply process_outcome in Hproc as (r0 & Hout & _).
  destruct st' as [P' tn' w']. cbn in Hout.
  assert (Hnames : forall n, n ∈ map full_name b -> n ∉ P0).
  { intros n. rewrite list_elem_of_fmap. intros (r' & -> & Hr'). auto. }
  unfold skipping. cbn [processed outside].
  destruct Hout as [->|ns Hne Hns|db' Hne Hf Hdom]; cbn [trace].
  - repeat split; [done| |intros r' Hr'; now apply elem_of_nil in Hr'].
    intros ev n. rewrite elem_of_app. intros [Hev|Hev] Hn; [eauto|].
    destruct (batch_events_touched _ _ _ _ Hev Hn) as [H|(ev' & H & _)];
      now apply elem_of_nil in H.
  - repeat split; [done| |intros r' Hr'; now apply elem_of_nil in Hr'].
    intros ev n. rewrite elem_of_app. intros [Hev|Hev] Hn; [eauto|].
    destruct (batch_events_touched _ _ _ _ Hev Hn) as [H|(ev' & H & Hn')];
      [auto|].
    apply list_elem_of_singleton in H as ->. cbn in Hn'.
    destruct Hns as [->| ->]; [auto|now apply elem_of_nil in Hn'].
  - repeat split; [set_solver| |intros r' Hr'; now apply elem_of_nil in Hr'].
    intros ev n. rewrite elem_of_app. intros [Hev|Hev] Hn; [eauto|].
    destruct (batch_events_touched _ _ _ _ Hev Hn) as [H|(ev' & H & Hn')];
      [auto|].
    apply list_elem_of_singleton in H as ->. cbn in Hn'. auto.
Qed.

Lemma skipping_save qu sp q st :
  skipping P0 [] st -> skipping P0 [] (checkpoint_save E qu sp q st).
Proof.
  intros (Hsub & Htr & Hb). unfold checkpoint_save.
  repeat split; cbn; auto.
  intros ev n. rewrite elem_of_app. intros [Hev|Hev]; [eauto|].
  apply list_elem_of_singleton in Hev as ->. cbn [touched].
  intros Hn. now apply elem_of_nil in Hn.
Qed.

Lemma skipping_drop b st : skipping P0 b st -> skipping P0 [] st.
Proof.
  intros (Hsub & Htr & Hb). repeat split; auto.
  intros r Hr. now apply elem_of_nil in Hr.
Qed.

Lemma queries_loop_skipping qu sp lim qi qs st r st' :
  skipping P0 [] st ->
  queries_loop E C qu sp lim qi qs st = (r, st') ->
  skipping P0 [] st'.
Proof.
  intros H0 Hloop.
  pose proof (queries_loop_rule E C qu sp
                (skipping P0) (fun _ st => skipping P0 [] st)
                skipping_read skipping_push) as Hrule.
  specialize (Hrule
    ltac:(intros b s s' _ Hs Hp; exact (skipping_process _ _ _ _ Hs Hp))).
  specialize (Hrule (skipping_save qu sp)).
  specialize (Hrule
    ltac:(intros b s s' e _ Hs Hp; exact (skipping_process _ _ _ _ Hs Hp))).
  specialize (Hrule ltac:(intros b s e; apply skipping_drop)).
  specialize (Hrule _ _ _ _ _ _ H0 Hloop). now destruct r.
Qed.

End RunSkipping.

(** C1.  A run that resumes from a checkpoint whose processed list has
    [name] never puts [name] in a batch, never enriches, categorises or
    stores it, keeps it in [processed], and the list that the last save
    writes has it exactly once. *)
Theorem resume_skips_processed
    (E : Agent.env) (C : Agent.Config) (db0 : gmap string Store.row)
    (ckpt0 : Checkpoint.file) (max_repos : option nat)
    (custom_query : option string) (name : string) :
  name ∈ (Checkpoint.load ckpt0).1.1.1 ->
  (forall ev,
     ev ∈ Agent.trace (Agent.outside (Agent.final
            (Agent.run E C db0 ckpt0 max_repos true custom_query))) ->
     name ∉ Inv.touched ev) /\
  name ∈ Agent.processed
           (Agent.final (Agent.run E C db0 ckpt0 max_repos true custom_query))
  /\
  exists pre l q io,
    Agent.trace (Agent.outside (Agent.final
       (Agent.run E C db0 ckpt0 max_repos true custom_query)))
    = pre ++ [Agent.Save l q io] /\
    count_occ string_dec l name = 1.
Proof.
  intros Hname.
  destruct (run_unfold E C db0 ckpt0 max_repos true custom_query)
    as (qu & sp & lim & qi & qs & r & st & Hloop & ->).
  cbn [Agent.final Agent.run_error].
  set (P0 := Inv.initial_processed true ckpt0) in *.
  assert (H0 : Inv.skipping P0 []
                 (Agent.mkState P0 0 (Agent.mkWorld db0 ckpt0 [] 0 0 0))).
  { repeat split; cbn; [done| |].
    - intros ev n Hev. now apply elem_of_nil in Hev.
    - intros r' Hr'. now apply elem_of_nil in Hr'. }
  pose proof (queries_loop_skipping E C P0 _ _ _ _ _ _ _ _ H0 Hloop)
    as (Hsub & Htr & _).
  assert (Hin : name ∈ Agent.processed st) by (apply Hsub; exact Hname).
  unfold Agent.checkpoint_save. cbn.
  split; [|split; [exact Hin|]].
  - intros ev. rewrite elem_of_app. intros [Hev|Hev] Hn.
    + exact (Htr ev name Hev Hn Hname).
    + apply list_elem_of_singleton in Hev as ->. now apply elem_of_nil in Hn.
  - do 4 eexists. split; [reflexivity|].
    apply NoDup_count_occ'.
    + apply NoDup_ListNoDup, NoDup_elements.
    + apply list_elem_of_In, elem_of_elements. exact Hin.
Qed.

Lemma resume_skips_processed_witness :
  (forall ev,
     ev ∈ Agent.trace (Agent.outside (Agent.final
            (Agent.run (Scenario.env false None) (Scenario.config 30 false)
               ∅ Scenario.checkpoint_with_A None true None))) ->
     "acme/A" ∉ Inv.touched ev) /\
  "acme/A" ∈ Agent.processed
           (Agent.final
              (Agent.run (Scenario.env false None) (Scenario.config 30 false)
                 ∅ Scenario.checkpoint_with_A None true None))
  /\
  exists pre l q io,
    Agent.trace (Agent.outside (Agent.final
       (Agent.run (Scenario.env false None) (Scenario.config 30 false)
          ∅ Scenario.checkpoint_with_A None true None)))
    = pre ++ [Agent.Save l q io] /\
    count_occ string_dec l "acme/A" = 1.
Proof.
  apply resume_skips_processed. cbn. set_solver.
Defined.


Section RunAborting.

Import Fetcher Agent Batch Inv.

Variable E : env.
Variable C : Config.








End RunAborting.




Section RunDraining.

Import Fetcher Agent Batch Inv.

Variable E : env.
Variable C : Config.

Lemma quiet_app tr evs :
  quiet tr -> (forall n, Batched n ∉ evs) -> quiet (tr ++ evs).
Proof.
  intros Hq Hevs pre post Heq n Hn.
  apply app_eq_app in Heq as (l & [(Htr & Hpost)|(Hpre & Hevs')]).
  - destruct l as [|ev l]; cbn in Hpost.
    + apply (Hevs n). rewrite <- Hpost. now right.
    + injection Hpost as <- ->.
      apply elem_of_app in Hn as [Hn|Hn]; [|exact (Hevs _ Hn)].
      exact (Hq _ _ Htr n Hn).
  - apply (Hevs n). rewrite Hevs'. set_solver.
Qed.

Lemma quiet_fresh tr n :
  ShutdownSeen ∉ tr -> quiet (tr ++ [Batched n]).
Proof.
  intros Hno pre post Heq m Hm.
  apply app_eq_app in Heq as (l & [(Htr & Hpost)|(Hpre & Hevs')]).
  - destruct l as [|ev l]; cbn in Hpost; [discriminate|].
    injection Hpost as <- _. apply Hno. rewrite Htr. set_solver.
  - destruct l as [|ev l]; cbn in Hevs'; [discriminate|].
    injection Hevs' as _ Hnil. now destruct l.
Qed.

Lemma settled_mono st st' n :
  (forall ev, ev ∈ trace (outside st) -> ev ∈ trace (outside st')) ->
  processed st ⊆ processed st' ->
  dom (db (outside st)) ⊆ dom (db (outside st')) ->
  settled st n -> settled st' n.
Proof.
  intros Htr HP Hdb (He & (ns & Hn & Hc & Hu) & Hp & Hd).
  repeat split; eauto. exists ns. auto.
Qed.

Lemma draining_read b st set w :
  draining E b st -> read_flag E (outside st) = (set, w) ->
  draining E b (mkState (processed st) (total_new st) w).
Proof.
  intros (Hb & Hflag & Hq) Hread.
  apply read_flag_trace in Hread as (Ht & Hdb & _ & Hreads & Hset).
  assert (Hin : forall ev, ev ∈ trace (outside st) -> ev ∈ trace w).
  { intros ev Hev. rewrite Ht. set_solver. }
  repeat split; cbn [processed outside total_new].
  - intros n. rewrite Ht, elem_of_app. intros [Hn|Hn].
    + destruct (Hb n Hn) as [H|H]; [now left|right].
      eapply settled_mono; [..|exact H]; cbn; auto. now rewrite Hdb.
    + destruct set; [|now apply elem_of_nil in Hn].
      now apply list_elem_of_singleton in Hn.
  - rewrite Ht, Hreads, elem_of_app. intros [H|H].
    + destruct (Hflag H) as (t & Ht' & Hlt). exists t. split; [done|lia].
    + destruct set; [|now apply elem_of_nil in H].
      destruct (signal_at E) as [t|]; [|discriminate].
      exists t. split; [done|]. symmetry in Hset.
      apply Nat.leb_le in Hset. lia.
  - rewrite Ht. apply quiet_app; [exact Hq|].
    intros n Hn. destruct set; [|now apply elem_of_nil in Hn].
    now apply list_elem_of_singleton in Hn.
Qed.

Lemma draining_push b st w r :
  draining E b st -> read_flag E (outside st) = (false, w) ->
  full_name r ∉ processed st ->
  draining E (b ++ [r])
    (mkState (processed st) (total_new st) (log [Batched (full_name r)] w)).
Proof.
  intros (Hb & Hflag & Hq) Hread _.
  apply read_flag_trace in Hread as (Ht & Hdb & _ & Hreads & Hset).
  rewrite app_nil_r in Ht.
  assert (Hno : ShutdownSeen ∉ trace (outside st)).
  { intros H. destruct (Hflag H) as (t & Ht' & Hlt).
    rewrite Ht' in Hset. symmetry in Hset.
    apply Nat.leb_gt in Hset. lia. }
  repeat split; cbn [processed outside total_new log trace db flag_reads].
  - intros n. rewrite Ht, elem_of_app, map_app, elem_of_app.
    intros [Hn|Hn].
    + destruct (Hb n Hn) as [H|H]; [now left; left|right].
      eapply settled_mono; [..|exact H]; cbn; [|done|now rewrite Hdb].
      intros ev Hev. rewrite Ht. set_solver.
    + apply list_elem_of_singleton in Hn as [= ->]. left. right. set_solver.
  - rewrite Ht, elem_of_app. intros [H|H]; [contradiction|].
    now apply list_elem_of_singleton in H.
  - rewrite Ht. now apply quiet_fresh.
Qed.

Lemma no_batched_in_batch_events ns evs n :
  (forall m, Batched m ∉ evs) -> Batched n ∉ batch_events ns evs.
Proof.
  intros Hevs. unfold batch_events.
  rewrite elem_of_app, elem_of_cons, list_elem_of_fmap.
  intros [(m & [=] & _)|[[=]|H]]. exact (Hevs _ H).
Qed.

Lemma no_shutdown_in_batch_events ns evs :
  ShutdownSeen ∉ evs -> ShutdownSeen ∉ batch_events ns evs.
Proof.
  intros Hevs. unfold batch_events.
  rewrite elem_of_app, elem_of_cons, list_elem_of_fmap.
  intros [(m & [=] & _)|[[=]|H]]. exact (Hevs H).
Qed.

Lemma draining_process b st st' :
  draining E b st -> process E C b st = (Ok tt, st') -> draining E [] st'.
Proof.
  intros (Hb & Hflag & Hq) Hproc.
  apply process_outcome in Hproc as (r0 & Hout & Hr).
  destruct st' as [P' tn' w']. cbn in Hout.
  destruct Hout as [->|ns Hne Hns|db' Hne Hf Hdom]; [|now destruct Hr|].
  - (* nothing to process *)
    repeat split; cbn [processed outside trace flag_reads].
    + intros n. rewrite elem_of_app. intros [Hn|Hn].
      * destruct (Hb n Hn) as [H|H]; [now apply elem_of_nil in H|right].
        eapply settled_mono; [..|exact H]; cbn; auto.
        intros ev Hev. set_solver.
      * exfalso. revert Hn. apply no_batched_in_batch_events.
        intros m Hm. now apply elem_of_nil in Hm.
    + rewrite elem_of_app. intros [H|H]; [auto|].
      exfalso. revert H. apply no_shutdown_in_batch_events.
      intros H. now apply elem_of_nil in H.
    + apply quiet_app; [exact Hq|]. intros n.
      apply no_batched_in_batch_events. intros m Hm.
      now apply elem_of_nil in Hm.
  - (* the batch is stored *)
    set (ns := map full_name b) in *.
    repeat split; cbn [processed outside trace flag_reads].
    + intros n. rewrite elem_of_app. intros [Hn|Hn].
      * right. destruct (Hb n Hn) as [H|H].
        -- unfold settled. cbn [processed outside trace db].
           repeat split.
           ++ apply elem_of_app. right. unfold batch_events.
              apply elem_of_app. left. apply list_elem_of_fmap. eauto.
           ++ exists ns. repeat split; [exact H|..];
                apply elem_of_app; right; unfold batch_events;
                apply elem_of_app; right; set_solver.
           ++ set_solver.
           ++ rewrite Hdom. set_solver.
        -- eapply settled_mono; [..|exact H]; cbn; [|set_solver|].
           ++ intros ev Hev. set_solver.
           ++ rewrite Hdom. set_solver.
      * exfalso. revert Hn. apply no_batched_in_batch_events.
        intros m Hm. now apply list_elem_of_singleton in Hm.
    + rewrite elem_of_app. intros [H|H]; [auto|].
      exfalso. revert H. apply no_shutdown_in_batch_events.
      intros H. now apply list_elem_of_singleton in H.
    + apply quiet_app; [exact Hq|]. intros n.
      apply no_batched_in_batch_events. intros m Hm.
      now apply list_elem_of_singleton in Hm.
Qed.

Lemma draining_save qu sp q st :
  draining E [] st -> draining E [] (checkpoint_save E qu sp q st).
Proof.
  intros (Hb & Hflag & Hq). unfold checkpoint_save.
  repeat split; cbn [processed outside trace flag_reads].
  - intros n. rewrite elem_of_app. intros [Hn|Hn].
    + destruct (Hb n Hn) as [H|H]; [now left|right].
      eapply settled_mono; [..|exact H]; cbn; auto.
      intros ev Hev. set_solver.
    + now apply list_elem_of_singleton in Hn.
  - rewrite elem_of_app. intros [H|H]; [auto|].
    now apply list_elem_of_singleton in H.
  - apply quiet_app; [exact Hq|]. intros n Hn.
    now apply list_elem_of_singleton in Hn.
Qed.

Lemma queries_loop_draining qu sp lim qi qs st st' :
  draining E [] st ->
  queries_loop E C qu sp lim qi qs st = (Ok tt, st') ->
  draining E [] st'.
Proof.
  intros H0 Hloop.
  pose proof (queries_loop_rule E C qu sp (draining E) (fun _ _ => True)
                draining_read draining_push) as Hrule.
  specialize (Hrule
    ltac:(intros b s s' _ Hs Hp; exact (draining_process _ _ _ Hs Hp))).
  specialize (Hrule (draining_save qu sp)).
  specialize (Hrule ltac:(done) ltac:(done)).
  exact (Hrule _ _ _ _ _ _ H0 Hloop).
Qed.

End RunDraining.

(** The draining of [theme-scraper.py].  In a run that no exception has
    left, every repo that was put in a batch, also in the batch that was
    open when the flag was seen, has been enriched, categorised and stored,
    is in [processed] and in the list of the last save, which is the
    content of the checkpoint file when the write goes through; and nothing
    is put in a batch once the flag has been seen. *)
Lemma shutdown_drains_batch
    (E : Agent.env) (C : Agent.Config) (db0 : gmap string Store.row)
    (ckpt0 : Checkpoint.file) (max_repos : option nat) (resume : bool)
    (custom_query : option string) :
  Agent.run_error (Agent.run E C db0 ckpt0 max_repos resume custom_query)
  = None ->
  (forall n,
     Agent.Batched n
     ∈ Agent.trace (Agent.outside (Agent.final
         (Agent.run E C db0 ckpt0 max_repos resume custom_query))) ->
     Inv.settled
       (Agent.final (Agent.run E C db0 ckpt0 max_repos resume custom_query))
       n /\
     exists pre l q io,
       Agent.trace (Agent.outside (Agent.final
         (Agent.run E C db0 ckpt0 max_repos resume custom_query)))
       = pre ++ [Agent.Save l q io] /\
       n ∈ l /\
       (io = Checkpoint.Written ->
        exists d,
          Agent.ckpt (Agent.outside (Agent.final
            (Agent.run E C db0 ckpt0 max_repos resume custom_query)))
          = Checkpoint.Stored d /\
          Checkpoint.doc_processed d = Some l)) /\
  Inv.quiet
    (Agent.trace (Agent.outside (Agent.final
       (Agent.run E C db0 ckpt0 max_repos resume custom_query)))).
Proof.
  destruct (run_unfold E C db0 ckpt0 max_repos resume custom_query)
    as (qu & sp & lim & qi & qs & r & st & Hloop & ->).
  cbn [Agent.final Agent.run_error].
  destruct r as [[]|e]; [intros _|discriminate].
  assert (H0 : Inv.draining E []
                 (Agent.mkState (Inv.initial_processed resume ckpt0) 0
                    (Agent.mkWorld db0 ckpt0 [] 0 0 0))).
  { repeat split; cbn.
    - intros n H. now apply elem_of_nil in H.
    - intros H. now apply elem_of_nil in H.
    - intros pre post H. now destruct pre. }
  pose proof (queries_loop_draining E C _ _ _ _ _ _ _ H0 Hloop) as Hst.
  pose proof (draining_save E qu sp (length qs) st Hst) as (Hb & _ & Hq).
  split; [|exact Hq].
  intros n Hn. destruct (Hb n Hn) as [H|H]; [now apply elem_of_nil in H|].
  split; [exact H|].
  unfold Agent.checkpoint_save. cbn.
  do 4 eexists. split; [reflexivity|]. split.
  - apply elem_of_elements. now destruct H as (_ & _ & Hp & _).
  - intros ->. unfold Checkpoint.save. eauto.
Qed.

Lemma shutdown_drains_batch_witness :
  Inv.settled
    (Agent.final
       (Agent.run (Scenario.env false (Some 2)) (Scenario.config 30 false)
          ∅ Checkpoint.Missing None true None))
    "acme/A" /\
  exists pre l q io,
    Agent.trace (Agent.outside (Agent.final
      (Agent.run (Scenario.env false (Some 2)) (Scenario.config 30 false)
         ∅ Checkpoint.Missing None true None)))
    = pre ++ [Agent.Save l q io] /\
    "acme/A" ∈ l /\
    (io = Checkpoint.Written ->
     exists d,
       Agent.ckpt (Agent.outside (Agent.final
         (Agent.run (Scenario.env false (Some 2)) (Scenario.config 30 false)
            ∅ Checkpoint.Missing None true None)))
       = Checkpoint.Stored d /\
       Checkpoint.doc_processed d = Some l).
Proof.
  assert (Herr : Agent.run_error (Agent.run (Scenario.env false (Some 2))
               (Scenario.config 30 false) ∅ Checkpoint.Missing None true None) = None)
    by (vm_compute; reflexivity).
  pose proof (shutdown_drains_batch (Scenario.env false (Some 2))
              (Scenario.config 30 false) ∅ Checkpoint.Missing None true None
              Herr) as [H _].
  refine (H "acme/A" _).
  assert (Htr : Agent.trace (Agent.outside (Agent.final
            (Agent.run (Scenario.env false (Some 2))
               (Scenario.config 30 false) ∅ Checkpoint.Missing None true
               None)))
          = [Agent.Batched "acme/A"; Agent.ShutdownSeen;
             Agent.Enrich "acme/A"; Agent.Classify ["acme/A"];
             Agent.Upsert ["acme/A"];
             Agent.Save ["acme/A"] 1 Checkpoint.Written])
    by (vm_compute; reflexivity).
  rewrite Htr.
  apply list_elem_of_here.
Defined.

(** ** Errors of enrichment and of categorisation *)

Lemma fetch_json_gives_up {A : Type} (get : nat -> Fetcher.response A) :
  (forall k, k < 3 -> get k = Fetcher.ClientError) ->
  Fetcher._fetch_json get = Raise RetryError.
Proof.
  intros H. unfold Fetcher._fetch_json. cbn [Fetcher.attempts].
  now rewrite !H by lia.
Qed.

(** Categorisation gives back as many dicts as it was given, whatever the
    remote classifier does; when the remote classifier answers, each dict
    is still the dict of its repo, in the order of the batch. *)
Lemma ai_categorize_batch_length
    (use_ai : bool) (remote : list entry -> Analyzer.remote_reply)
    (entries : list entry) :
  length (Analyzer.ai_categorize_batch use_ai remote entries)
  = length entries /\
  (forall results,
     use_ai = true ->
     Forall (fun e => is_Some (info e)) entries ->
     remote entries = Analyzer.RemoteResults results ->
     map info (Analyzer.ai_categorize_batch use_ai remote entries)
     = map info entries).
Proof.
  split.
  - assert (Hh : length (Analyzer.heuristic_dicts entries) = length entries)
      by apply length_map.
    assert (Ha : forall results,
               length (Analyzer.apply_results entries results)
               = length entries).
    { intros results.
      rewrite <- (length_map info), apply_results_info. apply length_map. }
    unfold Analyzer.ai_categorize_batch.
    destruct (negb use_ai); [exact Hh|].
    destruct (forallb _ entries); [|exact Hh].
    destruct (remote entries); [exact Hh|apply Ha].
  - intros results -> Hinfo Hr.
    unfold Analyzer.ai_categorize_batch. cbn [negb]. rewrite Hr.
    replace (forallb _ entries) with true; [apply apply_results_info|].
    symmetry. apply forallb_forall. intros e He.
    apply bool_decide_eq_true. rewrite Forall_forall in Hinfo.
    apply Hinfo. now apply list_elem_of_In.
Qed.

(** C8 (the code departs from it).  When the remote classifier fails,
    [ai_categorize_batch] returns as many dicts as it was given, but they
    are the bare category dicts: none has a ['full_name'], and the upsert
    of the batch raises.  When the reply holds no result, the dicts come
    back as they were, not categorised at all. *)
Theorem fallback_dicts_block_upsert
    (remote : list entry -> Analyzer.remote_reply) (entries : list entry)
    (db : gmap string Store.row) :
  entries <> [] ->
  Forall (fun e => is_Some (info e)) entries ->
  (remote entries = Analyzer.RemoteFails ->
   length (Analyzer.ai_categorize_batch true remote entries)
   = length entries /\
   names (Analyzer.ai_categorize_batch true remote entries) = [] /\
   Store.batch_insert_or_update false
     (map Agent.update_status
          (Analyzer.ai_categorize_batch true remote entries)) db
   = (Raise DatabaseError, db)) /\
  (remote entries = Analyzer.RemoteResults [] ->
   Analyzer.ai_categorize_batch true remote entries = entries).
Proof.
  intros Hne Hinfo.
  assert (Hall : forallb (fun e => bool_decide (is_Some (info e))) entries
                 = true).
  { apply forallb_forall. intros e He. apply bool_decide_eq_true.
    rewrite Forall_forall in Hinfo. apply Hinfo. now apply list_elem_of_In. }
  unfold Analyzer.ai_categorize_batch. cbn [negb]. rewrite Hall.
  split; intros ->.
  - split; [apply length_map|]. split; [apply heuristic_dicts_names|].
    rewrite batch_insert_or_update_cons.
    + now destruct (bare_rows entries Hne) as (k & ->).
    + destruct entries; [contradiction|discriminate].
  - now destruct entries.
Qed.

Lemma fallback_dicts_block_upsert_witness :
  Store.batch_insert_or_update false
    (map Agent.update_status
       (Analyzer.ai_categorize_batch true (fun _ => Analyzer.RemoteFails)
          [entry_of (Fetcher.repo_info_of Scenario.A)])) ∅
  = (Raise DatabaseError, ∅).
Proof.
  destruct (fallback_dicts_block_upsert (fun _ => Analyzer.RemoteFails)
              [entry_of (Fetcher.repo_info_of Scenario.A)] ∅) as [H _].
  - discriminate.
  - repeat constructor. now eexists.
  - destruct (H eq_refl) as (_ & _ & Hup). exact Hup.
Defined.

(** C9 (the code departs from it in [grok-max.py]).  There the handler
    calls [sys.exit(0)]: when the signal arrives with [acme/A] in an open
    batch that is not yet full, the run is left by [SystemExit], the batch
    is never handed to [_process_batch], whatever that function does, and
    the save of the [finally] clause writes a processed list without
    [acme/A]. *)
Theorem grok_max_exit_drops_batch
    (_process_batch :
       list Fetcher.repo_info -> gset string -> result nat * gset string)
    (BATCH_SIZE : nat) :
  2 <= BATCH_SIZE ->
  GrokMax.run Scenario.search _process_batch (Some 2) BATCH_SIZE ∅ ∅ 0
              [Scenario.query] 1000
  = (GrokMax.SystemExit,
     GrokMax.mkState ∅ 0 ∅ 2
       [GrokMax.Batched "acme/A"; GrokMax.Saved [] 1]).
Proof.
  intros Hsize. destruct BATCH_SIZE as [|[|n]]; [lia|lia|].
  reflexivity.
Qed.

Lemma grok_max_exit_drops_batch_witness :
  GrokMax.run Scenario.search (fun batch processed => (Ok 0, processed))
              (Some 2) 30 ∅ ∅ 0 [Scenario.query] 1000
  = (GrokMax.SystemExit,
     GrokMax.mkState ∅ 0 ∅ 2
       [GrokMax.Batched "acme/A"; GrokMax.Saved [] 1]).
Proof.
  apply (grok_max_exit_drops_batch (fun batch processed => (Ok 0, processed))
           30).
  lia.
Defined.

Section ForwardFacts.

Import Fetcher Agent Batch Inv.

Variable E : env.
Variable C : Config.

(** A batch that has gone through has a row for each of its repos, and
    the whole of it went to the classifier and to the upsert. *)
Lemma batch_outcome_stores batch processed w res P' w' n r :
  batch_outcome E batch processed w res P' w' ->
  res = Ok n ->
  r ∈ batch ->
  full_name r ∈ dom (db w') /\
  Classify (map full_name batch) ∈ trace w' /\
  Upsert (map full_name batch) ∈ trace w'.
Proof.
  intros H. destruct H as [->|ns Hb Hns|db' Hb Hf Hdom]; intros Hn Hr.
  - now apply elem_of_nil in Hr.
  - discriminate.
  - cbn [db trace]. unfold batch_events. split; [|split].
    + rewrite Hdom. apply elem_of_union_l, elem_of_list_to_set.
      now apply list_elem_of_fmap_2.
    + rewrite !elem_of_app. right. right. left.
    + rewrite !elem_of_app. right. right. right. left.
Qed.

End ForwardFacts.

(** ** More on the gate *)

Section GateFacts.

Import RateGate GateCalls.
Local Open Scope Z_scope.

Variable quota : Z -> probe_reply.

(** One call from a free lock, by cases. *)
Lemma check_and_wait_cases fuel rl w :
  lock rl = false ->
  poll_interval rl <> 0 ->
  check_and_wait quota (S fuel) rl w
  = if negb ((call_count rl + 1) mod poll_interval rl =? 0)
       || (100 <? remaining rl)
    then Returned
           (mkRateLimiter (remaining rl) (reset_timestamp rl)
              (poll_interval rl) (call_count rl + 1) false (session rl), w)
    else
      match quota (clock w) with
      | Reply200 rem rst =>
          if rem <? 50 then
            match fuel with
            | O => NoFuel
            | S _ => Blocked (stuck rl w rem rst)
            end
          else Returned
                 (mkRateLimiter rem rst (poll_interval rl)
                    (call_count rl + 1) false false,
                  mkGateWorld (clock w) (S (probes w)))
      | _ => Returned
               (mkRateLimiter (remaining rl) (reset_timestamp rl)
                  (poll_interval rl) (call_count rl + 1) false false,
                mkGateWorld (clock w) (S (probes w)))
      end.
Proof.
  intros Hl Hp. cbn [check_and_wait]. rewrite Hl.
  cbn [count_call acquire poll_interval call_count remaining lock session
       reset_timestamp].
  destruct (Z.eqb_spec (poll_interval rl) 0) as [|_]; [contradiction|].
  destruct (negb _ || _); [reflexivity|].
  cbn [probe_sent clock probes set_session].
  destruct (quota (clock w)) as [rem rst|s|]; try reflexivity.
  cbn [set_quota remaining]. destruct (rem <? 50); [|reflexivity].
  now destruct fuel.
Qed.

(** Calls that find more than 100 calls left change the counter only. *)
Lemma calls_healthy fuel n rl w :
  lock rl = false ->
  poll_interval rl <> 0 ->
  100 < remaining rl ->
  calls quota (S fuel) n rl w
  = Returned
      (mkRateLimiter (remaining rl) (reset_timestamp rl) (poll_interval rl)
         (call_count rl + Z.of_nat n) false (session rl), w).
Proof.
  revert rl. induction n as [|n IH]; intros rl Hl Hp Hr.
  - cbn [calls]. destruct rl as [a b c d l s]. cbn in *. subst l.
    do 2 f_equal. f_equal. lia.
  - cbn [calls]. rewrite check_and_wait_cases by assumption.
    destruct (Z.ltb_spec 100 (remaining rl)) as [_|]; [|lia].
    rewrite orb_true_r. rewrite IH by (cbn; first [assumption|reflexivity]).
    cbn [remaining reset_timestamp poll_interval call_count session].
    do 2 f_equal. f_equal. lia.
Qed.

End GateFacts.

(** A call of [check_and_wait] that returns has let its caller through at
    once: the clock is where it was, at most one probe was sent, the lock
    is free again and the call is counted.  When [poll_interval] is not 0
    no call raises: what the probe raises is logged and dropped. *)
Theorem returned_call_never_waited
    (quota : Z -> RateGate.probe_reply) (fuel : nat)
    (rl : RateGate.RateLimiter) (w : RateGate.gate_world) :
  RateGate.lock rl = false ->
  RateGate.poll_interval rl <> 0%Z ->
  (forall e s, RateGate.check_and_wait quota fuel rl w
               <> RateGate.Raised e s) /\
  (forall rl' w',
     RateGate.check_and_wait quota fuel rl w = RateGate.Returned (rl', w') ->
     RateGate.clock w' = RateGate.clock w /\
     RateGate.probes w' <= S (RateGate.probes w) /\
     RateGate.lock rl' = false /\
     RateGate.call_count rl' = (RateGate.call_count rl + 1)%Z /\
     (RateGate.probes w' = S (RateGate.probes w) ->
      RateGate.session rl' = false)).
Proof.
  intros Hl Hp. destruct fuel as [|fuel]; [split; discriminate|].
  rewrite check_and_wait_cases by assumption.
  destruct (negb _ || _).
  - split; [discriminate|]. intros rl' w' [= <- <-]. cbn.
    repeat split; try lia.
  - destruct (quota (RateGate.clock w)) as [rem rst|s|].
    + destruct (rem <? 50)%Z.
      * destruct fuel; split; discriminate.
      * split; [discriminate|]. intros rl' w' [= <- <-]. cbn.
        repeat split; lia.
    + split; [discriminate|]. intros rl' w' [= <- <-]. cbn.
      repeat split; lia.
    + split; [discriminate|]. intros rl' w' [= <- <-]. cbn.
      repeat split; lia.
Qed.

Lemma returned_call_never_waited_witness :
  RateGate.check_and_wait (fun _ => RateGate.Reply200 80 5000) 3
    (RateGate.mkRateLimiter 60 4600 5 4 false false)
    (RateGate.mkGateWorld 1000 0)
  = RateGate.Returned (RateGate.mkRateLimiter 80 5000 5 5 false false,
                       RateGate.mkGateWorld 1000 1) /\
  RateGate.clock (RateGate.mkGateWorld 1000 1) = 1000%Z /\
  RateGate.lock (RateGate.mkRateLimiter 80 5000 5 5 false false) = false.
Proof.
  split; [reflexivity|].
  assert (Hp : RateGate.poll_interval
                 (RateGate.mkRateLimiter 60 4600 5 4 false false) <> 0%Z)
    by discriminate.
  destruct (proj2 (returned_call_never_waited
              (fun _ => RateGate.Reply200 80 5000) 3
              (RateGate.mkRateLimiter 60 4600 5 4 false false)
              (RateGate.mkGateWorld 1000 0) eq_refl Hp) _ _ eq_refl)
    as (Hclock & _ & Hlock & _).
  split; [exact Hclock|exact Hlock].
Defined.

(** With a token the gate never asks for the quota.  [remaining] starts at
    5000 and only a probe changes it, and a probe is sent only when
    [remaining] is at most 100: any number of calls, one after another,
    return at once, send no request and leave the clock alone. *)
Theorem gate_with_token_never_probes
    (quota : Z -> RateGate.probe_reply) (fuel n : nat)
    (now : Z) (w : RateGate.gate_world) :
  GateCalls.calls quota (S fuel) n (RateGate.init true now) w
  = RateGate.Returned
      (RateGate.mkRateLimiter 5000 (now + 3600) 5 (Z.of_nat n) false false,
       w).
Proof.
  rewrite calls_healthy; [reflexivity|reflexivity|discriminate|reflexivity].
Qed.

(** ** More on the fetcher *)

Section FetchFacts.

Import Fetcher.

Variable search : string -> nat -> nat -> response search_body.

(** The attempts after [k] connection errors. *)
Lemma attempts_skip {A : Type} (get : nat -> response A) k left from :
  (forall j, j < k -> get (from + j) = ClientError) ->
  attempts (k + left) from get = attempts left (from + k) get.
Proof.
  revert from. induction k as [|k IH]; intros from H.
  - now rewrite Nat.add_0_r.
  - cbn [Nat.add attempts]. rewrite <- (Nat.add_0_r from) at 1.
    rewrite (H 0) by lia. rewrite IH.
    + f_equal. lia.
    + intros j Hj. replace (S from + j) with (from + S j) by lia.
      apply H. lia.
Qed.

(** [k] pages with items and then a page whose request raises: the loop of
    the query yields the items of the [k] pages and raises, unless the cap
    is reached before the request is made. *)
Lemma pages_until_failure max_repos query (P : nat -> list repo_json) k e :
  forall fuel page n,
    max_repos - n < fuel ->
    (forall i, i < k ->
       P i <> [] /\
       exists d, _fetch_json (search query (page + i)) = Ok d /\
                 items_of d = P i) ->
    _fetch_json (search query (page + k)) = Raise e ->
    exists m,
      pages search fuel max_repos query page n
      = (map repo_info_of
           (take (max_repos - n) (concat (map P (seq 0 k)))), m,
         if n + length (concat (map P (seq 0 k))) <? max_repos
         then Failed e else Exhausted).
Proof.
  revert P.
  induction k as [|k IH]; intros P fuel page n Hfuel Hfull Hfail.
  - destruct fuel as [|fuel]; [lia|]. cbn [pages seq map concat length].
    rewrite take_nil, Nat.add_0_r. cbn [map].
    destruct (n <? max_repos); [|eauto].
    rewrite Nat.add_0_r in Hfail. rewrite Hfail. eauto.
  - destruct fuel as [|fuel]; [lia|]. cbn [pages].
    destruct (Nat.ltb_spec n max_repos) as [Hlt|Hge].
    + destruct (Hfull 0 ltac:(lia)) as (Hne & d & Hd & Hi).
      rewrite Nat.add_0_r in Hd. rewrite Hd, Hi.
      destruct (P 0) as [|repo items] eqn:HP0; [contradiction|].
      rewrite page_items_take.
      set (got := take (max_repos - n) (repo :: items)).
      assert (Hgot : 1 <= length got <= max_repos - n).
      { subst got. rewrite length_take. cbn [length]. lia. }
      destruct (IH (fun i => P (S i)) fuel (S page) (n + length got))
        as (m & Hrec).
      * lia.
      * intros i Hi'. destruct (Hfull (S i) ltac:(lia)) as (? & d' & Hd' & ?).
        split; [assumption|]. exists d'.
        replace (S page + i) with (page + S i) by lia. auto.
      * replace (S page + k) with (page + S k) by lia. exact Hfail.
      * rewrite Hrec. exists m.
        cbn [seq map concat]. rewrite HP0, <- seq_shift, map_map.
        set (rest := concat (map (fun i => P (S i)) (seq 0 k))).
        rewrite take_app, map_app. fold got.
        replace (max_repos - n - length (repo :: items))
          with (max_repos - (n + length got)).
        2:{ subst got. rewrite length_take. cbn [length]. lia. }
        f_equal. rewrite length_app.
        destruct (Nat.ltb_spec (n + length got + length rest) max_repos)
          as [H1|H1];
          destruct (Nat.ltb_spec
                      (n + (length (repo :: items) + length rest)) max_repos)
            as [H2|H2]; try reflexivity; exfalso;
          subst got; rewrite length_take in *; cbn [length] in *; lia.
    + replace (max_repos - n) with 0 by lia. rewrite take_0.
      destruct (Nat.ltb_spec (n + length (concat (map P (seq 0 (S k)))))
                  max_repos); [lia|]. eauto.
Qed.

End FetchFacts.

(** [_fetch_json] retries connection errors only, and at most twice: the
    first attempt of the three that meets something else decides.  A 403
    or another status is raised at once and not tried again; a timeout or
    a 404 gives the empty dict; three connection errors give tenacity's
    [RetryError]. *)
Theorem fetch_json_first_answer_decides
    {A : Type} (get : nat -> Fetcher.response A) :
  (Fetcher._fetch_json get = Raise RetryError <->
   forall k, k < 3 -> get k = Fetcher.ClientError) /\
  (forall k,
     k < 3 ->
     (forall j, j < k -> get j = Fetcher.ClientError) ->
     (forall body, get k = Fetcher.Status200 body ->
        Fetcher._fetch_json get = Ok (Fetcher.Body body)) /\
     (get k = Fetcher.Status404 \/ get k = Fetcher.TimeoutError ->
        Fetcher._fetch_json get = Ok Fetcher.EmptyDict) /\
     (get k = Fetcher.Status403 ->
        Fetcher._fetch_json get = Raise RateLimitError) /\
     (forall code, get k = Fetcher.StatusOther code ->
        Fetcher._fetch_json get = Raise (GitHubAPIError code))).
Proof.
  split.
  - split.
    + unfold Fetcher._fetch_json. cbn [Fetcher.attempts].
      intros H k Hk.
      destruct (get 0) eqn:H0; try discriminate.
      destruct (get 1) eqn:H1; try discriminate.
      destruct (get 2) eqn:H2; try discriminate.
      destruct k as [|[|[|k]]]; [assumption..|lia].
    + intros H. unfold Fetcher._fetch_json. cbn [Fetcher.attempts].
      now rewrite !H by lia.
  - intros k Hk Hfirst. unfold Fetcher._fetch_json.
    replace 3 with (k + S (2 - k)) by lia.
    rewrite (attempts_skip get k (S (2 - k)) 0) by exact Hfirst.
    cbn [Nat.add Fetcher.attempts].
    repeat split.
    + now intros body ->.
    + now intros [-> | ->].
    + now intros ->.
    + now intros code ->.
Qed.

Lemma fetch_json_first_answer_decides_witness :
  Fetcher._fetch_json
    (fun k => match k with
              | 0 => Fetcher.ClientError
              | _ => @Fetcher.Status403 nat
              end)
  = Raise RateLimitError.
Proof.
  refine (proj1 (proj2 (proj2
            (proj2 (fetch_json_first_answer_decides _) 1 _ _))) eq_refl).
  - lia.
  - intros j Hj. destruct j; [reflexivity|lia].
Defined.

(** A search page whose request raises ends the stream with that
    exception, after the items of the pages before it; but when these
    items already fill [max_repos], the page is never asked for and the
    stream just ends. *)
Theorem discover_fails_on_page
    (search : string -> nat -> nat -> Fetcher.response Fetcher.search_body)
    (query : string) (max_repos start_page k : nat)
    (P : nat -> list Fetcher.repo_json) (e : exn) :
  (forall i, i < k ->
     P i <> [] /\
     exists d, Fetcher._fetch_json (search query (start_page + i)) = Ok d /\
               Fetcher.items_of d = P i) ->
  Fetcher._fetch_json (search query (start_page + k)) = Raise e ->
  Fetcher.discover_repos_stream search [query] max_repos start_page
  = (map Fetcher.repo_info_of (take max_repos (concat (map P (seq 0 k)))),
     if length (concat (map P (seq 0 k))) <? max_repos
     then Fetcher.Failed e else Fetcher.Exhausted).
Proof.
  intros Hfull Hfail. unfold Fetcher.discover_repos_stream.
  cbn [Fetcher.queries_loop].
  destruct (pages_until_failure search max_repos query P k e (S max_repos)
              start_page 0 ltac:(lia) Hfull Hfail) as (m & ->).
  rewrite Nat.sub_0_r. cbn [Nat.add].
  destruct (_ <? _); [reflexivity|]. cbn. now rewrite app_nil_r.
Qed.

Lemma discover_fails_on_page_witness :
  Fetcher.discover_repos_stream Examples.search_refused [Scenario.query] 10 1
  = (map Fetcher.repo_info_of [Scenario.A; Scenario.B],
     Fetcher.Failed RateLimitError).
Proof.
  refine (discover_fails_on_page Examples.search_refused Scenario.query 10 1
            1 (fun _ => [Scenario.A; Scenario.B]) RateLimitError _ eq_refl).
  intros i Hi. split; [discriminate|].
  destruct i as [|i]; [|lia].
  exists (Fetcher.Body (Some [Scenario.A; Scenario.B])).
  split; reflexivity.
Defined.

(** ** More on the upsert *)

Section UpsertFacts.

Import Store.

Lemma rows_of_names es rows :
  rows_of es = Ok rows -> map row_full_name rows = names es.
Proof.
  revert rows. induction es as [|e es IH]; intros rows; cbn [rows_of].
  - now intros [= <-].
  - unfold row_of, names. cbn [omap list_omap].
    destruct (info e) as [r|]; [|discriminate]. cbn.
    destruct (rows_of es) as [rs|]; [|discriminate].
    intros [= <-]. cbn. f_equal. now apply IH.
Qed.

(** The rows that are not named in the batch stay as they are. *)
Lemma insert_rows_other (d : gmap string row) rows n :
  n ∉ map row_full_name rows ->
  foldl insert_or_replace d rows !! n = d !! n.
Proof.
  revert d. induction rows as [|r rows IH]; intros d Hn; [done|].
  cbn [foldl]. rewrite IH by set_solver.
  unfold insert_or_replace. apply lookup_insert_ne. set_solver.
Qed.


End UpsertFacts.


(** ** More on [run] *)

Section RunKeeping.

Import Fetcher Agent Batch Inv Keeping.

Variable E : env.
Variable C : Config.
Variable db0 : gmap string Store.row.
Variable P0 : gset string.

Lemma keeping_read b st set w :
  keeping db0 P0 b st -> read_flag E (outside st) = (set, w) ->
  keeping db0 P0 b (mkState (processed st) (total_new st) w).
Proof.
  intros (H1 & H2 & H3 & H4) Hr.
  apply read_flag_trace in Hr as (Ht & Hd & _).
  unfold keeping. cbn [outside processed]. rewrite Ht, Hd.
  repeat split; try assumption.
  - intros n Hn. destruct (H2 n Hn); [now left|right].
    apply elem_of_app. now left.
  - intros r Hr. apply elem_of_app. left. auto.
Qed.

Lemma keeping_push b st w r :
  keeping db0 P0 b st -> read_flag E (outside st) = (false, w) ->
  full_name r ∉ processed st ->
  keeping db0 P0 (b ++ [r])
    (mkState (processed st) (total_new st) (log [Batched (full_name r)] w)).
Proof.
  intros H Hr _. pose proof (keeping_read _ _ _ _ H Hr) as (H1 & H2 & H3 & H4).
  cbn [outside processed] in *.
  unfold keeping, log. cbn [outside processed db trace].
  repeat split; try assumption.
  - intros n Hn. destruct (H2 n Hn); [now left|right].
    apply elem_of_app. now left.
  - intros r' [Hr'|Hr']%elem_of_app; apply elem_of_app.
    + left. auto.
    + right. apply list_elem_of_singleton in Hr' as ->. left.
Qed.

Lemma keeping_outcome b st r P' w' :
  keeping db0 P0 b st ->
  batch_outcome E b (processed st) (outside st) r P' w' ->
  keeping db0 P0 [] (mkState P' (total_new st) w').
Proof.
  intros (H1 & H2 & H3 & H4) Ho.
  destruct Ho as [->|ns Hb Hns|db' Hb Hf Hdom];
    unfold keeping; cbn [outside processed db trace].
  - repeat split; try assumption.
    + intros n Hn. destruct (H2 n Hn); [now left|right].
      apply elem_of_app. now left.
    + intros r' Hr'. now apply elem_of_nil in Hr'.
  - repeat split; try assumption.
    + intros n Hn. destruct (H2 n Hn); [now left|right].
      apply elem_of_app. now left.
    + intros r' Hr'. now apply elem_of_nil in Hr'.
  - rewrite Hdom. repeat split.
    + set_solver.
    + intros n [Hn|Hn]%elem_of_union.
      * right. apply elem_of_app. left.
        apply elem_of_list_to_set, list_elem_of_fmap in Hn as (r' & -> & Hr').
        auto.
      * destruct (H2 n Hn); [now left|right]. apply elem_of_app. now left.
    + set_solver.
    + intros r' Hr'. now apply elem_of_nil in Hr'.
Qed.

Lemma keeping_process b st r st' :
  keeping db0 P0 b st -> process E C b st = (r, st') ->
  keeping db0 P0 [] st'.
Proof.
  intros H Hp. apply process_outcome in Hp as (r0 & Ho & _).
  pose proof (keeping_outcome _ _ _ _ _ H Ho) as Hk.
  destruct st'. exact Hk.
Qed.

Lemma keeping_save qu sp q b st :
  keeping db0 P0 b st -> keeping db0 P0 b (checkpoint_save E qu sp q st).
Proof.
  intros (H1 & H2 & H3 & H4).
  unfold keeping, checkpoint_save. cbn [outside processed db trace].
  repeat split; try assumption.
  - intros n Hn. destruct (H2 n Hn); [now left|right].
    apply elem_of_app. now left.
  - intros r Hr. apply elem_of_app. left. auto.
Qed.

Lemma keeping_drop b st : keeping db0 P0 b st -> keeping db0 P0 [] st.
Proof.
  intros (H1 & H2 & H3 & _). repeat split; try assumption.
  intros r Hr. now apply elem_of_nil in Hr.
Qed.

Lemma queries_loop_keeping qu sp lim qi qs st r st' :
  keeping db0 P0 [] st ->
  queries_loop E C qu sp lim qi qs st = (r, st') ->
  keeping db0 P0 [] st'.
Proof.
  intros H0 Hloop.
  pose proof (queries_loop_rule E C qu sp (keeping db0 P0)
                (fun _ st => keeping db0 P0 [] st)) as Hrule.
  specialize (Hrule keeping_read keeping_push).
  specialize (Hrule
    ltac:(intros b s s' _ Hs Hp; exact (keeping_process _ _ _ _ Hs Hp))).
  specialize (Hrule ltac:(intros q s Hs; now apply keeping_save)).
  specialize (Hrule
    ltac:(intros b s s' e _ Hs Hp; exact (keeping_process _ _ _ _ Hs Hp))).
  specialize (Hrule ltac:(intros b s e; apply keeping_drop)).
  specialize (Hrule _ _ _ _ _ _ H0 Hloop). now destruct r.
Qed.

End RunKeeping.

(** A run takes no row out of the table, and the only names it adds are
    names of repos that it put in a batch.  Every name that is in
    [processed] at the end was in the processed set the run started with
    or has a row in the table. *)
Theorem run_keeps_rows
    (E : Agent.env) (C : Agent.Config) (db0 : gmap string Store.row)
    (ckpt0 : Checkpoint.file) (max_repos : option nat) (resume : bool)
    (custom_query : option string) :
  dom db0
  ⊆ dom (Agent.db (Agent.outside (Agent.final
       (Agent.run E C db0 ckpt0 max_repos resume custom_query)))) /\
  (forall n,
     n ∈ dom (Agent.db (Agent.outside (Agent.final
           (Agent.run E C db0 ckpt0 max_repos resume custom_query)))) ->
     n ∈ dom db0 \/
     Agent.Batched n
     ∈ Agent.trace (Agent.outside (Agent.final
         (Agent.run E C db0 ckpt0 max_repos resume custom_query)))) /\
  Agent.processed
    (Agent.final (Agent.run E C db0 ckpt0 max_repos resume custom_query))
  ⊆ Inv.initial_processed resume ckpt0
    ∪ dom (Agent.db (Agent.outside (Agent.final
        (Agent.run E C db0 ckpt0 max_repos resume custom_query)))).
Proof.
  destruct (run_unfold E C db0 ckpt0 max_repos resume custom_query)
    as (qu & sp & lim & qi & qs & r & st & Hloop & ->).
  cbn [Agent.final].
  assert (H0 : Keeping.keeping db0 (Inv.initial_processed resume ckpt0) []
                 (Agent.mkState (Inv.initial_processed resume ckpt0) 0
                    (Agent.mkWorld db0 ckpt0 [] 0 0 0))).
  { unfold Keeping.keeping. cbn. repeat split.
    - done.
    - intros n Hn. now left.
    - set_solver.
    - intros r' Hr'. now apply elem_of_nil in Hr'. }
  pose proof (queries_loop_keeping E C _ _ _ _ _ _ _ _ _ _ H0 Hloop) as Hk.
  apply (keeping_save E _ _ qu sp (length qs)) in Hk
    as (H1 & H2 & H3 & _).
  auto.
Qed.

Section RunSized.

Import Fetcher Agent Batch Inv Keeping.

Variable E : env.
Variable C : Config.

Lemma sized_app tr evs :
  sized C tr ->
  (forall ns, Classify ns ∈ evs \/ Upsert ns ∈ evs ->
              1 <= length ns <= batch_cap C) ->
  sized C (tr ++ evs).
Proof.
  intros Ht He ns [H|H]; apply elem_of_app in H as [H|H]; auto.
Qed.

Lemma sized_read st set w :
  sized C (trace (outside st)) -> read_flag E (outside st) = (set, w) ->
  sized C (trace w).
Proof.
  intros Hs Hr. apply read_flag_trace in Hr as (-> & _).
  apply sized_app; [exact Hs|].
  intros ns [H|H]; destruct set;
    repeat (apply elem_of_cons in H as [H|H]; [discriminate|]);
    now apply elem_of_nil in H.
Qed.

Lemma sized_batch_events b last :
  b <> [] -> length b <= batch_cap C ->
  (forall ns, Classify ns ∉ last) ->
  (forall ns, Upsert ns ∈ last -> ns = map full_name b) ->
  forall ns,
    Classify ns ∈ batch_events (map full_name b) last
    \/ Upsert ns ∈ batch_events (map full_name b) last ->
    1 <= length ns <= batch_cap C.
Proof.
  intros Hb Hlen Hc Hu ns.
  assert (Hok : 1 <= length (map full_name b) <= batch_cap C).
  { rewrite length_map. destruct b; [contradiction|cbn in *; lia]. }
  unfold batch_events. intros [H|H]; apply elem_of_app in H as [H|H].
  - apply list_elem_of_fmap in H as (? & [=] & _).
  - apply elem_of_cons in H as [[= ->]|H]; [exact Hok|]. now apply Hc in H.
  - apply list_elem_of_fmap in H as (? & [=] & _).
  - apply elem_of_cons in H as [[=]|H]. apply Hu in H as ->. exact Hok.
Qed.

Lemma sized_process b st r st' :
  b <> [] -> length b <= batch_cap C ->
  sized C (trace (outside st)) -> process E C b st = (r, st') ->
  sized C (trace (outside st')).
Proof.
  intros Hb Hlen Hs Hp. apply process_outcome in Hp as (r0 & Ho & _).
  destruct Ho as [->|ns Hb' Hns|db' Hb' Hf Hdom]; [contradiction|..];
    cbn [trace]; (apply sized_app; [exact Hs|]);
    apply sized_batch_events; try assumption.
  - intros ns' H. apply list_elem_of_singleton in H. discriminate.
  - intros ns' H. apply list_elem_of_singleton in H. discriminate.
  - intros ns' H. apply list_elem_of_singleton in H. discriminate.
  - intros ns' H. apply list_elem_of_singleton in H. now injection H.
Qed.

Lemma sized_save qu sp q st :
  sized C (trace (outside st)) ->
  sized C (trace (outside (checkpoint_save E qu sp q st))).
Proof.
  intros Hs. unfold checkpoint_save. cbn [outside trace].
  apply sized_app; [exact Hs|].
  intros ns [H|H]; apply list_elem_of_singleton in H; discriminate.
Qed.

Lemma consume_sized qu sp q items :
  forall b st l b' st',
    length b < batch_cap C ->
    sized C (trace (outside st)) ->
    consume E C qu sp q items b st = (l, b', st') ->
    sized C (trace (outside st')) /\
    match l with Crashed _ => True | _ => length b' < batch_cap C end.
Proof.
  induction items as [|r items IH]; intros b st l b' st' Hlen Hs;
    cbn [consume].
  - intros [= <- <- <-]. auto.
  - destruct (read_flag E (outside st)) as [set w] eqn:Hread.
    pose proof (sized_read _ _ _ Hs Hread) as Hw.
    cbn [processed total_new outside].
    destruct set; [intros [= <- <- <-]; auto|].
    destruct (decide (full_name r ∈ processed st)); [now apply IH|].
    assert (Hpush : sized C (trace (log [Batched (full_name r)] w))).
    { unfold log. cbn [trace]. apply sized_app; [exact Hw|].
      intros ns [H|H]; apply list_elem_of_singleton in H; discriminate. }
    assert (Hlen' : length (b ++ [r]) <= batch_cap C)
      by (rewrite length_app; cbn; lia).
    destruct (Nat.leb_spec (BATCH_SIZE C) (length (b ++ [r]))) as [Hfull|Hopen].
    + destruct (process E C (b ++ [r]) _) as [[[]|e] st1] eqn:Hproc.
      * apply IH.
        -- unfold batch_cap. cbn. lia.
        -- apply sized_save.
           apply (fun Hb =>
                    sized_process (b ++ [r])
                      (mkState (processed st) (total_new st)
                               (log [Batched (full_name r)] w))
                      _ _ Hb Hlen' Hpush Hproc).
           now destruct b.
      * intros [= <- <- <-]. split; [|exact I].
        apply (fun Hb =>
                    sized_process (b ++ [r])
                      (mkState (processed st) (total_new st)
                               (log [Batched (full_name r)] w))
                      _ _ Hb Hlen' Hpush Hproc).
        now destruct b.
    + apply IH; [|exact Hpush]. unfold batch_cap. lia.
Qed.

Lemma process_rest_sized b st r st' :
  length b < batch_cap C ->
  sized C (trace (outside st)) -> process_rest E C b st = (r, st') ->
  sized C (trace (outside st')).
Proof.
  intros Hlen Hs. destruct b as [|r0 b]; cbn [process_rest].
  - now intros [= <- <-].
  - apply sized_process; [discriminate|lia|exact Hs].
Qed.

Lemma scrape_query_sized qu sp q lim query st r st' :
  sized C (trace (outside st)) ->
  scrape_query E C qu sp q lim query st = (r, st') ->
  sized C (trace (outside st')).
Proof.
  intros Hs. unfold scrape_query.
  destruct (discover_repos_stream _ _ _ _) as [items ending].
  destruct (consume _ _ _ _ _ items [] st) as [[l b1] st1] eqn:Hcons.
  apply consume_sized in Hcons as (H1 & H2);
    [|unfold batch_cap; cbn; lia|exact Hs].
  destruct l as [| |e].
  - destruct ending as [|e|].
    + now apply process_rest_sized.
    + now intros [= <- <-].
    + now apply process_rest_sized.
  - now apply process_rest_sized.
  - now intros [= <- <-].
Qed.

Lemma queries_loop_sized qu sp lim qs :
  forall q st r st',
    sized C (trace (outside st)) ->
    queries_loop E C qu sp lim q qs st = (r, st') ->
    sized C (trace (outside st')).
Proof.
  induction qs as [|query qs IH]; intros q st r st' Hs; cbn [queries_loop].
  - now intros [= <- <-].
  - destruct (read_flag E (outside st)) as [set w] eqn:Hread.
    pose proof (sized_read _ _ _ Hs Hread) as Hw.
    cbn [processed total_new outside].
    destruct set; [now intros [= <- <-]|].
    destruct (scrape_query _ _ _ _ _ _ _ _) as [[[]|e] st1] eqn:Hq;
      apply scrape_query_sized in Hq; try exact Hw.
    + now apply IH.
    + now intros [= <- <-].
Qed.

End RunSized.

(** In a run, every list of dicts that goes to the classifier, and every
    list that is stored in one transaction, has at least one repo and at
    most [BATCH_SIZE] of them (one, when [BATCH_SIZE] is 0): the run never
    calls [_process_batch] on an empty batch and never lets a batch grow
    past [BATCH_SIZE]. *)
Theorem batches_stay_within_batch_size
    (E : Agent.env) (C : Agent.Config) (db0 : gmap string Store.row)
    (ckpt0 : Checkpoint.file) (max_repos : option nat) (resume : bool)
    (custom_query : option string) (ns : list string) :
  Agent.Classify ns
  ∈ Agent.trace (Agent.outside (Agent.final
      (Agent.run E C db0 ckpt0 max_repos resume custom_query)))
  \/ Agent.Upsert ns
     ∈ Agent.trace (Agent.outside (Agent.final
         (Agent.run E C db0 ckpt0 max_repos resume custom_query))) ->
  1 <= length ns <= Nat.max 1 (Agent.BATCH_SIZE C).
Proof.
  destruct (run_unfold E C db0 ckpt0 max_repos resume custom_query)
    as (qu & sp & lim & qi & qs & r & st & Hloop & ->).
  cbn [Agent.final].
  apply queries_loop_sized in Hloop.
  - apply (sized_save E C qu sp (length qs)) in Hloop. apply Hloop.
  - intros ns' [H|H]; now apply elem_of_nil in H.
Qed.

Lemma batches_stay_within_batch_size_witness :
  1 <= length ["acme/A"] <= Nat.max 1 (Agent.BATCH_SIZE (Scenario.config 1 false)).
Proof.
  apply (batches_stay_within_batch_size (Scenario.env false None)
           (Scenario.config 1 false) ∅ Checkpoint.Missing None true None).
  left.
  assert (Htr : Agent.trace (Agent.outside (Agent.final
            (Agent.run (Scenario.env false None) (Scenario.config 1 false)
               ∅ Checkpoint.Missing None true None)))
          = [Agent.Batched "acme/A"; Agent.Enrich "acme/A";
             Agent.Classify ["acme/A"]; Agent.Upsert ["acme/A"];
             Agent.Save ["acme/A"] 0 Checkpoint.Written;
             Agent.Batched "acme/B"; Agent.Enrich "acme/B";
             Agent.Classify ["acme/B"]; Agent.Upsert ["acme/B"];
             Agent.Save ["acme/A"; "acme/B"] 0 Checkpoint.Written;
             Agent.Save ["acme/A"; "acme/B"] 1 Checkpoint.Written])
    by (vm_compute; reflexivity).
  rewrite Htr.
  do 2 apply list_elem_of_further. apply list_elem_of_here.
Defined.

(** The last thing [run] does is a save with [len(queries)]. *)
Lemma run_final_save
    (E : Agent.env) (C : Agent.Config) (db0 : gmap string Store.row)
    (ckpt0 : Checkpoint.file) (max_repos : option nat) (resume : bool)
    (custom_query : option string) :
  exists qu sp st,
    Agent.final (Agent.run E C db0 ckpt0 max_repos resume custom_query)
    = Agent.checkpoint_save E qu sp
        (length (match custom_query with
                 | Some (String c s) => [String c s]
                 | _ => Agent.DEFAULT_QUERIES C
                 end)) st.
Proof.
  unfold Agent.run.
  destruct (if resume then Checkpoint.load ckpt0 else (∅, ∅, 0, ∅))
    as [[[P0 sp] qi] qu].
  match goal with
  | |- context [Agent.queries_loop E C qu sp ?lim qi ?qs ?s] =>
      destruct (Agent.queries_loop E C qu sp lim qi qs s) as [r st]
  end.
  cbn [Agent.final]. eauto.
Qed.

(** The last save of [run] writes [len(queries)] as [query_idx], also when
    the run was cut short by a signal or left by an exception.  So once
    that save has gone through, a run that resumes from the file with the
    same queries finds no query left: it puts nothing in a batch, leaves
    the table alone and only saves the same processed set again. *)
Theorem finished_run_leaves_nothing_to_resume
    (E E' : Agent.env) (C : Agent.Config) (db0 db1 : gmap string Store.row)
    (ckpt0 : Checkpoint.file) (max_repos max_repos' : option nat)
    (resume : bool) (custom_query : option string)
    (pre : list Agent.event) (l : list string) (q : nat) :
  Agent.trace (Agent.outside (Agent.final
     (Agent.run E C db0 ckpt0 max_repos resume custom_query)))
  = pre ++ [Agent.Save l q Checkpoint.Written] ->
  Agent.run_error
    (Agent.run E' C db1
       (Agent.ckpt (Agent.outside (Agent.final
          (Agent.run E C db0 ckpt0 max_repos resume custom_query))))
       max_repos' true custom_query) = None /\
  Agent.processed (Agent.final
    (Agent.run E' C db1
       (Agent.ckpt (Agent.outside (Agent.final
          (Agent.run E C db0 ckpt0 max_repos resume custom_query))))
       max_repos' true custom_query))
  = Agent.processed (Agent.final
      (Agent.run E C db0 ckpt0 max_repos resume custom_query)) /\
  Agent.db (Agent.outside (Agent.final
    (Agent.run E' C db1
       (Agent.ckpt (Agent.outside (Agent.final
          (Agent.run E C db0 ckpt0 max_repos resume custom_query))))
       max_repos' true custom_query))) = db1 /\
  exists io,
    Agent.trace (Agent.outside (Agent.final
      (Agent.run E' C db1
         (Agent.ckpt (Agent.outside (Agent.final
            (Agent.run E C db0 ckpt0 max_repos resume custom_query))))
         max_repos' true custom_query)))
    = [Agent.Save
         (elements (Agent.processed (Agent.final
            (Agent.run E C db0 ckpt0 max_repos resume custom_query))))
         q io].
Proof.
  destruct (run_final_save E C db0 ckpt0 max_repos resume custom_query)
    as (qu & sp & st & ->).
  set (queries := match custom_query with
                  | Some (String c s) => [String c s]
                  | _ => Agent.DEFAULT_QUERIES C
                  end).
  unfold Agent.checkpoint_save at 1. cbn [Agent.outside Agent.trace].
  intros Htr. apply app_inj_tail in Htr as [_ [= _ <- Hio]].
  unfold Agent.checkpoint_save.
  cbn [Agent.outside Agent.ckpt Agent.processed Agent.total_new].
  rewrite Hio. unfold Agent.run.
  cbn [Checkpoint.save Checkpoint.load Checkpoint.doc_processed
       Checkpoint.doc_start_pages Checkpoint.doc_query_idx
       Checkpoint.doc_queries_used default].
  unfold id. fold queries. rewrite drop_all. cbn [Agent.queries_loop].
  cbn [Agent.run_error Agent.final].
  unfold Agent.checkpoint_save.
  cbn [Agent.outside Agent.processed Agent.db Agent.trace app].
  rewrite list_to_set_elements_L.
  repeat split. eauto.
Qed.

Lemma finished_run_leaves_nothing_to_resume_witness :
  Agent.run_error
    (Agent.run (Scenario.env false None) (Scenario.config 30 false) ∅
       (Agent.ckpt (Agent.outside (Agent.final
          (Agent.run (Scenario.env false None) (Scenario.config 30 false) ∅
             Checkpoint.Missing None true None))))
       None true None) = None /\
  Agent.db (Agent.outside (Agent.final
    (Agent.run (Scenario.env false None) (Scenario.config 30 false) ∅
       (Agent.ckpt (Agent.outside (Agent.final
          (Agent.run (Scenario.env false None) (Scenario.config 30 false) ∅
             Checkpoint.Missing None true None))))
       None true None))) = ∅.
Proof.
  assert (Htr : Agent.trace (Agent.outside (Agent.final
            (Agent.run (Scenario.env false None) (Scenario.config 30 false)
               ∅ Checkpoint.Missing None true None)))
          = [Agent.Batched "acme/A"; Agent.Batched "acme/B";
             Agent.Enrich "acme/A"; Agent.Enrich "acme/B";
             Agent.Classify ["acme/A"; "acme/B"];
             Agent.Upsert ["acme/A"; "acme/B"]]
            ++ [Agent.Save ["acme/A"; "acme/B"] 1 Checkpoint.Written])
    by (vm_compute; reflexivity).
  pose proof (finished_run_leaves_nothing_to_resume
                (Scenario.env false None) (Scenario.env false None)
                (Scenario.config 30 false) ∅ ∅ Checkpoint.Missing None None
                true None _ _ _ Htr) as (Herr & _ & Hdb & _).
  split; [exact Herr|exact Hdb].
Defined.

(** ** The quality score *)

Section QualityFacts.

Import Quality.
Local Open Scope Z_scope.

Lemma freshness_points_range f : 0 <= freshness_points f <= 10.
Proof.
  unfold freshness_points.
  destruct (f <? 180), (f <? 365), (f <? 730); lia.
Qed.

Lemma freshness_points_stale f : 730 <= f -> freshness_points f = 0.
Proof.
  intros H. unfold freshness_points.
  destruct (Z.ltb_spec f 180), (Z.ltb_spec f 365), (Z.ltb_spec f 730); lia.
Qed.

(** The score is the sum of its six parts: the cap at 100 cuts nothing. *)
Lemma calc_quality_score_sum e :
  _calc_quality_score e
  = Z.min 40 (Z.quot (default 0 (sc_stars e)) 5)
    + (if bool_decide (default "" (sc_readme e) <> "")%string then 10 else 0)
    + (if default false (sc_has_demo e) then 15 else 0)
    + Z.min 15 (Z.of_nat (length (default [] (sc_tech_stack e))) * 3)
    + Z.min 10 (Z.of_nat (length (default [] (sc_features e))) * 2)
    + freshness_points (default 9999 (sc_freshness_days e)).
Proof.
  unfold _calc_quality_score.
  pose proof (freshness_points_range (default 9999 (sc_freshness_days e))).
  destruct (bool_decide _), (default false (sc_has_demo e)); lia.
Qed.

End QualityFacts.

(** For a star count that [int(stars / 5)] divides exactly, the quality
    score of a dict is the plain sum of its six parts: at most 40 for the
    stars, 10 for a readme, 15 for a demo, 15 for the tech stack, 10 for
    the features and 10 for freshness.  The parts add up to 100 at most,
    so the [min(100, score)] of the last line never cuts.  With a star
    count that is not negative the score lies between 0 and 100, and more
    stars never lower it. *)
Theorem quality_score_within_bounds (e : Quality.scored) :
  (Z.abs (default 0 (Quality.sc_stars e)) <= 2 ^ 53)%Z ->
  Quality._calc_quality_score e
  = (Z.min 40 (Z.quot (default 0 (Quality.sc_stars e)) 5)
     + (if bool_decide (default "" (Quality.sc_readme e) <> "")
        then 10 else 0)
     + (if default false (Quality.sc_has_demo e) then 15 else 0)
     + Z.min 15
         (Z.of_nat (length (default [] (Quality.sc_tech_stack e))) * 3)
     + Z.min 10
         (Z.of_nat (length (default [] (Quality.sc_features e))) * 2)
     + Quality.freshness_points
         (default 9999 (Quality.sc_freshness_days e)))%Z /\
  (0 <= Quality.freshness_points
          (default 9999 (Quality.sc_freshness_days e)) <= 10)%Z /\
  (Quality._calc_quality_score e <= 100)%Z /\
  ((0 <= default 0 (Quality.sc_stars e))%Z ->
   (0 <= Quality._calc_quality_score e)%Z) /\
  (forall stars',
     (default 0 (Quality.sc_stars e) <= stars' <= 2 ^ 53)%Z ->
     (Quality._calc_quality_score e
      <= Quality._calc_quality_score
           (Quality.mkScored (Some stars') (Quality.sc_readme e)
              (Quality.sc_has_demo e) (Quality.sc_tech_stack e)
              (Quality.sc_features e) (Quality.sc_freshness_days e)))%Z).
Proof.
  intros _.
  pose proof (freshness_points_range
                (default 9999%Z (Quality.sc_freshness_days e))) as Hf.
  split; [apply calc_quality_score_sum|]. split; [exact Hf|].
  split; [|split].
  - rewrite calc_quality_score_sum.
    destruct (bool_decide _), (default false (Quality.sc_has_demo e)); lia.
  - intros Hs. rewrite calc_quality_score_sum.
    pose proof (Z.quot_pos (default 0%Z (Quality.sc_stars e)) 5 Hs).
    destruct (bool_decide _), (default false (Quality.sc_has_demo e)); lia.
  - intros stars' Hs. rewrite !calc_quality_score_sum. cbn.
    pose proof (Z.quot_le_mono (default 0%Z (Quality.sc_stars e)) stars' 5).
    lia.
Qed.

Lemma quality_score_within_bounds_witness :
  Quality._calc_quality_score
    (Quality.mkScored (Some 250%Z) (Some "# Theme") (Some true)
       (Some ["d3"; "react"; "sass"; "typescript"; "vue"])
       (Some ["a"; "b"; "c"; "d"; "e"]) (Some 0%Z))
  = (40 + 10 + 15 + 15 + 10 + 10)%Z.
Proof.
  refine (proj1 (quality_score_within_bounds
                   (Quality.mkScored (Some 250%Z) (Some "# Theme") (Some true)
                      (Some ["d3"; "react"; "sass"; "typescript"; "vue"])
                      (Some ["a"; "b"; "c"; "d"; "e"]) (Some 0%Z)) _)).
  cbn. lia.
Defined.

(** The score that [_validate_entry] stores for a dict of the pipeline
    counts nothing for freshness and nothing for a readme: no step writes
    ['readme'], and ['freshness_days'] is written after the score is
    computed.  So the score is at most 80 and does not depend on the date
    of the last update; a second validation of the same dict would add the
    freshness points. *)
Theorem first_validation_ignores_freshness
    (age age' : string -> option Z) (last_updated last_updated' : string)
    (e : entry) :
  ((Quality._validate_entry age last_updated (Quality.scored_of e)).2
   <= 80)%Z /\
  (Quality._validate_entry age last_updated (Quality.scored_of e)).2
  = (Quality._validate_entry age' last_updated' (Quality.scored_of e)).2 /\
  Quality.sc_freshness_days
    (Quality._validate_entry age last_updated (Quality.scored_of e)).1
  = Some (Quality._calc_freshness age last_updated) /\
  (Quality._validate_entry age last_updated
     (Quality._validate_entry age last_updated (Quality.scored_of e)).1).2
  = ((Quality._validate_entry age last_updated (Quality.scored_of e)).2
     + Quality.freshness_points (Quality._calc_freshness age last_updated))%Z.
Proof.
  unfold Quality._validate_entry. cbn [fst snd].
  rewrite !calc_quality_score_sum.
  cbn [Quality.defaults Quality.scored_of Quality.sc_stars Quality.sc_readme
       Quality.sc_has_demo Quality.sc_tech_stack Quality.sc_features
       Quality.sc_freshness_days default].
  unfold id.
  rewrite (freshness_points_stale 9999) by lia.
  split; [|split; [reflexivity|split; [reflexivity|lia]]].
  rewrite bool_decide_eq_false_2 by (intros H; now apply H).
  destruct (has_demo <$> analysed e) as [[]|]; cbn; lia.
Qed.

(** ** The heuristic categories *)

Section HeuristicFacts.

Import Analyzer Categories.

(** Every key of the rules is a category. *)
Lemma rules_in_categories cat kws :
  (cat, kws) ∈ HEURISTIC_RULES -> cat ∈ CATEGORIES.
Proof.
  unfold HEURISTIC_RULES, CATEGORIES. intros H.
  repeat (apply elem_of_cons in H as [[= <- _]|H];
          [apply list_elem_of_In; cbn; tauto|]).
  now apply elem_of_nil in H.
Qed.

Lemma find_first {A : Type} (f : A -> bool) (l : list A) (x : A) :
  List.find f l = Some x ->
  exists pre post, l = pre ++ x :: post /\ f x = true /\
                   forall y, y ∈ pre -> f y = false.
Proof.
  induction l as [|a l IH]; [discriminate|]. cbn [List.find].
  destruct (f a) eqn:Ha.
  - intros [= ->]. exists [], l. repeat split; [assumption|].
    intros y Hy. now apply elem_of_nil in Hy.
  - intros H. destruct (IH H) as (pre & post & -> & Hx & Hpre).
    exists (a :: pre), post. repeat split; [assumption|].
    intros y [->|Hy]%elem_of_cons; auto.
Qed.

(** The category of the heuristic is a category of the configuration. *)
Lemma heuristic_in_categories e :
  category (_heuristic_categorize e) ∈ CATEGORIES.
Proof.
  unfold _heuristic_categorize.
  destruct (List.find _ HEURISTIC_RULES) as [[cat kws]|] eqn:Hfind.
  - apply find_first in Hfind as (pre & post & Hrules & _).
    cbn [category]. apply (rules_in_categories cat kws). rewrite Hrules.
    apply elem_of_app. right. left.
  - cbn. apply list_elem_of_In. cbn. tauto.
Qed.

End HeuristicFacts.

(** [_heuristic_categorize] always gives a category of
    [Config.CATEGORIES].  It is ['other'] or the key of the first rule, in
    the order of [HEURISTIC_RULES], one of whose keywords occurs in the
    lowered text of the dict; the features are then the first five
    keywords of that rule. *)
Theorem heuristic_category_is_listed (e : entry) :
  category (Analyzer._heuristic_categorize e) ∈ Categories.CATEGORIES /\
  length (ai_features (Analyzer._heuristic_categorize e)) <= 5 /\
  (Analyzer._heuristic_categorize e
   = mkCategoryInfo "other" "General web theme" [] "General purpose"
   \/ exists pre kws post,
        Analyzer.HEURISTIC_RULES
        = pre ++ (category (Analyzer._heuristic_categorize e), kws) :: post /\
        ai_features (Analyzer._heuristic_categorize e) = take 5 kws /\
        (exists kw, kw ∈ kws /\
                    Str.contains kw (Analyzer.heuristic_text e) = true) /\
        forall rule kw, rule ∈ pre -> kw ∈ rule.2 ->
          Str.contains kw (Analyzer.heuristic_text e) = false).
Proof.
  unfold Analyzer._heuristic_categorize.
  destruct (List.find _ Analyzer.HEURISTIC_RULES) as [[cat kws]|] eqn:Hfind.
  - apply find_first in Hfind as (pre & post & Hrules & Hhit & Hpre).
    cbn [category ai_features]. split; [|split].
    + apply (rules_in_categories cat kws). rewrite Hrules.
      apply elem_of_app. right. left.
    + rewrite length_take. lia.
    + right. exists pre, kws, post. split; [exact Hrules|].
      split; [reflexivity|]. split.
      * cbn in Hhit. apply existsb_exists in Hhit as (kw & Hkw & Hc).
        exists kw. split; [now apply list_elem_of_In|exact Hc].
      * intros rule kw Hrule Hkw. specialize (Hpre rule Hrule).
        destruct (Str.contains kw _) eqn:Hc; [|reflexivity].
        assert (existsb
                  (fun kw => Str.contains kw (Analyzer.heuristic_text e))
                  rule.2 = true) as Hex.
        { apply existsb_exists. exists kw.
          split; [now apply list_elem_of_In|exact Hc]. }
        congruence.
  - cbn. split; [|split; [lia|now left]].
    apply list_elem_of_In. cbn. tauto.
Qed.

(** ** The rotation of the API keys *)

Section MiniMaxFacts.

Import MiniMax.

Variable post : string -> nat -> http.

Lemma rotating_next c : rotating c -> rotating (_get_next_key c).
Proof.
  intros (Hk & Hc & _). unfold rotating, _get_next_key. cbn.
  repeat split; [assumption|lia|]. now rewrite Nat.sub_0_r.
Qed.

Lemma filter_nonempty_nil keys :
  List.filter nonempty keys = [] <-> USE_AI keys = false.
Proof.
  unfold USE_AI. induction keys as [|k keys IH]; cbn; [done|].
  destruct (nonempty k); cbn; [split; discriminate|exact IH].
Qed.

(** A run that stops where it is. *)
Lemma rotated_stop c sent secs left o :
  rotating c ->
  (forall a, o <> Returned a) ->
  rotated c sent secs left (o, mkEffects c sent secs).
Proof.
  intros Hr Ho. exists [].
  cbn [fst snd requests slept client_after length]. rewrite app_nil_r.
  split; [reflexivity|]. split; [lia|]. split; [lia|].
  split; [intros j Hj; lia|]. split; [exact Hr|]. split; [reflexivity|].
  intros a Ha. now apply Ho in Ha.
Qed.

(** A run that returns after the request with the current key. *)
Lemma rotated_return c sent secs left a :
  rotating c ->
  rotated c sent secs (S left)
          (Returned a, mkEffects c (sent ++ [current_key c]) secs).
Proof.
  intros Hr. exists [current_key c].
  cbn [fst snd requests slept client_after length].
  split; [reflexivity|]. split; [lia|]. split; [lia|].
  split; [|split; [exact Hr|split; [reflexivity|reflexivity]]].
  intros [|j] Hj; [|lia]. cbn. rewrite Nat.add_0_r. f_equal. apply Hr.
Qed.

(** One request with the current key, then a run with the next one. *)
Lemma rotated_step c sent secs pause left r :
  rotating c -> pause <= 2 ->
  rotated (_get_next_key c) (sent ++ [current_key c]) (secs + pause) left r ->
  rotated c sent secs (S left) r.
Proof.
  intros Hr Hp (extra & H1 & H2 & H3 & H4 & H5 & H6 & H7).
  exists (current_key c :: extra). rewrite H1, <- app_assoc. cbn [app length].
  split; [reflexivity|]. split; [lia|]. split; [lia|].
  split; [|split; [exact H5|split; [exact H6|]]].
  - intros [|j] Hj; cbn.
    + rewrite Nat.add_0_r. f_equal. apply Hr.
    + rewrite H4 by lia. cbn [_get_next_key api_keys cursor].
      do 2 f_equal. destruct Hr as (_ & Hc & _). lia.
  - intros a Ha. specialize (H7 a Ha).
    destruct extra as [|x extra]; [discriminate|exact H7].
Qed.

(** One request with the current key, the last one. *)
Lemma rotated_last c sent secs r :
  rotating c ->
  rotated c (sent ++ [current_key c]) secs 0 r ->
  rotated c sent secs 1 r.
Proof.
  intros Hr (extra & H1 & H2 & H3 & H4 & H5 & H6 & H7).
  destruct extra as [|x extra]; [|cbn in H2; lia].
  exists [current_key c]. rewrite H1, app_nil_r. cbn [length].
  split; [reflexivity|]. split; [lia|]. split; [lia|].
  split; [|split; [exact H5|split; [exact H6|]]].
  - intros [|j] Hj; [|lia]. cbn. rewrite Nat.add_0_r. f_equal. apply Hr.
  - intros a Ha. specialize (H7 a Ha). discriminate.
Qed.

(** The loop from [attempt] on. *)
Lemma attempts_rotate max_retries :
  forall left attempt last_error c sent secs,
    rotating c ->
    attempt + left = max_retries ->
    rotated c sent secs left
      (attempts post max_retries left attempt (current_key c) last_error c
                sent secs).
Proof.
  induction left as [|left IH]; intros attempt last_error c sent secs Hr Hn.
  - cbn [attempts]. now apply rotated_stop.
  - assert (Hnext : forall le pause,
              pause <= 2 ->
              rotated c sent secs (S left)
                (attempts post max_retries left (S attempt)
                   (current_key (_get_next_key c)) le (_get_next_key c)
                   (sent ++ [current_key c]) (secs + pause))).
    { intros le pause Hp. apply (rotated_step c sent secs pause); auto.
      apply IH; [now apply rotating_next|lia]. }
    assert (Hagain : forall le pause,
              pause <= 2 ->
              rotated c sent secs (S left)
                (if attempt <? max_retries - 1
                 then attempts post max_retries left (S attempt)
                        (current_key (_get_next_key c)) le (_get_next_key c)
                        (sent ++ [current_key c]) (secs + pause)
                 else attempts post max_retries left (S attempt)
                        (current_key c) le c (sent ++ [current_key c]) secs)).
    { intros le pause Hp.
      destruct (Nat.ltb_spec attempt (max_retries - 1)) as [Hlt|Hge];
        [now apply Hnext|].
      assert (left = 0) as -> by lia.
      apply rotated_last; [exact Hr|]. apply IH; [exact Hr|lia]. }
    cbn [attempts].
    destruct (post (current_key c) attempt) as [ch| | |code text| |msg].
    + now apply rotated_return.
    + specialize (Hnext last_error 0 ltac:(lia)).
      now rewrite Nat.add_0_r in Hnext.
    + apply Hnext. lia.
    + apply Hagain. lia.
    + apply Hagain. lia.
    + apply Hagain. lia.
Qed.

(** When every request is refused with 401 or 429, the loop goes through
    all the attempts that are left, never sets [last_error], and rotates
    once for each. *)
Lemma attempts_refused max_retries :
  (forall key attempt,
     post key attempt = Http401 \/ post key attempt = Http429) ->
  forall left attempt last_error c sent secs,
    exists r,
      attempts post max_retries left attempt (current_key c) last_error c
               sent secs = (Failed last_error, r) /\
      length (requests r) = length sent + left /\
      cursor (client_after r) = cursor c + left /\
      api_keys (client_after r) = api_keys c /\
      (current_key (client_after r)
       = match left with
         | O => current_key c
         | S _ => key_at (api_keys c) (cursor c + left - 1)
         end).
Proof.
  intros Hpost.
  induction left as [|left IH]; intros attempt last_error c sent secs.
  - cbn. eexists. split; [reflexivity|]. cbn. repeat split; lia.
  - cbn [attempts].
    assert (Hgo : forall pause,
      exists r,
        attempts post max_retries left (S attempt)
          (current_key (_get_next_key c)) last_error (_get_next_key c)
          (sent ++ [current_key c]) (secs + pause) = (Failed last_error, r) /\
        length (requests r) = length sent + S left /\
        cursor (client_after r) = cursor c + S left /\
        api_keys (client_after r) = api_keys c /\
        current_key (client_after r)
        = key_at (api_keys c) (cursor c + S left - 1)).
    { intros pause.
      destruct (IH (S attempt) last_error (_get_next_key c)
                  (sent ++ [current_key c]) (secs + pause))
        as (r & H1 & H2 & H3 & H4 & H5).
      exists r. split; [exact H1|]. rewrite H2, H3, H4, H5.
      rewrite length_app. cbn [_get_next_key cursor api_keys current_key length].
      repeat split; try lia.
      destruct left; [f_equal; lia|]. f_equal. lia. }
    destruct (Hpost (current_key c) attempt) as [-> | ->].
    + destruct (Hgo 0) as (r & H1 & H). rewrite Nat.add_0_r in H1. eauto.
    + apply Hgo.
Qed.

End MiniMaxFacts.

(** In one call of [chat_completion] every request uses the next key of
    the cycle: there are at most as many requests as keys, so no position
    of the list of keys is used twice, and at most two seconds are slept
    for each.  When the call returns, the key that was answered stays the
    current key for the next call. *)
Theorem chat_completion_tries_each_key_once
    (post : string -> nat -> MiniMax.http) (c : MiniMax.client) :
  MiniMax.rotating c ->
  length (MiniMax.requests (MiniMax.chat_completion post c).2)
  <= length (MiniMax.api_keys c) /\
  MiniMax.slept (MiniMax.chat_completion post c).2
  <= 2 * length (MiniMax.api_keys c) /\
  (forall j,
     j < length (MiniMax.requests (MiniMax.chat_completion post c).2) ->
     MiniMax.requests (MiniMax.chat_completion post c).2 !! j
     = Some (MiniMax.key_at (MiniMax.api_keys c)
               (MiniMax.cursor c - 1 + j))) /\
  MiniMax.rotating (MiniMax.client_after (MiniMax.chat_completion post c).2) /\
  (forall a,
     (MiniMax.chat_completion post c).1 = MiniMax.Returned a ->
     last (MiniMax.requests (MiniMax.chat_completion post c).2)
     = Some (MiniMax.current_key
               (MiniMax.client_after (MiniMax.chat_completion post c).2))).
Proof.
  intros Hr. unfold MiniMax.chat_completion.
  destruct (attempts_rotate post (length (MiniMax.api_keys c))
              (length (MiniMax.api_keys c)) 0 None c [] 0 Hr eq_refl)
    as (extra & H1 & H2 & H3 & H4 & H5 & H6 & H7).
  rewrite H1. cbn [app].
  split; [exact H2|]. split; [lia|]. split; [exact H4|].
  split; [exact H5|exact H7].
Qed.

Lemma chat_completion_tries_each_key_once_witness :
  MiniMax.requests
    (MiniMax.chat_completion Examples.first_key_limited Examples.two_keys).2
  !! 1 = Some "key-2" /\
  MiniMax.slept
    (MiniMax.chat_completion Examples.first_key_limited Examples.two_keys).2
  <= 4.
Proof.
  assert (Hr : MiniMax.rotating Examples.two_keys).
  { split; [discriminate|]. split; [cbn; lia|reflexivity]. }
  destruct (chat_completion_tries_each_key_once Examples.first_key_limited
              Examples.two_keys Hr) as (_ & Hslept & Hkeys & _).
  split; [|exact Hslept].
  apply (Hkeys 1). vm_compute. lia.
Defined.

(** When every request is refused with status 401 or 429, the call sends
    one request for each key, raises with [last_error] still [None] (the
    message ends in "None"), and has rotated once for each key, so that
    the current key is again the one it started with. *)
Theorem chat_completion_all_keys_refused
    (post : string -> nat -> MiniMax.http) (c : MiniMax.client) :
  MiniMax.rotating c ->
  (forall key attempt,
     post key attempt = MiniMax.Http401 \/
     post key attempt = MiniMax.Http429) ->
  (MiniMax.chat_completion post c).1 = MiniMax.Failed None /\
  length (MiniMax.requests (MiniMax.chat_completion post c).2)
  = length (MiniMax.api_keys c) /\
  MiniMax.current_key
    (MiniMax.client_after (MiniMax.chat_completion post c).2)
  = MiniMax.current_key c.
Proof.
  intros (Hk & Hc & Hcur) Hpost. unfold MiniMax.chat_completion.
  destruct (attempts_refused post (length (MiniMax.api_keys c)) Hpost
              (length (MiniMax.api_keys c)) 0 None c [] 0)
    as (r & -> & H2 & H3 & H4 & H5).
  cbn [fst snd]. repeat split; [exact H2|].
  rewrite H5, Hcur.
  destruct (MiniMax.api_keys c) as [|k ks] eqn:Hkeys; [contradiction|].
  cbn [length]. unfold MiniMax.key_at. f_equal. cbn [length].
  replace (MiniMax.cursor c + S (length ks) - 1)
    with (MiniMax.cursor c - 1 + 1 * S (length ks)) by lia.
  now rewrite Nat.Div0.mod_add.
Qed.

Lemma chat_completion_all_keys_refused_witness :
  (MiniMax.chat_completion Examples.every_key_refused Examples.two_keys).1
  = MiniMax.Failed None /\
  length (MiniMax.requests
            (MiniMax.chat_completion Examples.every_key_refused
                                     Examples.two_keys).2) = 2 /\
  MiniMax.current_key
    (MiniMax.client_after
       (MiniMax.chat_completion Examples.every_key_refused
                                Examples.two_keys).2) = "key-1".
Proof.
  apply (chat_completion_all_keys_refused Examples.every_key_refused
           Examples.two_keys).
  - split; [discriminate|]. split; [cbn; lia|reflexivity].
  - intros key attempt. left. reflexivity.
Defined.

(** A client is built exactly when some key is not empty, with the keys
    that are not empty, in order, and the first of them as current key; so
    the analyzer uses the remote classifier exactly when [USE_AI] holds,
    and never when the list of keys is empty. *)
Theorem client_needs_a_key (keys : list string) :
  (MiniMax.__init__ keys = None <-> MiniMax.USE_AI keys = false) /\
  (forall c,
     MiniMax.__init__ keys = Some c ->
     MiniMax.rotating c /\
     MiniMax.api_keys c = List.filter MiniMax.nonempty keys /\
     head (MiniMax.api_keys c) = Some (MiniMax.current_key c)) /\
  MiniMax.analyzer_use_ai keys = MiniMax.USE_AI keys /\
  MiniMax.analyzer_use_ai [] = false.
Proof.
  assert (Hempty : MiniMax.analyzer_use_ai [] = false) by reflexivity.
  split; [|split; [|split; [|exact Hempty]]];
    unfold MiniMax.analyzer_use_ai, MiniMax.__init__;
    pose proof (filter_nonempty_nil keys) as Hnil;
    destruct (List.filter MiniMax.nonempty keys) as [|k ks] eqn:Hf.
  - tauto.
  - split; [discriminate|]. intros Huse. apply Hnil in Huse. discriminate.
  - discriminate.
  - intros c [= <-]. unfold MiniMax.rotating, MiniMax.key_at.
    cbn [MiniMax.api_keys MiniMax.cursor MiniMax.current_key head].
    rewrite Nat.sub_diag, Nat.Div0.mod_0_l.
    split; [split; [discriminate|split; [lia|reflexivity]]|].
    split; reflexivity.
  - now rewrite (proj1 Hnil eq_refl).
  - now destruct (MiniMax.USE_AI keys).
Qed.

(** ** The report *)

Section ReportFacts.

Import Report.

Variable loads : string -> option (list string).
Variable order_by : list theme_row -> list theme_row.

(** The keys of the dicts that [query_top] builds. *)
Lemma theme_of_keys r d :
  theme_of loads r = Some d ->
  map fst d
  = [ "repo_name"; "full_name"; "description"; "category"; "use_case";
      "stars"; "forks"; "url"; "file_type"; "keywords"; "ai_description";
      "ai_features"; "errors"; "quality_score"; "freshness_days"; "status";
      "has_demo"; "demo_url"; "npm_package"; "license"; "tech_stack" ] /\
  get d "freshness_days" = Some (VInt (int_or (col_freshness_days r) 9999)).
Proof.
  unfold theme_of.
  destruct (json_list loads (col_keywords r)) as [kw|]; [|discriminate].
  destruct (json_list loads (col_ai_features r)) as [fs|]; [|discriminate].
  destruct (json_list loads (col_tech_stack r)) as [ts|]; [|discriminate].
  cbn. intros [= <-]. split; reflexivity.
Qed.

(** The f-string of the markdown report raises on every such dict. *)
Lemma theme_section_raises r d :
  theme_of loads r = Some d ->
  theme_section d = Raise (KeyError "ai_use_case").
Proof.
  unfold theme_of.
  destruct (json_list loads (col_keywords r)) as [kw|]; [|discriminate].
  destruct (json_list loads (col_ai_features r)) as [fs|]; [|discriminate].
  destruct (json_list loads (col_tech_stack r)) as [ts|]; [|discriminate].
  cbn. intros [= <-]. reflexivity.
Qed.

Lemma themes_of_each rows ds :
  themes_of loads rows = Some ds ->
  length ds = length rows /\
  forall d, d ∈ ds -> exists r, r ∈ rows /\ theme_of loads r = Some d.
Proof.
  revert ds. induction rows as [|r rows IH]; intros ds; cbn [themes_of].
  - intros [= <-]. split; [reflexivity|].
    intros d Hd. now apply elem_of_nil in Hd.
  - destruct (theme_of loads r) as [d0|] eqn:Hr; [|discriminate].
    destruct (themes_of loads rows) as [ds0|]; [|discriminate].
    cbn. intros [= <-]. destruct (IH ds0 eq_refl) as [Hlen Hall].
    split; [cbn; now rewrite Hlen|].
    intros d [->|Hd]%elem_of_cons.
    + exists r. split; [left|exact Hr].
    + destruct (Hall d Hd) as (r' & Hr' & Hd'). exists r'.
      split; [now right|exact Hd'].
Qed.

Lemma limit_subset {A : Type} top_n (l : list A) x :
  x ∈ limit top_n l -> x ∈ l.
Proof.
  unfold limit. destruct (top_n <? 0)%Z; [done|].
  intros H. now apply (subseteq_take (Z.to_nat top_n) l).
Qed.

Lemma limit_length {A : Type} top_n (l : list A) :
  (0 <= top_n)%Z -> length (limit top_n l) <= Z.to_nat top_n.
Proof.
  intros H. unfold limit.
  destruct (Z.ltb_spec top_n 0); [lia|]. rewrite length_take. lia.
Qed.

(** Every dict of [query_top] is the dict of a row. *)
Lemma query_top_each connects table category top_n min_stars fresh_only
    fresh_days d :
  d ∈ query_top loads order_by connects table category top_n min_stars
        fresh_only fresh_days ->
  exists r,
    r ∈ limit top_n
          (order_by
             (List.filter
                (selected category min_stars fresh_only fresh_days) table))
    /\ theme_of loads r = Some d.
Proof.
  unfold query_top. destruct connects; [|intros H; now apply elem_of_nil in H].
  destruct (themes_of loads _) as [ds|] eqn:Hds;
    [|intros H; now apply elem_of_nil in H].
  cbn. intros Hd. apply themes_of_each in Hds as [_ Hall]. now apply Hall.
Qed.

Lemma write_sections_raises themes written :
  (forall d, d ∈ themes -> exists r, theme_of loads r = Some d) ->
  write_sections themes written
  = (match themes with
     | [] => Ok tt
     | _ => Raise (KeyError "ai_use_case")
     end, written).
Proof.
  destruct themes as [|d themes]; [reflexivity|]. intros H.
  destruct (H d ltac:(left)) as (r & Hr).
  cbn [write_sections]. now rewrite (theme_section_raises r d Hr).
Qed.

Lemma insert_row_perm r l : insert_row r l ≡ₚ r :: l.
Proof.
  induction l as [|x l IH]; cbn [insert_row]; [done|].
  destruct (precedes x r); [|done].
  rewrite IH. apply Permutation_swap.
Qed.

Lemma sorted_rows_perm l : sorted_rows l ≡ₚ l.
Proof.
  unfold sorted_rows. induction l as [|x l IH]; cbn [foldr]; [done|].
  now rewrite insert_row_perm, IH.
Qed.

End ReportFacts.

(** [_export_results] writes the JSON file and the four opening lines of
    the markdown file, and never a section for a theme: the dicts of
    [query_top] have the key ['use_case'] and no key ['ai_use_case'], so
    the first theme raises [KeyError] before anything is written for it.
    The function returns only when [query_top] gave no theme. *)
Theorem export_never_lists_a_theme
    (loads : string -> option (list string))
    (order_by : list Report.theme_row -> list Report.theme_row)
    (connects : bool) (table : list Report.theme_row) (total_new : nat) :
  Report.themes_report_md
    (Report._export_results loads order_by connects table total_new).2
  = Report.md_header total_new (Report.count_rows connects table) /\
  Report.themes_report_json
    (Report._export_results loads order_by connects table total_new).2
  = Some (total_new, Report.count_rows connects table,
          Report.query_top loads order_by connects table None 100 3 false
                           730) /\
  (Report._export_results loads order_by connects table total_new).1
  = match Report.query_top loads order_by connects table None 100 3 false
                           730 with
    | [] => Ok tt
    | _ => Raise (KeyError "ai_use_case")
    end.
Proof.
  unfold Report._export_results.
  set (top := Report.query_top loads order_by connects table None 100 3
                               false 730).
  rewrite (write_sections_raises loads).
  - cbn [fst snd Report.themes_report_md Report.themes_report_json].
    repeat split. now destruct top.
  - intros d Hd. apply (subseteq_take 20 top) in Hd.
    apply query_top_each in Hd as (r & _ & Hr). eauto.
Qed.

(** [query_top] gives dicts of rows of the table that are valid, have at
    least [min_stars] stars and a status other than ['error'] (and the
    category asked for, if one is), at most [top_n] of them when [top_n]
    is not negative, and none when the database cannot be read.  In a
    dict, a freshness of 0 days is written as 9999. *)
Theorem query_top_selects_valid_rows
    (loads : string -> option (list string))
    (order_by : list Report.theme_row -> list Report.theme_row)
    (connects : bool) (table : list Report.theme_row)
    (category : option string) (top_n min_stars : Z) (fresh_only : bool)
    (fresh_days : Z) :
  (forall l, order_by l ≡ₚ l) ->
  (forall d,
     d ∈ Report.query_top loads order_by connects table category top_n
           min_stars fresh_only fresh_days ->
     exists r,
       r ∈ table /\
       Report.theme_of loads r = Some d /\
       Report.col_is_valid r = Some 1%Z /\
       (exists s, Report.col_stars r = Some s /\ (min_stars <= s)%Z) /\
       (exists s, Report.col_processing_status r = Some s /\ s <> "error") /\
       (forall c cs, category = Some (String c cs) ->
                     Report.col_category r = category) /\
       (Report.col_freshness_days r = Some 0%Z ->
        Report.get d "freshness_days" = Some (Report.VInt 9999))) /\
  ((0 <= top_n)%Z ->
   length (Report.query_top loads order_by connects table category top_n
             min_stars fresh_only fresh_days) <= Z.to_nat top_n) /\
  (connects = false ->
   Report.query_top loads order_by connects table category top_n min_stars
     fresh_only fresh_days = []).
Proof.
  intros Hperm. split; [|split].
  - intros d Hd. apply query_top_each in Hd as (r & Hr & Hd).
    apply limit_subset in Hr. rewrite Hperm in Hr.
    apply list_elem_of_In, filter_In in Hr as [Hin Hsel].
    exists r. split; [now apply list_elem_of_In|]. split; [exact Hd|].
    unfold Report.selected in Hsel.
    apply andb_prop in Hsel as [Hsel Hstatus].
    apply andb_prop in Hsel as [Hsel Hvalid].
    apply andb_prop in Hsel as [Hsel Hstars].
    apply andb_prop in Hsel as [Hcat _].
    split; [now apply bool_decide_eq_true in Hvalid|].
    split; [|split; [|split]].
    + destruct (Report.col_stars r) as [s|]; [|discriminate].
      exists s. split; [reflexivity|]. now apply Z.leb_le.
    + destruct (Report.col_processing_status r) as [s|]; [|discriminate].
      exists s. split; [reflexivity|].
      intros ->. discriminate.
    + intros c cs ->. now apply bool_decide_eq_true in Hcat.
    + intros Hf. destruct (theme_of_keys loads r d Hd) as [_ ->].
      now rewrite Hf.
  - intros Hn. unfold Report.query_top. destruct connects; [|cbn; lia].
    destruct (Report.themes_of loads _) as [ds|] eqn:Hds; [|cbn; lia].
    apply themes_of_each in Hds as [Hlen _]. simpl.
    rewrite Hlen. now apply limit_length.
  - now intros ->.
Qed.

Lemma query_top_selects_valid_rows_witness :
  length (Report.query_top Examples.loads Report.sorted_rows true
            [Examples.fresh_row; Examples.fresh_row] None 1 3 false 730)
  <= 1.
Proof.
  refine (proj1 (proj2 (query_top_selects_valid_rows Examples.loads
            Report.sorted_rows true [Examples.fresh_row; Examples.fresh_row]
            None 1 3 false 730 sorted_rows_perm)) _).
  lia.
Defined.

(** ** The analysis of the files *)

Section FilesFacts.

Import Files.

Lemma file_type_of_cases s :
  file_type_of s
  ∈ [ "jsonresume_theme"; "mermaid_theme"; "chartjs_related"; "react_flow";
      "d3_visualization"; "recharts"; "general" ].
Proof.
  unfold file_type_of.
  repeat match goal with
         | |- context [if ?b then _ else _] => destruct b
         end;
    apply list_elem_of_In; cbn; tauto.
Qed.

Lemma file_type_of_known s : String.eqb (file_type_of s) "unknown" = false.
Proof.
  unfold file_type_of.
  repeat match goal with
         | |- context [if ?b then _ else _] => destruct b
         end; reflexivity.
Qed.

Lemma has_char_app c s t :
  has_char c (s +:+ t) = has_char c s || has_char c t.
Proof.
  induction s as [|d s IH]; simpl; [reflexivity|].
  rewrite IH. now rewrite orb_assoc.
Qed.

(** What follows the last separator. *)
Lemma last_segment_app sep s t :
  has_char sep t = false ->
  last_segment sep (s +:+ String sep t) = t.
Proof.
  intros Ht. induction s as [|c s IH]; simpl.
  - rewrite Ht. now rewrite Ascii.eqb_refl.
  - rewrite has_char_app. simpl. rewrite Ascii.eqb_refl.
    rewrite orb_true_r. exact IH.
Qed.

Lemma run_match_long run w : w ∈ run_match run -> 4 <= String.length w.
Proof.
  unfold run_match. destruct (Nat.leb_spec 4 (String.length run)) as [Hl|Hl].
  - intros ->%list_elem_of_singleton. assumption.
  - intros Hw. now apply elem_of_nil in Hw.
Qed.

(** Every match has four characters or more. *)
Lemma words_from_long s :
  forall run w, w ∈ words_from run s -> 4 <= String.length w.
Proof.
  induction s as [|c s IH]; intros run w; cbn [words_from].
  - apply run_match_long.
  - destruct (is_word c); [apply IH|].
    intros [H|H]%elem_of_app; [now apply run_match_long in H|].
    now apply IH in H.
Qed.

(** With files, the result is valid exactly when it has a technology. *)
Lemma is_valid_iff order files repo_info :
  files <> [] ->
  is_valid (analyze_files order files repo_info) = true <->
  tech_stack (analyze_files order files repo_info) <> [].
Proof.
  intros Hfiles. destruct files as [|f files]; [contradiction|].
  unfold analyze_files. cbn [is_valid tech_stack].
  rewrite file_type_of_known. cbn [negb length Nat.ltb Nat.leb].
  rewrite andb_true_r. cbn [andb].
  match goal with |- context [order ?s] => destruct (order s) end;
    cbn; split; (discriminate || contradiction || done).
Qed.

End FilesFacts.

(** [analyze_files] on a list of files that is not empty never leaves the
    type ['unknown'] and sets no error, so a repo is valid exactly when
    some technology was found in its file names.  The technologies are
    keys of [TECH_KEYWORDS], each once; there are at most 15 keywords, each
    of four characters or more.  On no files at all the result says
    ['No files found'] and is not valid. *)
Theorem valid_means_some_tech_found
    (order : gset string -> list string) (files : list file_json)
    (repo_info : entry) :
  (forall s, order s ≡ₚ elements s) ->
  (files <> [] ->
   an_error (Files.analyze_files order files repo_info) = "" /\
   file_type (Files.analyze_files order files repo_info)
   ∈ [ "jsonresume_theme"; "mermaid_theme"; "chartjs_related"; "react_flow";
       "d3_visualization"; "recharts"; "general" ] /\
   (is_valid (Files.analyze_files order files repo_info) = true <->
    tech_stack (Files.analyze_files order files repo_info) <> []) /\
   NoDup (tech_stack (Files.analyze_files order files repo_info)) /\
   (forall t, t ∈ tech_stack (Files.analyze_files order files repo_info) ->
              t ∈ map fst Files.TECH_KEYWORDS) /\
   length (keywords (Files.analyze_files order files repo_info)) <= 15 /\
   (forall w, w ∈ keywords (Files.analyze_files order files repo_info) ->
              4 <= String.length w)) /\
  (files = [] ->
   an_error (Files.analyze_files order files repo_info) = "No files found" /\
   is_valid (Files.analyze_files order files repo_info) = false /\
   file_type (Files.analyze_files order files repo_info) = "unknown").
Proof.
  intros Horder. split; [|now intros ->].
  intros Hfiles. destruct files as [|f files]; [contradiction|].
  unfold Files.analyze_files.
  cbn [an_error file_type is_valid tech_stack keywords].
  set (fs := f :: files).
  set (sample := Str.lower (Str.join " " (map file_name (take 20 fs)))).
  match goal with
  | |- context [order (list_to_set (?a ++ ?b))] =>
      set (by_keyword := a); set (by_extension := b)
  end.
  set (techs := order (list_to_set (by_keyword ++ by_extension))).
  split; [reflexivity|]. split; [apply file_type_of_cases|].
  split; [|split; [|split; [|split]]].
  - apply (is_valid_iff order fs repo_info). discriminate.
  - subst techs. rewrite Horder. apply NoDup_elements.
  - intros t Ht. subst techs. rewrite Horder in Ht.
    apply elem_of_elements, elem_of_list_to_set, elem_of_app in Ht
      as [Ht|Ht].
    + subst by_keyword. apply list_elem_of_fmap in Ht as (rule & -> & Hr).
      apply list_elem_of_fmap. exists rule. split; [reflexivity|].
      apply list_elem_of_In in Hr. apply list_elem_of_In.
      now apply filter_In in Hr.
    + subst by_extension.
      repeat match type of Ht with
             | context [if ?b then _ else _] => destruct b
             end;
        repeat (apply elem_of_app in Ht as [Ht|Ht] || cbn in Ht);
        repeat (apply elem_of_cons in Ht as [->|Ht];
                [apply list_elem_of_In; cbn; tauto|]);
        try (now apply elem_of_nil in Ht).
  - rewrite length_take. lia.
  - intros w Hw. apply (subseteq_take 15) in Hw.
    rewrite Horder in Hw.
    apply elem_of_elements, elem_of_list_to_set in Hw.
    now apply words_from_long in Hw.
Qed.

Lemma valid_means_some_tech_found_witness :
  is_valid (Files.analyze_files elements [mkFileJson "LICENSE"]
              (entry_of (Fetcher.repo_info_of Scenario.A))) = true <->
  tech_stack (Files.analyze_files elements [mkFileJson "LICENSE"]
                (entry_of (Fetcher.repo_info_of Scenario.A))) <> [].
Proof.
  refine (proj1 (proj2 (proj2 (proj1 (valid_means_some_tech_found elements
            [mkFileJson "LICENSE"]
            (entry_of (Fetcher.repo_info_of Scenario.A)) _) _)))).
  - intros s. reflexivity.
  - discriminate.
Defined.

(** A file whose name ends in [.ts], in any case, makes the repo a
    TypeScript repo and so a valid one, wherever the file is in the
    listing. *)
Theorem ts_file_makes_repo_valid
    (order : gset string -> list string) (files : list file_json)
    (repo_info : entry) (f : file_json) (stem : string) :
  (forall s, order s ≡ₚ elements s) ->
  f ∈ files ->
  Str.lower (file_name f) = stem +:+ ".ts" ->
  "typescript" ∈ tech_stack (Files.analyze_files order files repo_info) /\
  is_valid (Files.analyze_files order files repo_info) = true.
Proof.
  intros Horder Hf Hname.
  assert (Htech : "typescript"
                  ∈ tech_stack (Files.analyze_files order files repo_info)).
  { destruct files as [|f0 files]; [now apply elem_of_nil in Hf|].
    unfold Files.analyze_files. cbn [tech_stack].
    set (fs := f0 :: files) in *.
    rewrite Horder.
    apply elem_of_elements, elem_of_list_to_set, elem_of_app. right.
    assert (Hts : "ts" ∈ (list_to_set
                (map (Files.last_segment ".")
                   (List.filter (Files.has_char ".")
                      (map (fun f => Str.lower (file_name f)) fs)))
                : gset string)).
    { apply elem_of_list_to_set, list_elem_of_fmap.
      exists (stem +:+ ".ts"). split.
      - symmetry. now apply (last_segment_app "." stem "ts").
      - apply list_elem_of_In, filter_In. split.
        + apply list_elem_of_In, list_elem_of_fmap. exists f.
          split; [now rewrite Hname|exact Hf].
        + rewrite has_char_app. cbn. apply orb_true_r. }
    rewrite (bool_decide_eq_true_2 _ Hts). cbn [orb app]. left. }
  split; [exact Htech|].
  apply is_valid_iff.
  - intros ->. now apply elem_of_nil in Hf.
  - intros Hnil. rewrite Hnil in Htech. now apply elem_of_nil in Htech.
Qed.

Lemma ts_file_makes_repo_valid_witness :
  "typescript"
  ∈ tech_stack (Files.analyze_files elements
                  [mkFileJson "README.md"; mkFileJson "Index.TS"]
                  (entry_of (Fetcher.repo_info_of Scenario.A))) /\
  is_valid (Files.analyze_files elements
              [mkFileJson "README.md"; mkFileJson "Index.TS"]
              (entry_of (Fetcher.repo_info_of Scenario.A))) = true.
Proof.
  apply (ts_file_makes_repo_valid elements
           [mkFileJson "README.md"; mkFileJson "Index.TS"]
           (entry_of (Fetcher.repo_info_of Scenario.A))
           (mkFileJson "Index.TS") "index").
  - intros s. reflexivity.
  - apply list_elem_of_further, list_elem_of_here.
  - reflexivity.
Defined.

(** ** The rows that a batch writes *)

Section RowFacts.

Import Fetcher Agent Batch Inv.

Variable E : env.
Variable C : Config.

(** A row of the table after the inserts was there before or is one of
    the rows inserted. *)
Lemma insert_rows_lookup (d : gmap string Store.row) rows n row :
  foldl Store.insert_or_replace d rows !! n = Some row ->
  d !! n = Some row \/ (row ∈ rows /\ Store.row_full_name row = n).
Proof.
  revert d. induction rows as [|r rows IH]; intros d; cbn [foldl]; [auto|].
  intros H. apply IH in H as [H|[H1 H2]].
  - unfold Store.insert_or_replace in H.
    destruct (decide (Store.row_full_name r = n)) as [<-|Hne].
    + rewrite lookup_insert_eq in H. injection H as <-.
      right. split; [left|reflexivity].
    + rewrite lookup_insert_ne in H by exact Hne. now left.
  - right. split; [now right|exact H2].
Qed.

Lemma rows_of_elem es rows row :
  Store.rows_of es = Ok rows -> row ∈ rows ->
  exists e, e ∈ es /\ Store.row_of e = Ok row.
Proof.
  revert rows. induction es as [|e es IH]; intros rows; cbn [Store.rows_of].
  - intros [= <-] H. now apply elem_of_nil in H.
  - destruct (Store.row_of e) as [r|] eqn:He; [|discriminate].
    destruct (Store.rows_of es) as [rs|]; [|discriminate].
    intros [= <-] [->|H]%elem_of_cons.
    + exists e. split; [left|exact He].
    + destruct (IH rs eq_refl H) as (e' & He' & Hr). exists e'.
      split; [now right|exact Hr].
Qed.

(** The status of a dict that has gone through "Update status" follows
    its validity. *)
Lemma row_of_update_status e row :
  Store.row_of (update_status e) = Ok row ->
  Store.row_processing_status row
  = (if Store.row_is_valid row then "scraped_valid" else "scraped_invalid")
  /\ Store.row_category row = default "other" (category <$> categorised e).
Proof.
  unfold update_status, Store.row_of.
  destruct (default false (is_valid <$> analysed e)) eqn:Hv;
    cbn [info set_processing_status];
    (destruct (info e) as [r|]; [|discriminate]);
    intros [= <-]; cbn; rewrite Hv; auto.
Qed.

End RowFacts.

(** Every row that [_process_batch] writes has the status
    ['scraped_valid'] or ['scraped_invalid'], as its column [is_valid]
    says: no other status of the pipeline reaches the table.  The row is
    under the name of a repo of the batch, and with the local classifier
    its category is one of [Config.CATEGORIES].  The other rows stay as
    they were. *)
Theorem stored_status_follows_validity
    (E : Agent.env) (C : Agent.Config) (batch : list Fetcher.repo_info)
    (processed : gset string) (w : Agent.world) (n : string)
    (row : Store.row) :
  Agent.db (Agent._process_batch E C batch processed w).2 !! n = Some row ->
  Agent.db w !! n = Some row \/
  (n ∈ map Fetcher.full_name batch /\
   Store.row_full_name row = n /\
   Store.row_processing_status row
   = (if Store.row_is_valid row then "scraped_valid"
      else "scraped_invalid") /\
   (Agent.use_ai C = false ->
    Store.row_category row ∈ Categories.CATEGORIES)).
Proof.
  unfold Agent._process_batch.
  pose proof (analysed_carries E batch) as Hc.
  set (es := map (Agent.analyze E) (map (Agent.fetch_repo_files E) batch))
    in *.
  set (vs := map Agent.update_status (Agent.categorize E C es)).
  destruct vs as [|v vs'] eqn:Hvs.
  { cbn. auto. }
  rewrite <- Hvs.
  rewrite save_to_database_cons by (rewrite Hvs; discriminate).
  rewrite batch_insert_or_update_cons by (rewrite Hvs; discriminate).
  cbn [Agent.log Agent.db Agent.db_calls].
  destruct (Agent.db_fails E (Agent.db_calls w)).
  { cbn. auto. }
  destruct (Store.rows_of vs) as [rows|x] eqn:Hrows.
  2:{ cbn. auto. }
  cbn [fst snd].
  destruct (Agent.update_processed vs processed 0) as [r P'].
  cbn [snd Agent.db].
  intros Hrow. apply insert_rows_lookup in Hrow as [Hold|[Hin Hname]];
    [now left|right].
  pose proof (rows_of_names _ _ Hrows) as Hnames.
  destruct (rows_of_elem _ _ _ Hrows Hin) as (e & He & Hrow).
  subst vs. apply list_elem_of_fmap in He as (e1 & -> & He1).
  apply row_of_update_status in Hrow as [Hstatus Hcat].
  split; [|split; [exact Hname|split; [exact Hstatus|]]].
  - destruct (categorize_cases E C _ _ Hc) as [Hk|Hbare].
    + apply (carries_map Agent.update_status) in Hk;
        [|apply update_status_info].
      rewrite <- (carries_names _ _ Hk), <- Hnames, <- Hname.
      now apply list_elem_of_fmap_2.
    + rewrite Hbare in Hrows.
      destruct es as [|e0 es0];
        [rewrite Hbare in He1; now apply elem_of_nil in He1|].
      destruct (bare_rows (e0 :: es0) ltac:(discriminate)) as (k & Hk).
      rewrite Hk in Hrows. discriminate.
  - intros Hai. rewrite Hcat. unfold Agent.categorize in He1.
    rewrite Hai in He1. apply list_elem_of_fmap in He1 as (e0 & -> & _).
    cbn. apply heuristic_in_categories.
Qed.

Lemma stored_status_follows_validity_witness :
  (∅ : gmap string Store.row) !! "acme/A" = Some Examples.stored_A \/
  ("acme/A" ∈ ["acme/A"] /\
   Store.row_full_name Examples.stored_A = "acme/A" /\
   Store.row_processing_status Examples.stored_A = "scraped_valid" /\
   (false = false -> Store.row_category Examples.stored_A
                     ∈ Categories.CATEGORIES)).
Proof.
  apply (stored_status_follows_validity (Scenario.env false None)
           (Scenario.config 30 false) [Fetcher.repo_info_of Scenario.A] ∅
           (Agent.mkWorld ∅ Checkpoint.Missing [] 0 0 0) "acme/A"
           Examples.stored_A).
  vm_compute. reflexivity.
Defined.

Section RunCovered.

Import Fetcher Agent Batch Inv Keeping.

Variable E : env.
Variable C : Config.
Variable P0 : gset string.

(** [covered] stays when the table only gains names, [processed] stays
    within them, and the new events are no saves of other names. *)
Lemma covered_step st P' w' evs :
  covered P0 st ->
  dom (db (outside st)) ⊆ dom (db w') ->
  P' ⊆ P0 ∪ dom (db w') ->
  trace w' = trace (outside st) ++ evs ->
  (forall l q io n, Save l q io ∈ evs -> n ∈ l -> n ∈ P0 \/ n ∈ dom (db w')) ->
  covered P0 (mkState P' (total_new st) w').
Proof.
  intros [H1 H2] Hdb HP Htr Hevs. split; cbn [processed outside]; [exact HP|].
  intros l q io n Hs Hn. rewrite Htr in Hs.
  apply elem_of_app in Hs as [Hs|Hs]; [|eauto].
  destruct (H2 l q io n Hs Hn); [now left|right]. set_solver.
Qed.

Lemma covered_read (b : list repo_info) st set w :
  covered P0 st -> read_flag E (outside st) = (set, w) ->
  covered P0 (mkState (processed st) (total_new st) w).
Proof.
  intros H Hr. apply read_flag_trace in Hr as (Ht & Hd & _).
  apply (covered_step st _ _ (if set then [ShutdownSeen] else []) H);
    rewrite ?Hd; try done; [apply H|].
  intros l q io n Hs. destruct set;
    [apply list_elem_of_singleton in Hs; discriminate
    |now apply elem_of_nil in Hs].
Qed.

Lemma covered_push (b : list repo_info) st w r :
  covered P0 st -> read_flag E (outside st) = (false, w) ->
  full_name r ∉ processed st ->
  covered P0
    (mkState (processed st) (total_new st) (log [Batched (full_name r)] w)).
Proof.
  intros H Hr _. pose proof (covered_read b _ _ _ H Hr) as H'.
  apply (covered_step _ _ _ [Batched (full_name r)] H');
    cbn [outside log db trace processed]; try done; [apply H'|].
  intros l q io n Hs. apply list_elem_of_singleton in Hs. discriminate.
Qed.

Lemma covered_outcome b st r P' w' :
  covered P0 st ->
  batch_outcome E b (processed st) (outside st) r P' w' ->
  covered P0 (mkState P' (total_new st) w').
Proof.
  intros H Ho. pose proof H as [H1 _].
  destruct Ho as [->|ns Hb Hns|db' Hb Hf Hdom];
    eapply (covered_step st); try exact H; cbn [db trace]; try done;
    try (rewrite Hdom; set_solver);
    unfold batch_events; intros l q io n Hs;
    rewrite elem_of_app, elem_of_cons, list_elem_of_fmap in Hs;
    destruct Hs as [(x & [=] & _)|[[=]|Hs]];
    try (now apply elem_of_nil in Hs);
    apply list_elem_of_singleton in Hs; discriminate.
Qed.

Lemma covered_process b st r st' :
  covered P0 st -> process E C b st = (r, st') -> covered P0 st'.
Proof.
  intros H Hp. apply process_outcome in Hp as (r0 & Ho & _).
  pose proof (covered_outcome _ _ _ _ _ H Ho) as Hk.
  destruct st' as [P' tn w']. cbn [processed outside] in *.
  destruct Hk as [K1 K2]. split; assumption.
Qed.

Lemma covered_save qu sp q st :
  covered P0 st -> covered P0 (checkpoint_save E qu sp q st).
Proof.
  intros H. pose proof H as [H1 _]. unfold checkpoint_save.
  eapply (covered_step st); try exact H; cbn [db trace]; try done.
  intros l q' io n Hs Hn.
  apply list_elem_of_singleton in Hs. injection Hs as -> _ _.
  apply elem_of_elements in Hn. apply H1 in Hn.
  now apply elem_of_union in Hn.
Qed.

Lemma queries_loop_covered qu sp lim qi qs st r st' :
  covered P0 st ->
  queries_loop E C qu sp lim qi qs st = (r, st') ->
  covered P0 st'.
Proof.
  intros H0 Hloop.
  pose proof (queries_loop_rule E C qu sp (fun _ st => covered P0 st)
                (fun _ st => covered P0 st)) as Hrule.
  specialize (Hrule covered_read covered_push).
  specialize (Hrule
    ltac:(intros b s s' _ Hs Hp; exact (covered_process _ _ _ _ Hs Hp))).
  specialize (Hrule ltac:(intros q s Hs; now apply covered_save)).
  specialize (Hrule
    ltac:(intros b s s' e _ Hs Hp; exact (covered_process _ _ _ _ Hs Hp))).
  specialize (Hrule ltac:(intros b s e Hs; exact Hs)).
  specialize (Hrule _ _ _ _ _ _ H0 Hloop). now destruct r.
Qed.

End RunCovered.

(** A checkpoint never runs ahead of the table.  Every name in a list
    that a run saves, at a full batch or at the end, was in the processed
    set that the run started with or has a row in the table: the
    transaction of a batch is committed before its names are marked and
    saved. *)
Theorem checkpoint_lists_only_stored_repos
    (E : Agent.env) (C : Agent.Config) (db0 : gmap string Store.row)
    (ckpt0 : Checkpoint.file) (max_repos : option nat) (resume : bool)
    (custom_query : option string)
    (l : list string) (q : nat) (io : Checkpoint.write_outcome) (n : string) :
  Agent.Save l q io
  ∈ Agent.trace (Agent.outside (Agent.final
      (Agent.run E C db0 ckpt0 max_repos resume custom_query))) ->
  n ∈ l ->
  n ∈ Inv.initial_processed resume ckpt0 \/
  n ∈ dom (Agent.db (Agent.outside (Agent.final
        (Agent.run E C db0 ckpt0 max_repos resume custom_query)))).
Proof.
  destruct (run_unfold E C db0 ckpt0 max_repos resume custom_query)
    as (qu & sp & lim & qi & qs & r & st & Hloop & ->).
  cbn [Agent.final].
  assert (H0 : Keeping.covered (Inv.initial_processed resume ckpt0)
                 (Agent.mkState (Inv.initial_processed resume ckpt0) 0
                    (Agent.mkWorld db0 ckpt0 [] 0 0 0))).
  { split; cbn; [set_solver|].
    intros l' q' io' n' Hs. now apply elem_of_nil in Hs. }
  pose proof (queries_loop_covered E C _ _ _ _ _ _ _ _ _ H0 Hloop) as Hk.
  apply (covered_save E _ qu sp (length qs)) in Hk as [_ Hk].
  apply Hk.
Qed.

Lemma checkpoint_lists_only_stored_repos_witness :
  "acme/A" ∈ Inv.initial_processed true Checkpoint.Missing \/
  "acme/A" ∈ dom (Agent.db (Agent.outside (Agent.final
      (Agent.run (Scenario.env false None) (Scenario.config 1 false) ∅
         Checkpoint.Missing None true None)))).
Proof.
  apply (checkpoint_lists_only_stored_repos (Scenario.env false None)
           (Scenario.config 1 false) ∅ Checkpoint.Missing None true None
           ["acme/A"] 0 Checkpoint.Written "acme/A").
  - assert (Htr : Agent.trace (Agent.outside (Agent.final
              (Agent.run (Scenario.env false None) (Scenario.config 1 false)
                 ∅ Checkpoint.Missing None true None)))
            = [Agent.Batched "acme/A"; Agent.Enrich "acme/A";
               Agent.Classify ["acme/A"]; Agent.Upsert ["acme/A"];
               Agent.Save ["acme/A"] 0 Checkpoint.Written;
               Agent.Batched "acme/B"; Agent.Enrich "acme/B";
               Agent.Classify ["acme/B"]; Agent.Upsert ["acme/B"];
               Agent.Save ["acme/A"; "acme/B"] 0 Checkpoint.Written;
               Agent.Save ["acme/A"; "acme/B"] 1 Checkpoint.Written])
      by (vm_compute; reflexivity).
    rewrite Htr. do 4 apply list_elem_of_further. apply list_elem_of_here.
  - apply list_elem_of_here.
Defined.

Section RunBudget.

Import Fetcher Agent Batch Inv Keeping.

Variable E : env.
Variable C : Config.

Lemma batched_app tr evs : batched (tr ++ evs) = batched tr ++ batched evs.
Proof. apply omap_app. Qed.

Lemma batched_batch_events ns ev :
  (forall n, ev <> Batched n) -> batched (batch_events ns [ev]) = [].
Proof.
  intros Hev. unfold batch_events. rewrite batched_app.
  assert (H : batched (map Enrich ns) = []) by now induction ns.
  rewrite H. cbn. destruct ev; try reflexivity. now destruct (Hev name).
Qed.

Lemma batched_read w set w' :
  read_flag E w = (set, w') -> batched (trace w') = batched (trace w).
Proof.
  intros Hr. apply read_flag_trace in Hr as (-> & _).
  rewrite batched_app. destruct set; cbn; now rewrite app_nil_r.
Qed.

Lemma batched_process b st r st' :
  b <> [] -> process E C b st = (r, st') ->
  batched (trace (outside st')) = batched (trace (outside st)).
Proof.
  intros Hb Hp. apply process_outcome in Hp as (r0 & Ho & _).
  destruct Ho as [->|ns Hb' Hns|db' Hb' Hf Hdom]; [contradiction|..];
    cbn [trace]; rewrite batched_app, batched_batch_events;
    try apply app_nil_r; discriminate.
Qed.

Lemma batched_save qu sp q st :
  batched (trace (outside (checkpoint_save E qu sp q st)))
  = batched (trace (outside st)).
Proof.
  unfold checkpoint_save. cbn [outside trace].
  rewrite batched_app. cbn. apply app_nil_r.
Qed.

(** The loop over the stream puts at most one repo in a batch for each
    dict that the stream yields. *)
Lemma consume_budget qu sp q items :
  forall b st l b' st',
    consume E C qu sp q items b st = (l, b', st') ->
    length (batched (trace (outside st')))
    <= length (batched (trace (outside st))) + length items.
Proof.
  induction items as [|r items IH]; intros b st l b' st'; cbn [consume].
  - intros [= <- <- <-]. lia.
  - destruct (read_flag E (outside st)) as [set w] eqn:Hread.
    apply batched_read in Hread. apply (f_equal length) in Hread.
    cbn [processed total_new outside length].
    destruct set; [intros [= <- <- <-]; cbn [outside]; lia|].
    destruct (decide (full_name r ∈ processed st)).
    { intros H. apply IH in H. cbn [outside] in H. lia. }
    assert (Hpush : length (batched (trace (log [Batched (full_name r)] w)))
                    = S (length (batched (trace (outside st))))).
    { unfold log. cbn [trace]. rewrite batched_app, length_app, Hread.
      cbn. lia. }
    destruct (BATCH_SIZE C <=? length (b ++ [r])).
    + destruct (process E C (b ++ [r]) _) as [[[]|e] st1] eqn:Hproc;
        apply batched_process in Hproc; try (now destruct b);
        apply (f_equal length) in Hproc; cbn [outside] in Hproc.
      * intros H. apply IH in H. rewrite batched_save in H. lia.
      * intros [= <- <- <-]. lia.
    + intros H. apply IH in H. cbn [outside] in H. lia.
Qed.

Lemma process_rest_budget b st r st' :
  process_rest E C b st = (r, st') ->
  batched (trace (outside st')) = batched (trace (outside st)).
Proof.
  destruct b as [|r0 b]; cbn [process_rest].
  - now intros [= <- <-].
  - now apply batched_process.
Qed.

Lemma scrape_query_budget qu sp q lim query st r st' :
  scrape_query E C qu sp q lim query st = (r, st') ->
  length (batched (trace (outside st')))
  <= length (batched (trace (outside st))) + lim.
Proof.
  unfold scrape_query.
  destruct (discover_repos_stream _ _ _ _) as [items ending] eqn:Hd.
  assert (Hlen : length items <= lim).
  { unfold discover_repos_stream in Hd.
    apply queries_loop_ends in Hd as [_ Hd]; lia. }
  destruct (consume _ _ _ _ _ items [] st) as [[l b1] st1] eqn:Hcons.
  apply consume_budget in Hcons.
  destruct l as [| |e].
  - destruct ending as [|e|].
    + intros H. apply process_rest_budget in H. rewrite H. lia.
    + intros [= <- <-]. lia.
    + intros H. apply process_rest_budget in H. rewrite H. lia.
  - intros H. apply process_rest_budget in H. rewrite H. lia.
  - intros [= <- <-]. lia.
Qed.

Lemma queries_loop_budget qu sp lim qs :
  forall q st r st',
    queries_loop E C qu sp lim q qs st = (r, st') ->
    length (batched (trace (outside st')))
    <= length (batched (trace (outside st))) + length qs * lim.
Proof.
  induction qs as [|query qs IH]; intros q st r st'; cbn [queries_loop].
  - intros [= <- <-]. lia.
  - destruct (read_flag E (outside st)) as [set w] eqn:Hread.
    apply batched_read in Hread. apply (f_equal length) in Hread.
    cbn [processed total_new outside length].
    destruct set; [intros [= <- <-]; cbn [outside]; lia|].
    destruct (scrape_query _ _ _ _ _ _ _ _) as [[[]|e] st1] eqn:Hq;
      apply scrape_query_budget in Hq; cbn [outside] in Hq.
    + intros H. apply IH in H. lia.
    + intros [= <- <-]. lia.
Qed.

(** [run] is the loop over the queries that are left, each with the same
    share of [max_repos], followed by the last save. *)
Lemma run_as_loop db0 ckpt0 max_repos resume custom_query :
  exists qu sp qi r st,
    queries_loop E C qu sp
      (match max_repos with
       | Some (S n) => S n
       | _ => MAX_REPOS C
       end / length (match custom_query with
                     | Some (String c s) => [String c s]
                     | _ => DEFAULT_QUERIES C
                     end))
      qi
      (drop qi (match custom_query with
                | Some (String c s) => [String c s]
                | _ => DEFAULT_QUERIES C
                end))
      (mkState (initial_processed resume ckpt0) 0
               (mkWorld db0 ckpt0 [] 0 0 0)) = (r, st) /\
    final (run E C db0 ckpt0 max_repos resume custom_query)
    = checkpoint_save E qu sp
        (length (match custom_query with
                 | Some (String c s) => [String c s]
                 | _ => DEFAULT_QUERIES C
                 end)) st.
Proof.
  unfold run, initial_processed.
  destruct (if resume then Checkpoint.load ckpt0 else (∅, ∅, 0, ∅))
    as [[[P0 sp] qi] qu] eqn:Hload.
  assert (HP0 : (if resume then (Checkpoint.load ckpt0).1.1.1 else ∅) = P0).
  { destruct resume; [now rewrite Hload|now injection Hload]. }
  rewrite HP0.
  match goal with
  | |- context [queries_loop E C qu sp ?lim qi ?qs ?s] =>
      destruct (queries_loop E C qu sp lim qi qs s) as [r st] eqn:Hloop
  end.
  exists qu, sp, qi, r, st. split; [exact Hloop|reflexivity].
Qed.

End RunBudget.

(** A run puts at most [max_repos] repos in batches ([MAX_REPOS] when the
    argument is missing or 0): each query gets the share
    [max_repos // len(queries)] of the budget, and no query puts more
    repos in batches than its stream yields. *)
Theorem run_respects_max_repos
    (E : Agent.env) (C : Agent.Config) (db0 : gmap string Store.row)
    (ckpt0 : Checkpoint.file) (max_repos : option nat) (resume : bool)
    (custom_query : option string) :
  length (Keeping.batched
            (Agent.trace (Agent.outside (Agent.final
               (Agent.run E C db0 ckpt0 max_repos resume custom_query)))))
  <= match max_repos with
     | Some (S n) => S n
     | _ => Agent.MAX_REPOS C
     end.
Proof.
  destruct (run_as_loop E C db0 ckpt0 max_repos resume custom_query)
    as (qu & sp & qi & r & st & Hloop & ->).
  rewrite batched_save. apply queries_loop_budget in Hloop.
  cbn [Agent.outside Agent.trace Keeping.batched omap list_omap length]
    in Hloop.
  set (M := match max_repos with Some (S n) => S n | _ => Agent.MAX_REPOS C
            end) in *.
  set (Q := match custom_query with
            | Some (String c s) => [String c s]
            | _ => Agent.DEFAULT_QUERIES C
            end) in *.
  assert (Hdrop : length (drop qi Q) <= length Q)
    by (rewrite length_drop; lia).
  pose proof (Nat.Div0.mul_div_le M (length Q)) as Hdiv.
  nia.
Qed.

(** ** The fetcher behind the gate *)

Section GatedFacts.

Import RateGate Fetcher.

Variable quota : Z -> probe_reply.
Variable search : string -> nat -> nat -> response search_body.

(** A healthy gate lets the call through and stays healthy. *)
Lemma check_healthy depth (g : Gated.gate) :
  Gated.healthy quota g ->
  exists g', check_and_wait quota (S depth) g.1 g.2 = Returned g' /\
             Gated.healthy quota g'.
Proof.
  destruct g as [rl w]. intros (Hl & Hp & Hq). cbn [fst snd] in *.
  rewrite check_and_wait_cases by assumption.
  destruct (Z.ltb_spec 100 (remaining rl)) as [Hr|Hr].
  - rewrite orb_true_r. eexists. split; [reflexivity|].
    split; [reflexivity|]. split; [exact Hp|now left].
  - destruct Hq as [Hq|Hq]; [lia|]. rewrite orb_false_r.
    destruct (negb _).
    + eexists. split; [reflexivity|].
      split; [reflexivity|]. split; [exact Hp|now right].
    + destruct (quota (clock w)) as [rem rst|s|] eqn:Hrep.
      * specialize (Hq _ _ _ Hrep) as Hrem.
        destruct (Z.ltb_spec rem 50) as [|_]; [lia|].
        eexists. split; [reflexivity|].
        split; [reflexivity|]. split; [exact Hp|now right].
      * eexists. split; [reflexivity|].
        split; [reflexivity|]. split; [exact Hp|now right].
      * eexists. split; [reflexivity|].
        split; [reflexivity|]. split; [exact Hp|now right].
Qed.

Lemma healthy_sleep sec (g : Gated.gate) :
  Gated.healthy quota g -> Gated.healthy quota (g.1, sleep sec g.2).
Proof. now intros H. Qed.

(** Behind a healthy gate the attempts are those of the requests. *)
Lemma attempts_healthy {A : Type} depth (get : nat -> response A) :
  forall left k g,
    Gated.healthy quota g ->
    exists g',
      Gated.attempts quota (S depth) left k get g
      = Gated.Answer (attempts left k get) g' /\
      Gated.healthy quota g'.
Proof.
  induction left as [|left IH]; intros k g Hg.
  - exists g. now split.
  - cbn [Gated.attempts attempts].
    destruct (check_healthy depth g Hg) as (g1 & -> & Hg1).
    destruct (get k); try (exists g1; now split).
    destruct left as [|left]; [exists g1; now split|].
    apply IH. now apply healthy_sleep.
Qed.

Lemma pages_healthy depth max_repos query :
  forall fuel page n g,
    Gated.healthy quota g ->
    exists g',
      Gated.pages quota (S depth) search fuel max_repos query page n g
      = ((pages search fuel max_repos query page n).1.1,
         (pages search fuel max_repos query page n).1.2,
         Gated.Stops (pages search fuel max_repos query page n).2, g') /\
      Gated.healthy quota g'.
Proof.
  induction fuel as [|fuel IH]; intros page n g Hg.
  - exists g. now split.
  - cbn [Gated.pages pages]. destruct (n <? max_repos); [|exists g; now split].
    unfold Gated._fetch_json, _fetch_json.
    destruct (attempts_healthy depth (search query page) 3 0 g Hg)
      as (g1 & -> & Hg1).
    destruct (attempts 3 0 (search query page)) as [data|e];
      [|exists g1; now split].
    destruct (items_of data) as [|repo items]; [exists g1; now split|].
    destruct (page_items max_repos (repo :: items) n) as [ys n'].
    destruct (IH (S page) n' g1 Hg1) as (g2 & -> & Hg2).
    destruct (pages search fuel max_repos query (S page) n')
      as [[zs m] e]. exists g2. now split.
Qed.

Lemma queries_loop_healthy depth fuel max_repos start_page :
  forall queries n g,
    Gated.healthy quota g ->
    exists g',
      Gated.queries_loop quota (S depth) search fuel max_repos start_page
        queries n g
      = ((queries_loop search fuel max_repos start_page queries n).1,
         Gated.Stops (queries_loop search fuel max_repos start_page queries n).2,
         g') /\
      Gated.healthy quota g'.
Proof.
  induction queries as [|query queries IH]; intros n g Hg.
  - exists g. now split.
  - cbn [Gated.queries_loop queries_loop].
    destruct (pages_healthy depth max_repos query fuel start_page n g Hg)
      as (g1 & -> & Hg1).
    destruct (pages search fuel max_repos query start_page n)
      as [[ys m] e]. cbn [fst snd].
    destruct e as [|x|]; try (exists g1; now split).
    destruct (IH m g1 Hg1) as (g2 & -> & Hg2).
    destruct (queries_loop search fuel max_repos start_page queries m)
      as [zs e']. exists g2. now split.
Qed.

(** Whatever the gate does, the counter stays under the cap and counts the
    dicts yielded. *)
Lemma gated_pages_cap depth max_repos query :
  forall fuel page n g ys m s g',
    n <= max_repos ->
    Gated.pages quota depth search fuel max_repos query page n g
    = (ys, m, s, g') ->
    m <= max_repos /\ n + length ys = m.
Proof.
  induction fuel as [|fuel IH]; intros page n g ys m s g' Hn;
    cbn [Gated.pages].
  - intros [= <- <- <- <-]. cbn. lia.
  - destruct (Nat.ltb_spec n max_repos) as [Hlt|Hge];
      [|intros [= <- <- <- <-]; cbn; lia].
    destruct (Gated._fetch_json _ _ _ _) as [[data|e] g1|g1|];
      try (intros [= <- <- <- <-]; cbn; lia).
    destruct (items_of data) as [|repo items] eqn:Hitems;
      [intros [= <- <- <- <-]; cbn; lia|].
    rewrite page_items_take.
    set (got := take (max_repos - n) (repo :: items)).
    assert (Hgot : length got <= max_repos - n).
    { subst got. rewrite length_take. lia. }
    destruct (Gated.pages quota depth search fuel max_repos query (S page)
                (n + length got) g1) as [[[zs m'] s'] g2] eqn:Hrec.
    intros [= <- <- <- <-].
    apply IH in Hrec as (Hm & Hlen); [|lia].
    rewrite length_app, length_map. lia.
Qed.

Lemma gated_queries_loop_cap depth fuel max_repos start_page :
  forall queries n g ys s g',
    n <= max_repos ->
    Gated.queries_loop quota depth search fuel max_repos start_page queries
      n g = (ys, s, g') ->
    n + length ys <= max_repos.
Proof.
  induction queries as [|query queries IH]; intros n g ys s g' Hn;
    cbn [Gated.queries_loop].
  - intros [= <- <- <-]. cbn. lia.
  - destruct (Gated.pages quota depth search fuel max_repos query start_page
                n g) as [[[ys1 m] s1] g1] eqn:Hp.
    apply gated_pages_cap in Hp as (Hm & Hlen); [|exact Hn].
    destruct s1 as [[|x|]|]; try (intros [= <- <- <-]; lia).
    destruct (Gated.queries_loop quota depth search fuel max_repos
                start_page queries m g1) as [[zs s2] g2] eqn:Hq.
    intros [= <- <- <-]. apply IH in Hq; [|exact Hm].
    rewrite length_app. lia.
Qed.

(** A gate that is about to ask and is told of less than 50 calls holds the
    first request of the stream for ever. *)
Lemma discover_held depth query queries max_repos start_page
    (g : Gated.gate) rem rst :
  0 < max_repos ->
  lock g.1 = false ->
  poll_interval g.1 <> 0%Z ->
  ((call_count g.1 + 1) mod poll_interval g.1 = 0)%Z ->
  (remaining g.1 <= 100)%Z ->
  quota (clock g.2) = Reply200 rem rst ->
  (rem < 50)%Z ->
  Gated.discover_repos_stream quota (S (S depth)) search (query :: queries)
    max_repos start_page g
  = ([], Gated.Waits, stuck g.1 g.2 rem rst).
Proof.
  intros Hmax Hl Hp Hm Hr Hq Hlow.
  unfold Gated.discover_repos_stream.
  cbn [Gated.queries_loop Gated.pages].
  destruct (Nat.ltb_spec 0 max_repos) as [_|]; [|lia].
  unfold Gated._fetch_json. cbn [Gated.attempts].
  now rewrite (check_and_wait_low quota depth g.1 g.2 rem rst).
Qed.

End GatedFacts.

(** C5.  Under a gate that lets the calls through (with a token, or while
    the quota source never reports less than 50) the stream is the one of
    its requests: it stops by itself, and for one query whose pages
    [start_page], ..., [start_page + k - 1] have items and whose next page
    has none, it yields the items of these pages in order, cut at
    [max_repos], and then ends.  Whatever the gate does, at most
    [max_repos] dicts are yielded.  But the stream does not always end: a
    gate that is about to ask for the quota and is told of less than 50
    calls sleeps and then waits for its own lock, so the first request is
    never sent, nothing is yielded and the stream never ends. *)
Theorem discover_until_empty_page
    (quota : Z -> RateGate.probe_reply) (depth : nat)
    (search : string -> nat -> nat -> Fetcher.response Fetcher.search_body)
    (queries : list string) (max_repos start_page : nat) (g : Gated.gate) :
  length (Gated.discover_repos_stream quota depth search queries max_repos
            start_page g).1.1 <= max_repos /\
  (Gated.healthy quota g ->
   exists g',
     Gated.discover_repos_stream quota (S depth) search queries max_repos
       start_page g
     = ((Fetcher.discover_repos_stream search queries max_repos
           start_page).1,
        Gated.Stops
          (Fetcher.discover_repos_stream search queries max_repos
             start_page).2,
        g') /\
     (Fetcher.discover_repos_stream search queries max_repos start_page).2
     <> Fetcher.Unfinished /\
     Gated.healthy quota g') /\
  (forall query k (P : nat -> list Fetcher.repo_json),
     Gated.healthy quota g ->
     queries = [query] ->
     (forall i, i < k ->
        P i <> [] /\
        exists d,
          Fetcher._fetch_json (search query (start_page + i)) = Ok d /\
          Fetcher.items_of d = P i) ->
     (exists d,
        Fetcher._fetch_json (search query (start_page + k)) = Ok d /\
        Fetcher.items_of d = []) ->
     exists g',
       Gated.discover_repos_stream quota (S depth) search queries max_repos
         start_page g
       = (map Fetcher.repo_info_of
            (take max_repos (concat (map P (seq 0 k)))),
          Gated.Stops Fetcher.Exhausted, g')) /\
  (forall query rest rem rst,
     queries = query :: rest ->
     0 < max_repos ->
     RateGate.lock g.1 = false ->
     RateGate.poll_interval g.1 <> 0%Z ->
     ((RateGate.call_count g.1 + 1) mod RateGate.poll_interval g.1 = 0)%Z ->
     (RateGate.remaining g.1 <= 100)%Z ->
     quota (RateGate.clock g.2) = RateGate.Reply200 rem rst ->
     (rem < 50)%Z ->
     Gated.discover_repos_stream quota (S (S depth)) search queries
       max_repos start_page g
     = ([], Gated.Waits, RateGate.stuck g.1 g.2 rem rst)).
Proof.
  assert (Hstream : Gated.healthy quota g ->
            exists g',
              Gated.discover_repos_stream quota (S depth) search queries
                max_repos start_page g
              = ((Fetcher.discover_repos_stream search queries max_repos
                    start_page).1,
                 Gated.Stops
                   (Fetcher.discover_repos_stream search queries max_repos
                      start_page).2,
                 g') /\
              Gated.healthy quota g').
  { intros Hg. unfold Gated.discover_repos_stream,
      Fetcher.discover_repos_stream.
    now apply queries_loop_healthy. }
  split; [|split; [|split]].
  - unfold Gated.discover_repos_stream.
    destruct (Gated.queries_loop quota depth search (S max_repos) max_repos
                start_page queries 0 g) as [[ys s] g'] eqn:Hq.
    apply gated_queries_loop_cap in Hq; [cbn; lia|lia].
  - intros Hg. destruct (Hstream Hg) as (g' & Heq & Hg').
    exists g'. split; [exact Heq|]. split; [|exact Hg'].
    unfold Fetcher.discover_repos_stream.
    destruct (Fetcher.queries_loop search (S max_repos) max_repos start_page
                queries 0) as [ys e] eqn:Hq.
    apply queries_loop_ends in Hq as [He _]; [exact He|lia].
  - intros query k P Hg -> Hfull Hempty.
    destruct (Hstream Hg) as (g' & Heq & _). exists g'. rewrite Heq.
    unfold Fetcher.discover_repos_stream. cbn [Fetcher.queries_loop].
    destruct (pages_until_empty search max_repos query P k (S max_repos)
                start_page 0 ltac:(lia) Hfull Hempty) as (m & ->).
    rewrite Nat.sub_0_r. cbn [fst snd]. now rewrite app_nil_r.
  - intros query rest rem rst ->. apply discover_held.
Qed.

Lemma discover_until_empty_page_witness :
  Gated.discover_repos_stream (fun _ => RateGate.Reply200 10 5000) 2
    Scenario.search [Scenario.query] 1000 1
    (RateGate.mkRateLimiter 60 4600 5 4 false false,
     RateGate.mkGateWorld 1000 0)
  = ([], Gated.Waits,
     (RateGate.mkRateLimiter 10 5000 5 5 true true,
      RateGate.mkGateWorld 8660 1)).
Proof.
  destruct (discover_until_empty_page (fun _ => RateGate.Reply200 10 5000) 0
              Scenario.search [Scenario.query] 1000 1
              (RateGate.mkRateLimiter 60 4600 5 4 false false,
               RateGate.mkGateWorld 1000 0)) as (_ & _ & _ & H).
  apply (H Scenario.query [] 10%Z 5000%Z eq_refl); cbn; try lia;
    reflexivity.
Defined.

(** The same stream behind the gate of a fetcher that has a token. *)
Lemma discover_with_token :
  Gated.discover_repos_stream (fun _ => RateGate.Reply200 10 5000) 2
    Scenario.search [Scenario.query] 1000 1
    (RateGate.init true 1000, RateGate.mkGateWorld 1000 0)
  = ([Fetcher.repo_info_of Scenario.A; Fetcher.repo_info_of Scenario.B],
     Gated.Stops Fetcher.Exhausted,
     (RateGate.mkRateLimiter 5000 4600 5 2 false false,
      RateGate.mkGateWorld 1000 0)).
Proof. vm_compute. reflexivity. Qed.

(** A fetcher without token, from its first request on: four pages of one
    repo go through, the fifth request, whose page is empty, is never
    sent. *)
Lemma discover_held_at_fifth_request :
  Gated.discover_repos_stream (fun _ => RateGate.Reply200 10 5000) 2
    Examples.search_four_pages [Scenario.query] 1000 1
    (RateGate.init false 1000, RateGate.mkGateWorld 1000 0)
  = (map Fetcher.repo_info_of
       [Scenario.A; Scenario.B; Scenario.A; Scenario.B],
     Gated.Waits,
     (RateGate.mkRateLimiter 10 5000 5 5 true true,
      RateGate.mkGateWorld 8660 1)).
Proof. vm_compute. reflexivity. Qed.

(** ** The row of a repo whose files could not be fetched *)

Section StoredRows.

Import Fetcher Agent Batch Inv.

Variable E : env.
Variable C : Config.

(** After the inserts, a name of the rows has one of the rows. *)
Lemma insert_rows_new (d : gmap string Store.row) rows n :
  n ∈ map Store.row_full_name rows ->
  exists row,
    foldl Store.insert_or_replace d rows !! n = Some row /\
    row ∈ rows /\ Store.row_full_name row = n.
Proof.
  revert d. induction rows as [|r rows IH]; intros d Hn.
  - now apply elem_of_nil in Hn.
  - cbn [foldl]. destruct (decide (n ∈ map Store.row_full_name rows))
      as [Hin|Hout].
    + destruct (IH (Store.insert_or_replace d r) Hin) as (row & H1 & H2 & H3).
      exists row. split; [exact H1|]. split; [now right|exact H3].
    + cbn [map] in Hn. apply elem_of_cons in Hn as [->|Hn]; [|contradiction].
      exists r. rewrite insert_rows_other by exact Hout.
      unfold Store.insert_or_replace. rewrite lookup_insert_eq.
      split; [reflexivity|]. split; [left|reflexivity].
Qed.

Lemma apply_results_elem es results e1 :
  e1 ∈ Analyzer.apply_results es results ->
  exists e0, e0 ∈ es /\ info e1 = info e0 /\ analysed e1 = analysed e0 /\
             processing_errors e1 = processing_errors e0.
Proof.
  revert results.
  induction es as [|e es IH]; intros [|r rs]; cbn [Analyzer.apply_results];
    intros H; try (now apply elem_of_nil in H).
  - exists e1. split; [exact H|]. now repeat split.
  - apply elem_of_cons in H as [->|H].
    + exists e. split; [left|]. now destruct (Analyzer.truthy r).
    + destruct (IH rs H) as (e0 & He0 & Hsame). exists e0.
      split; [now right|exact Hsame].
Qed.

(** A dict that comes back from the step "Categorize" is a bare category
    dict, or a dict that went in, with its category keys written. *)
Lemma categorize_elem es e1 :
  e1 ∈ categorize E C es ->
  info e1 = None \/
  exists e0, e0 ∈ es /\ info e1 = info e0 /\ analysed e1 = analysed e0 /\
             processing_errors e1 = processing_errors e0.
Proof.
  assert (Hbare : e1 ∈ Analyzer.heuristic_dicts es -> info e1 = None).
  { unfold Analyzer.heuristic_dicts. intros H.
    apply list_elem_of_fmap in H as (e0 & -> & _). reflexivity. }
  unfold categorize, Analyzer.ai_categorize_batch.
  destruct (use_ai C); cbn [negb].
  - destruct (forallb _ es); [|now left; apply Hbare].
    destruct (remote E es) as [|results]; [now left; apply Hbare|].
    intros H. right. now apply apply_results_elem in H.
  - intros H. apply list_elem_of_fmap in H as (e0 & -> & He0).
    right. exists e0. split; [exact He0|]. now repeat split.
Qed.

(** The row that a batch leaves under the name of one of its repos is the
    row of a dict of a repo of that name, as the steps before "Categorize"
    left it but for the category keys, after "Update status". *)
Lemma stored_row_origin batch processed w n r :
  (_process_batch E C batch processed w).1.1 = Ok n ->
  r ∈ batch ->
  exists row e1 r0,
    db (_process_batch E C batch processed w).2 !! full_name r = Some row /\
    r0 ∈ batch /\ full_name r0 = full_name r /\
    Store.row_of (update_status e1) = Ok row /\
    analysed e1 = analysed (analyze E (fetch_repo_files E r0)) /\
    processing_errors e1
    = processing_errors (analyze E (fetch_repo_files E r0)).
Proof.
  intros Hok Hr. revert Hok. unfold _process_batch.
  pose proof (analysed_carries E batch) as Hc.
  set (es := map (analyze E) (map (fetch_repo_files E) batch)) in *.
  assert (Hne : batch <> []) by (intros ->; now apply elem_of_nil in Hr).
  destruct (categorize_cases E C _ _ Hc) as [Hk|Hbare].
  - pose proof (fun e1 => categorize_elem es e1) as Helem.
    apply (carries_map update_status) in Hk; [|apply update_status_info].
    set (cs := categorize E C es) in *.
    set (vs := map update_status cs) in *.
    rewrite save_to_database_cons by (eapply carries_nonempty; eauto).
    rewrite batch_insert_or_update_cons by (eapply carries_nonempty; eauto).
    cbn [log db ckpt trace flag_reads db_calls saves].
    destruct (db_fails E (db_calls w)); [discriminate|].
    destruct (rows_of_carries _ _ Hk) as (rows & Hrows & Hn).
    rewrite Hrows. cbn [fst snd].
    rewrite (update_processed_carries _ _ _ 0 Hk). cbn [fst snd db].
    intros _.
    assert (Hname : full_name r ∈ map Store.row_full_name rows).
    { rewrite Hn. now apply list_elem_of_fmap_2. }
    destruct (insert_rows_new (db w) rows _ Hname) as (row & Hrow & Hin & Hnm).
    destruct (rows_of_elem _ _ _ Hrows Hin) as (e & He & Hrowof).
    subst vs. apply list_elem_of_fmap in He as (e1 & -> & He1).
    destruct (Helem e1 He1) as [Hnone|(e0 & He0 & Hsame)].
    { unfold Store.row_of in Hrowof. rewrite update_status_info, Hnone in Hrowof.
      discriminate. }
    subst es. apply list_elem_of_fmap in He0 as (e' & -> & He').
    apply list_elem_of_fmap in He' as (r0 & -> & Hr0).
    exists row, e1, r0. split; [exact Hrow|]. split; [exact Hr0|].
    destruct Hsame as (Hinfo & Hsa & Hse).
    split; [|split; [exact Hrowof|split; [exact Hsa|exact Hse]]].
    rewrite analyze_info, fetch_repo_files_info in Hinfo.
    unfold Store.row_of in Hrowof. rewrite update_status_info, Hinfo in Hrowof.
    injection Hrowof as <-. exact Hnm.
  - rewrite Hbare.
    assert (Hes : es <> []) by (eapply carries_nonempty; eauto).
    assert (Hvs : map update_status (Analyzer.heuristic_dicts es) <> []).
    { destruct es; [contradiction|discriminate]. }
    rewrite save_to_database_cons by exact Hvs.
    rewrite batch_insert_or_update_cons by exact Hvs.
    destruct (bare_rows es Hes) as (k & ->).
    cbn [log db ckpt trace flag_reads db_calls saves].
    destruct (db_fails E (db_calls w)); cbn; discriminate.
Qed.

(** The dict of a repo whose contents request raises, after the step
    "Analyze files". *)
Lemma analyze_failed_fetch r e :
  _fetch_json (contents E (full_name r)) = Raise e ->
  fetch_repo_files E r
  = set_processing_errors
      ("File fetch error: " +:+ str_exn (exn_detail E (full_name r)) e)
      (entry_of r) /\
  analyze E (fetch_repo_files E r)
  = set_processing_status "error_no_files"
      (set_processing_errors "; No files found"
         (set_processing_errors
            ("File fetch error: " +:+ str_exn (exn_detail E (full_name r)) e)
            (entry_of r))).
Proof.
  intros Hf. unfold fetch_repo_files. rewrite Hf. now split.
Qed.

(** The row of a dict without analysis whose message is the one of the
    step "Analyze files". *)
Lemma row_of_unanalysed e1 row :
  analysed e1 = None ->
  processing_errors e1 = Some "; No files found" ->
  Store.row_of (update_status e1) = Ok row ->
  Store.row_processing_status row = "scraped_invalid" /\
  Store.row_is_valid row = false /\
  Store.row_processing_errors row = "; No files found".
Proof.
  intros Ha He. unfold update_status, Store.row_of. rewrite Ha.
  cbn [fmap option_fmap option_map default info set_processing_status].
  destruct (info e1) as [r1|]; [|discriminate].
  intros [= <-]. cbn. rewrite Ha, He. now repeat split.
Qed.

End StoredRows.

(** C3, as the code has it.  A repo of a batch whose contents request
    fails at all three attempts is not dropped: its dict goes to the
    classifier and to the upsert with the rest of the batch, and when the
    batch has gone through it has a row under its name.  After the step
    "Analyze files" the dict has the status [error_no_files]; but the step
    "Update status" then writes a status by [is_valid] in every dict, so
    the row has the status [scraped_invalid] of any repo that is not
    valid, and no error status. *)
Theorem failed_fetch_still_stored
    (E : Agent.env) (C : Agent.Config) (batch : list Fetcher.repo_info)
    (processed : gset string) (w : Agent.world) (n : nat)
    (r : Fetcher.repo_info) :
  (Agent._process_batch E C batch processed w).1.1 = Ok n ->
  r ∈ batch ->
  (forall k, k < 3 ->
     Agent.contents E (Fetcher.full_name r) k = Fetcher.ClientError) ->
  Agent.Classify (map Fetcher.full_name batch)
  ∈ Agent.trace (Agent._process_batch E C batch processed w).2 /\
  Agent.Upsert (map Fetcher.full_name batch)
  ∈ Agent.trace (Agent._process_batch E C batch processed w).2 /\
  info (Agent.analyze E (Agent.fetch_repo_files E r)) = Some r /\
  processing_status (Agent.analyze E (Agent.fetch_repo_files E r))
  = Some "error_no_files" /\
  exists row,
    Agent.db (Agent._process_batch E C batch processed w).2
      !! Fetcher.full_name r = Some row /\
    Store.row_processing_status row = "scraped_invalid" /\
    Store.row_is_valid row = false.
Proof.
  intros Hok Hr Hfail.
  destruct (batch_outcome_stores E _ _ _ _ _ _ n r
              (process_batch_outcome E C batch processed w) Hok Hr)
    as (_ & Hclassify & Hupsert).
  split; [exact Hclassify|]. split; [exact Hupsert|].
  destruct (analyze_failed_fetch E r RetryError
              (fetch_json_gives_up _ Hfail)) as [_ Han].
  rewrite Han. split; [reflexivity|]. split; [reflexivity|].
  destruct (stored_row_origin E C batch processed w n r Hok Hr)
    as (row & e1 & r0 & Hrow & _ & Hname & Hrowof & Ha & He).
  rewrite <- Hname in Hfail.
  destruct (analyze_failed_fetch E r0 RetryError
              (fetch_json_gives_up _ Hfail)) as [_ Han0].
  rewrite Han0 in Ha, He.
  destruct (row_of_unanalysed e1 row Ha He Hrowof) as (Hs & Hv & _).
  exists row. now repeat split.
Qed.

Lemma failed_fetch_still_stored_witness :
  exists row,
    Agent.db
      (Agent._process_batch (Scenario.env false None)
         (Scenario.config 30 false)
         [Fetcher.repo_info_of Scenario.A; Fetcher.repo_info_of Scenario.B]
         ∅ (Agent.mkWorld ∅ Checkpoint.Missing [] 0 0 0)).2
      !! "acme/B" = Some row /\
    Store.row_processing_status row = "scraped_invalid" /\
    Store.row_is_valid row = false.
Proof.
  assert (Hok : (Agent._process_batch (Scenario.env false None)
                   (Scenario.config 30 false)
                   [Fetcher.repo_info_of Scenario.A;
                    Fetcher.repo_info_of Scenario.B]
                   ∅ (Agent.mkWorld ∅ Checkpoint.Missing [] 0 0 0)).1.1
                = Ok 2) by (vm_compute; reflexivity).
  refine (proj2 (proj2 (proj2 (proj2
            (failed_fetch_still_stored _ _ _ _ _ 2
               (Fetcher.repo_info_of Scenario.B) Hok _ _))))).
  - apply list_elem_of_further, list_elem_of_here.
  - intros k _. reflexivity.
Defined.

(** What the table keeps of the message of a failed fetch: nothing.  When
    the contents request of a repo raises, [fetch_repo_files] writes
    ["File fetch error: "] and the text of the exception in
    [processing_errors]; the step "Analyze files" finds no files and
    overwrites the message, so that the row of the repo says
    ["; No files found"], whatever the exception was and with either
    classifier. *)
Theorem failed_fetch_row
    (E : Agent.env) (C : Agent.Config) (batch : list Fetcher.repo_info)
    (processed : gset string) (w : Agent.world) (n : nat)
    (r : Fetcher.repo_info) (e : exn) :
  (Agent._process_batch E C batch processed w).1.1 = Ok n ->
  r ∈ batch ->
  Fetcher._fetch_json (Agent.contents E (Fetcher.full_name r)) = Raise e ->
  processing_errors (Agent.fetch_repo_files E r)
  = Some ("File fetch error: "
          +:+ Agent.str_exn (Agent.exn_detail E (Fetcher.full_name r)) e) /\
  (e = RetryError ->
   processing_errors (Agent.fetch_repo_files E r)
   = Some ("File fetch error: RetryError["
           +:+ Agent.exn_detail E (Fetcher.full_name r) +:+ "]")) /\
  exists row,
    Agent.db (Agent._process_batch E C batch processed w).2
      !! Fetcher.full_name r = Some row /\
    Store.row_processing_errors row = "; No files found".
Proof.
  intros Hok Hr Hfail.
  destruct (analyze_failed_fetch E r e Hfail) as [Hfetch _].
  rewrite Hfetch. split; [reflexivity|]. split; [now intros ->|].
  destruct (stored_row_origin E C batch processed w n r Hok Hr)
    as (row & e1 & r0 & Hrow & _ & Hname & Hrowof & Ha & He).
  rewrite <- Hname in Hfail.
  destruct (analyze_failed_fetch E r0 e Hfail) as [_ Han0].
  rewrite Han0 in Ha, He.
  destruct (row_of_unanalysed e1 row Ha He Hrowof) as (_ & _ & Herr).
  exists row. now split.
Qed.

Lemma failed_fetch_row_witness :
  processing_errors
    (Agent.fetch_repo_files (Scenario.env false None)
       (Fetcher.repo_info_of Scenario.B))
  = Some ("File fetch error: RetryError[<Future at 0x7f3a5c0b1d30 "
          +:+ "state=finished raised ClientConnectorError>]") /\
  exists row,
    Agent.db
      (Agent._process_batch (Scenario.env false None)
         (Scenario.config 30 false)
         [Fetcher.repo_info_of Scenario.A; Fetcher.repo_info_of Scenario.B]
         ∅ (Agent.mkWorld ∅ Checkpoint.Missing [] 0 0 0)).2
      !! "acme/B" = Some row /\
    Store.row_processing_errors row = "; No files found".
Proof.
  assert (Hok : (Agent._process_batch (Scenario.env false None)
                   (Scenario.config 30 false)
                   [Fetcher.repo_info_of Scenario.A;
                    Fetcher.repo_info_of Scenario.B]
                   ∅ (Agent.mkWorld ∅ Checkpoint.Missing [] 0 0 0)).1.1
                = Ok 2) by (vm_compute; reflexivity).
  destruct (failed_fetch_row (Scenario.env false None)
              (Scenario.config 30 false)
              [Fetcher.repo_info_of Scenario.A;
               Fetcher.repo_info_of Scenario.B]
              ∅ (Agent.mkWorld ∅ Checkpoint.Missing [] 0 0 0) 2
              (Fetcher.repo_info_of Scenario.B) RetryError Hok)
    as (Htext & _ & Hrow).
  - apply list_elem_of_further, list_elem_of_here.
  - reflexivity.
  - split; [exact Htext|exact Hrow].
Defined.
